(** * WhatsApp appointment bot: synchronisation and deduplication engine

    A shallow embedding of the booking path ([saveAppointment]), the sync
    coordinator ([SimpleSyncManager]), the reconciliation service
    ([CalendarSyncService]) and the maintenance sweeps
    ([MaintenanceManager]), followed by the properties of the specification
    that were checked against them.

    Everything outside the repository is collected in [Env]: the wall clock,
    the SQLite driver's failures, the OAuth token check, the calendar
    provider's answers and the [moment] parsing functions.  An answer is
    indexed by the step at which it is asked for (the world counts its
    interactions with the outside in [steps]), so an environment may answer
    differently each time.  The general theorems quantify over the
    environment; the scenarios run in a concrete one.

    Part III covers more of the same files: how the operations compose,
    what they leave alone, and the callers and helpers around them (the
    server's scheduled sync, the full maintenance run, the calendar check,
    patients, phone numbers and the slots offered for booking). *)

From Stdlib Require Import ZArith List String Ascii Bool Lia Arith Permutation.
From Stdlib Require DecimalString.
Import ListNotations.
Local Open Scope string_scope.
Local Open Scope Z_scope.

(* ================================================================== *)
(** * Part I: the model                                                *)
(* ================================================================== *)

(** ** Rows of the record store (database/schema.sql) *)

Module Appointment.
(** A row of table [appointments].  [created_at] and [updated_at] hold the
    instant (milliseconds since the epoch) the stored text denotes, [None]
    for NULL or for a text [moment] cannot parse. *)
Record t := {
  id : Z;
  patient_phone : string;
  patient_name : option string;
  appointment_date : string;
  appointment_time : string;
  duration_minutes : Z;
  status : string;
  google_event_id : option string;
  created_at : option Z;
  updated_at : option Z
}.

Definition set_google_event_id (e : option string) (now : Z) (a : t) : t :=
  {| id := id a; patient_phone := patient_phone a;
     patient_name := patient_name a;
     appointment_date := appointment_date a;
     appointment_time := appointment_time a;
     duration_minutes := duration_minutes a; status := status a;
     google_event_id := e; created_at := created_at a;
     updated_at := Some now |}.

Definition set_updated_at (now : Z) (a : t) : t :=
  {| id := id a; patient_phone := patient_phone a;
     patient_name := patient_name a;
     appointment_date := appointment_date a;
     appointment_time := appointment_time a;
     duration_minutes := duration_minutes a; status := status a;
     google_event_id := google_event_id a; created_at := created_at a;
     updated_at := Some now |}.

Definition set_status (s : string) (touch : option Z) (a : t) : t :=
  {| id := id a; patient_phone := patient_phone a;
     patient_name := patient_name a;
     appointment_date := appointment_date a;
     appointment_time := appointment_time a;
     duration_minutes := duration_minutes a; status := s;
     google_event_id := google_event_id a; created_at := created_at a;
     updated_at := match touch with Some n => Some n | None => updated_at a end |}.
End Appointment.

Module Patient.
Record t := { phone : string; name : option string }.
End Patient.

(** The object [getUpcomingAppointments] builds for each listed event. *)
Module CalendarEvent.
Record t := {
  id : string;
  title : option string;
  start : string;
  end_ : string;
  description : option string
}.
End CalendarEvent.

(** The argument of [googleCalendar.createAppointment] and
    [googleCalendar.updateAppointment]. *)
Module AppointmentData.
Record t := {
  patientName : string;
  patientPhone : string;
  date : string;
  time : string;
  duration : Z
}.
End AppointmentData.

(** ** The sync coordinator's state (simple-sync-manager.js) *)

Module SimpleSyncManager.
Record t := { isRunning : bool; lastRun : Z; minInterval : Z }.

Definition constructor : t :=
  {| isRunning := false; lastRun := 0; minInterval := 5 * 60 * 1000 |}.

Definition set_isRunning (b : bool) (m : t) : t :=
  {| isRunning := b; lastRun := lastRun m; minInterval := minInterval m |}.

Definition set_lastRun (now : Z) (m : t) : t :=
  {| isRunning := isRunning m; lastRun := now; minInterval := minInterval m |}.
End SimpleSyncManager.

(** ** Calls the engine makes on the calendar gateway (src/googleCalendar.js) *)

Inductive Call : Type :=
| CallAuthenticate
| CallGetUpcomingAppointments (days : Z)
| CallCreateAppointment (d : AppointmentData.t)
| CallUpdateAppointment (eventId : string) (d : AppointmentData.t)
| CallCancelAppointment (eventId : string)
| CallCreateEvent (summary description : string) (startDateTime endDateTime : option Z).

(** The value [db.run] resolves with. *)
Module RunResult.
Record t := { id : Z; changes : Z }.
End RunResult.

(** The value [saveAppointment] resolves with. *)
Module SaveResult.
Record t := { id : Z; existed : bool }.
End SaveResult.

(** A row of [checkDbDuplicates]. *)
Module DuplicateGroup.
Record t := {
  patient_phone : string;
  appointment_date : string;
  appointment_time : string;
  count : nat
}.
End DuplicateGroup.

(** ** The process and its stores *)

Record World := {
  sync : SimpleSyncManager.t;
  appointments : list Appointment.t;
  patients : list Patient.t;
  sqlite_sequence : Z;
  steps : nat;
  calls : list Call
}.

(** ** Everything outside the repository *)

Record Env := {
  (** [Date.now()] (and SQLite's and moment's clock) at a given step *)
  date_now : nat -> Z;
  (** the SQLite driver rejects the statement issued at a given step *)
  sqlite_fails : nat -> bool;
  (** [ensureValidTokens] resolves at a given step *)
  tokens_valid : nat -> bool;
  (** [authenticate] resolves at a given step *)
  authenticates : nat -> bool;
  (** answers of the provider: [None] or [false] is a rejected request *)
  events_list : nat -> option (list CalendarEvent.t);
  events_insert : nat -> option string;
  events_update : nat -> bool;
  events_delete : nat -> bool;
  (** [require('../src/appointmentBot')] succeeds *)
  appointmentBot_loads : bool;
  (** [new Date(s).getTime()], [None] for an invalid date *)
  new_Date : string -> option Z;
  (** [moment.tz(s, TIMEZONE).valueOf()], [None] for an invalid moment *)
  moment_tz : string -> option Z;
  (** [moment(s).valueOf()], [None] for an invalid moment *)
  moment : string -> option Z
}.

(** ** Promises: state passing with exceptions *)

Inductive Error : Type :=
| SqliteError | ConstraintError | AuthError | ProviderError | TypeError
| RangeError | ModuleNotFound.

Inductive Outcome (A : Type) : Type :=
| Return (a : A)
| Throw (e : Error).
Arguments Return {A} a.
Arguments Throw {A} e.

Definition M (A : Type) : Type := World -> Outcome A * World.

Definition ret {A} (a : A) : M A := fun w => (Return a, w).

Definition throw {A} (e : Error) : M A := fun w => (Throw e, w).

Definition bind {A B} (c : M A) (k : A -> M B) : M B :=
  fun w => match c w with
           | (Return a, w1) => k a w1
           | (Throw e, w1) => (Throw e, w1)
           end.

Definition try_catch {A} (c : M A) (h : Error -> M A) : M A :=
  fun w => match c w with
           | (Return a, w1) => (Return a, w1)
           | (Throw e, w1) => h e w1
           end.

(** [try { c } finally { f }]: [f] runs on every path; its own exception
    would replace the outcome of [c]. *)
Definition try_finally {A} (c : M A) (f : M unit) : M A :=
  fun w => match c w with
           | (r, w1) => match f w1 with
                        | (Return _, w2) => (r, w2)
                        | (Throw e, w2) => (Throw e, w2)
                        end
           end.

Declare Scope promise_scope.
Delimit Scope promise_scope with promise.
Notation "x <- c ;; k" := (bind c (fun x => k))
  (at level 61, c at next level, right associativity) : promise_scope.
Notation "c ;;; k" := (bind c (fun _ => k))
  (at level 61, right associativity) : promise_scope.
Local Open Scope promise_scope.

(** [for (const x of l) { body }] *)
Fixpoint for_of {A} (l : list A) (body : A -> M unit) : M unit :=
  match l with
  | [] => ret tt
  | x :: l' => body x ;;; for_of l' body
  end.

Definition tick (w : World) : World :=
  {| sync := sync w; appointments := appointments w; patients := patients w;
     sqlite_sequence := sqlite_sequence w; steps := S (steps w);
     calls := calls w |}.

Definition set_sync (s : SimpleSyncManager.t) (w : World) : World :=
  {| sync := s; appointments := appointments w; patients := patients w;
     sqlite_sequence := sqlite_sequence w; steps := steps w;
     calls := calls w |}.

Definition set_appointments (l : list Appointment.t) (w : World) : World :=
  {| sync := sync w; appointments := l; patients := patients w;
     sqlite_sequence := sqlite_sequence w; steps := steps w;
     calls := calls w |}.

Definition set_sqlite_sequence (n : Z) (w : World) : World :=
  {| sync := sync w; appointments := appointments w; patients := patients w;
     sqlite_sequence := n; steps := steps w; calls := calls w |}.

Definition log_call (r : Call) (w : World) : World :=
  {| sync := sync w; appointments := appointments w; patients := patients w;
     sqlite_sequence := sqlite_sequence w; steps := steps w;
     calls := calls w ++ [r] |}.

Section Model.

Variable env : Env.

(** [Date.now()] *)
Definition Date_now : M Z :=
  fun w => (Return (date_now env (steps w)), tick w).

(** ** simple-sync-manager.js *)

Definition canRun : M bool :=
  now <- Date_now ;;
  fun w =>
    let timeSinceLastRun := now - SimpleSyncManager.lastRun (sync w) in
    if SimpleSyncManager.isRunning (sync w) then (Return false, w)
    else if timeSinceLastRun <? SimpleSyncManager.minInterval (sync w)
         then (Return false, w)
         else (Return true, w).

(** An assignment to a field of the singleton. *)
Definition assign (f : SimpleSyncManager.t -> SimpleSyncManager.t) : M unit :=
  fun w => (Return tt, set_sync (f (sync w)) w).

Definition start : M bool :=
  ok <- canRun ;;
  if negb ok then ret false
  else
    assign (SimpleSyncManager.set_isRunning true) ;;;
    now <- Date_now ;;
    assign (SimpleSyncManager.set_lastRun now) ;;;
    ret true.

Definition stop : M unit :=
  assign (SimpleSyncManager.set_isRunning false).

(** [for (...) { acc = body(acc, x) }]: a loop that threads a counter *)
Fixpoint fold_of {A S} (l : list A) (s : S) (body : S -> A -> M S) : M S :=
  match l with
  | [] => ret s
  | x :: l' => s1 <- body s x ;; fold_of l' s1 body
  end.

(** ** database/init.js: [query] and [run] over the appointments table *)

(** [db.query(sql, params)]: the promise rejects when the driver reports an
    error and resolves with the selected rows otherwise. *)
Definition db_query {A} (select : World -> A) : M A :=
  fun w => if sqlite_fails env (steps w) then (Throw SqliteError, tick w)
           else (Return (select w), tick w).

(** [db.run(sql, params)]: the statement sees SQLite's clock; [None] is a
    violated constraint of the schema. *)
Definition db_run (stmt : Z -> World -> option (RunResult.t * World))
  : M RunResult.t :=
  fun w => if sqlite_fails env (steps w) then (Throw SqliteError, tick w)
           else match stmt (date_now env (steps w)) w with
                | Some (r, w1) => (Return r, tick w1)
                | None => (Throw ConstraintError, tick w)
                end.

Definition status_in (l : list string) (a : Appointment.t) : bool :=
  existsb (String.eqb (Appointment.status a)) l.

Definition active_statuses : list string :=
  ["scheduled"; "confirmed"; "pending"].

Definition same_slot (phone date time : string) (a : Appointment.t) : bool :=
  String.eqb (Appointment.patient_phone a) phone
  && String.eqb (Appointment.appointment_date a) date
  && String.eqb (Appointment.appointment_time a) time.

Definition option_string_eqb (x y : option string) : bool :=
  match x, y with
  | Some a, Some b => String.eqb a b
  | _, _ => false
  end.

(** [google_event_id TEXT UNIQUE]: a non-NULL value may occur once *)
Definition event_id_taken (e : option string) (skip : Z)
  (rows : list Appointment.t) : bool :=
  existsb (fun a => negb (Appointment.id a =? skip)
                    && option_string_eqb (Appointment.google_event_id a) e)
          rows.

(** [id INTEGER PRIMARY KEY AUTOINCREMENT] *)
Definition next_rowid (w : World) : Z :=
  Z.max (sqlite_sequence w)
        (fold_right Z.max 0 (map Appointment.id (appointments w))) + 1.

(** [UPDATE appointments SET google_event_id = ?, updated_at = datetime("now")
     WHERE id = ?] *)
Definition update_google_event_id (eventId : string) (rowid : Z)
  : Z -> World -> option (RunResult.t * World) :=
  fun now w =>
    let hit := filter (fun a => Appointment.id a =? rowid) (appointments w) in
    match hit with
    | [] => Some ({| RunResult.id := sqlite_sequence w; RunResult.changes := 0 |}, w)
    | _ :: _ =>
      if event_id_taken (Some eventId) rowid (appointments w) then None
      else Some ({| RunResult.id := sqlite_sequence w;
                    RunResult.changes := Z.of_nat (List.length hit) |},
                 set_appointments
                   (map (fun a => if Appointment.id a =? rowid
                                  then Appointment.set_google_event_id
                                         (Some eventId) now a
                                  else a) (appointments w)) w)
    end.

(** ** src/appointmentBot.js: the booking path *)

(** [SELECT id FROM appointments WHERE patient_phone = ? AND
     appointment_date = ? AND appointment_time = ? AND status IN (?, ?, ?)]
    with ['scheduled', 'confirmed', 'pending'] *)
Definition select_existing (d : Appointment.t) (w : World) : list Z :=
  map Appointment.id
      (filter (fun a => same_slot (Appointment.patient_phone d)
                                  (Appointment.appointment_date d)
                                  (Appointment.appointment_time d) a
                        && status_in active_statuses a)
              (appointments w)).

(** The row [INSERT INTO appointments (...) VALUES (?, ..., datetime('now'),
    datetime('now'))] adds; the [id] of [d] is not used.  The statement can
    only violate [google_event_id TEXT UNIQUE]: the schema's
    [idx_appointments_unique_slot] on (patient_phone, appointment_date,
    appointment_time) is created without [UNIQUE] and rejects nothing. *)
Definition inserted_row (d : Appointment.t) (rowid now : Z) : Appointment.t :=
  {| Appointment.id := rowid;
     Appointment.patient_phone := Appointment.patient_phone d;
     Appointment.patient_name := Appointment.patient_name d;
     Appointment.appointment_date := Appointment.appointment_date d;
     Appointment.appointment_time := Appointment.appointment_time d;
     Appointment.duration_minutes := Appointment.duration_minutes d;
     Appointment.status := Appointment.status d;
     Appointment.google_event_id := Appointment.google_event_id d;
     Appointment.created_at := Some now;
     Appointment.updated_at := Some now |}.

Definition insert_appointment (d : Appointment.t)
  : Z -> World -> option (RunResult.t * World) :=
  fun now w =>
    let rowid := next_rowid w in
    if event_id_taken (Appointment.google_event_id d) rowid (appointments w)
    then None
    else
      Some ({| RunResult.id := rowid; RunResult.changes := 1 |},
            set_sqlite_sequence rowid
              (set_appointments
                 (appointments w ++ [inserted_row d rowid now]) w)).

(** The part of [saveAppointment] up to its first [await]: the duplicate
    check is issued. *)
Definition saveAppointment_check (d : Appointment.t) : M (list Z) :=
  db_query (select_existing d).

(** The part of [saveAppointment] that runs once the check has resolved. *)
Definition saveAppointment_resume (d : Appointment.t) (existingAppointment : list Z)
  : M SaveResult.t :=
  match existingAppointment with
  | existing :: _ =>
    ret {| SaveResult.id := existing; SaveResult.existed := true |}
  | [] =>
    result <- db_run (insert_appointment d) ;;
    ret {| SaveResult.id := RunResult.id result; SaveResult.existed := false |}
  end.

Definition saveAppointment (d : Appointment.t) : M SaveResult.t :=
  try_catch
    (existingAppointment <- saveAppointment_check d ;;
     saveAppointment_resume d existingAppointment)
    (fun error => throw error).

(** Two booking attempts issued back to back, as two incoming messages
    start them: each suspends at its [await this.db.query], the driver
    answers both checks, then each resumes. *)
Definition saveAppointment_concurrently (d1 d2 : Appointment.t)
  : M (SaveResult.t * SaveResult.t) :=
  existing1 <- saveAppointment_check d1 ;;
  existing2 <- saveAppointment_check d2 ;;
  r1 <- saveAppointment_resume d1 existing1 ;;
  r2 <- saveAppointment_resume d2 existing2 ;;
  ret (r1, r2).

(** The records the duplicate-prevention invariant counts for a slot. *)
Definition active_at (phone date time : string) (rows : list Appointment.t)
  : list Appointment.t :=
  filter (fun a => same_slot phone date time a && status_in active_statuses a)
         rows.

(** ** maintenance.js: the store sweep *)

Definition slot_of (a : Appointment.t) : string * string * string :=
  (Appointment.patient_phone a, Appointment.appointment_date a,
   Appointment.appointment_time a).

Definition in_slot (k : string * string * string) (a : Appointment.t) : bool :=
  let '(phone, date, time) := k in same_slot phone date time a.

(** The distinct slots of some rows, by first occurrence. *)
Fixpoint distinct_slots (rows : list Appointment.t)
  : list (string * string * string) :=
  match rows with
  | [] => []
  | a :: rows' =>
    slot_of a :: filter (fun k => negb (in_slot k a)) (distinct_slots rows')
  end.

(** [SELECT patient_phone, appointment_date, appointment_time, COUNT( * )
     FROM appointments WHERE status IN ('scheduled','confirmed','pending')
     GROUP BY patient_phone, appointment_date, appointment_time
     HAVING COUNT( * ) > 1].  SQL leaves the order of the groups open; the
    sweep's final store does not depend on it. *)
Definition select_duplicate_groups (w : World) : list DuplicateGroup.t :=
  let active := filter (status_in active_statuses) (appointments w) in
  flat_map
    (fun k =>
       let n := List.length (filter (in_slot k) active) in
       let '(phone, date, time) := k in
       if (1 <? n)%nat
       then [{| DuplicateGroup.patient_phone := phone;
                DuplicateGroup.appointment_date := date;
                DuplicateGroup.appointment_time := time;
                DuplicateGroup.count := n |}]
       else [])
    (distinct_slots active).

Definition checkDbDuplicates : M (list DuplicateGroup.t) :=
  db_query select_duplicate_groups.

(** SQLite's order on [created_at]: NULL sorts first. *)
Definition created_le (a b : Appointment.t) : bool :=
  match Appointment.created_at a, Appointment.created_at b with
  | None, _ => true
  | Some _, None => false
  | Some x, Some y => x <=? y
  end.

Fixpoint insert_by_created (a : Appointment.t) (l : list Appointment.t)
  : list Appointment.t :=
  match l with
  | [] => [a]
  | b :: l' => if created_le a b then a :: b :: l'
               else b :: insert_by_created a l'
  end.

(** [ORDER BY created_at ASC]; rows with equal keys stay in rowid order. *)
Definition order_by_created (l : list Appointment.t) : list Appointment.t :=
  fold_right insert_by_created [] l.

(** [SELECT id FROM appointments WHERE patient_phone = ? AND
     appointment_date = ? AND appointment_time = ? ORDER BY created_at ASC] *)
Definition select_slot_records (dup : DuplicateGroup.t) (w : World) : list Z :=
  map Appointment.id
      (order_by_created
         (filter (same_slot (DuplicateGroup.patient_phone dup)
                            (DuplicateGroup.appointment_date dup)
                            (DuplicateGroup.appointment_time dup))
                 (appointments w))).

Definition Z_in (x : Z) (l : list Z) : bool := existsb (Z.eqb x) l.

(** [DELETE FROM appointments WHERE id IN (...)] *)
Definition delete_ids (ids : list Z)
  : Z -> World -> option (RunResult.t * World) :=
  fun _ w =>
    let kept := filter (fun a => negb (Z_in (Appointment.id a) ids))
                       (appointments w) in
    Some ({| RunResult.id := sqlite_sequence w;
             RunResult.changes :=
               Z.of_nat (List.length (appointments w) - List.length kept) |},
          set_appointments kept w).

(** One turn of [for (const dup of duplicates)] in [cleanDbDuplicates] *)
Definition clean_group (totalDeleted : nat) (dup : DuplicateGroup.t) : M nat :=
  records <- db_query (select_slot_records dup) ;;
  let toDelete := tl records in
  if (0 <? List.length toDelete)%nat
  then db_run (delete_ids toDelete) ;;;
       ret (totalDeleted + List.length toDelete)%nat
  else ret totalDeleted.

Definition cleanDbDuplicates : M nat :=
  duplicates <- checkDbDuplicates ;;
  if (List.length duplicates =? 0)%nat then ret 0%nat
  else fold_of duplicates 0%nat clean_group.

End Model.

(** ** JavaScript values used by the sweeps and the reconciliation *)

(** [s.split(c)] for a one-character separator *)
Fixpoint split (c : ascii) (s : string) : list string :=
  match s with
  | EmptyString => [EmptyString]
  | String x s' =>
    if Ascii.eqb x c then EmptyString :: split c s'
    else match split c s' with
         | h :: t => String x h :: t
         | [] => [String x EmptyString]
         end
  end.

(** [a || b] on strings that may be null: the empty string is falsy *)
Definition or_else (a : option string) (b : option string) : option string :=
  match a with
  | Some EmptyString | None => b
  | Some s => Some s
  end.

Definition or_default (a : option string) (b : string) : string :=
  match a with
  | Some EmptyString | None => b
  | Some s => s
  end.

(** A [Map] with string keys: [set] on a present key replaces the value in
    place, iteration follows first insertion. *)
Fixpoint Map_set {V} (k : string) (v : V) (m : list (string * V))
  : list (string * V) :=
  match m with
  | [] => [(k, v)]
  | (k', v') :: m' => if String.eqb k' k then (k', v) :: m'
                      else (k', v') :: Map_set k v m'
  end.

Fixpoint Map_get {V} (k : string) (m : list (string * V)) : option V :=
  match m with
  | [] => None
  | (k', v') :: m' => if String.eqb k' k then Some v' else Map_get k m'
  end.

Definition Set_has (k : string) (s : list string) : bool :=
  existsb (String.eqb k) s.

(** [event.start.split('T')[0] + '_' + event.start.split('T')[1].substring(0, 5)];
    [None] when [split('T')[1]] is undefined and [substring] throws. *)
Definition slot_key (event : CalendarEvent.t) : option string :=
  match split "T" (CalendarEvent.start event) with
  | date :: rest :: _ => Some (date ++ "_" ++ substring 0 5 rest)%string
  | _ => None
  end.

(** The properties of [Object.prototype] a slot key can spell: [timeSlots[key]]
    is then truthy and has no [push]. *)
Definition prototype_keys : list string :=
  ["__proto__"; "__defineGetter__"; "__defineSetter__"; "__lookupGetter__";
   "__lookupSetter__"].

(** [if (!timeSlots[key]) timeSlots[key] = []; timeSlots[key].push(event)];
    a slot key never is an array index, so [Object.entries] follows the
    order of insertion. *)
Fixpoint push_slot (key : string) (event : CalendarEvent.t)
  (timeSlots : list (string * list CalendarEvent.t))
  : list (string * list CalendarEvent.t) :=
  match timeSlots with
  | [] => [(key, [event])]
  | (k, slotEvents) :: rest =>
    if String.eqb k key then (k, (slotEvents ++ [event])%list) :: rest
    else (k, slotEvents) :: push_slot key event rest
  end.

(** [events.forEach(event => { ... })]; [None] is a [TypeError]. *)
Fixpoint group_events (events : list CalendarEvent.t)
  (timeSlots : list (string * list CalendarEvent.t))
  : option (list (string * list CalendarEvent.t)) :=
  match events with
  | [] => Some timeSlots
  | event :: events' =>
    match slot_key event with
    | None => None
    | Some key =>
      if Set_has key prototype_keys then None
      else group_events events' (push_slot key event timeSlots)
    end
  end.

Definition is_some {A} (o : option A) : bool :=
  match o with Some _ => true | None => false end.

(** [SELECT ... FROM appointments WHERE status = 'scheduled' AND
     google_event_id IS NOT NULL] *)
Definition select_scheduled_with_event (w : World) : list Appointment.t :=
  filter (fun a => String.eqb (Appointment.status a) "scheduled"
                   && is_some (Appointment.google_event_id a))
         (appointments w).

(** [SELECT * FROM appointments WHERE status = 'scheduled' AND
     (google_event_id IS NULL OR google_event_id = "")] *)
Definition select_scheduled_without_event (w : World) : list Appointment.t :=
  filter (fun a => String.eqb (Appointment.status a) "scheduled"
                   && match Appointment.google_event_id a with
                      | None | Some EmptyString => true
                      | Some _ => false
                      end)
         (appointments w).

(** [SELECT * FROM patients WHERE phone = ?] *)
Definition select_patient (phone : string) (w : World) : list Patient.t :=
  filter (fun p => String.eqb (Patient.phone p) phone) (patients w).

(** [x LIKE "____-__-__"] and [x LIKE "__:__"]: an underscore matches any
    one character. *)
Fixpoint like (pattern s : string) : bool :=
  match pattern, s with
  | EmptyString, EmptyString => true
  | String p pattern', String c s' =>
    (Ascii.eqb p "_" || Ascii.eqb p c) && like pattern' s'
  | _, _ => false
  end.

Definition select_invalid_formats (w : World) : list Appointment.t :=
  filter (fun a => String.eqb (Appointment.status a) "scheduled"
                   && (negb (like "____-__-__" (Appointment.appointment_date a))
                       || negb (like "__:__" (Appointment.appointment_time a))))
         (appointments w).

Definition iso_local (date time : string) : string :=
  (date ++ "T" ++ time ++ ":00")%string.

(** [a.isSame(b)]: false as soon as one moment is invalid *)
Definition isSame (a b : option Z) : bool :=
  match a, b with
  | Some x, Some y => x =? y
  | _, _ => false
  end.

(** [moment(now).diff(moment(created_at), 'hours') <= 24]: the difference is
    truncated toward zero; an invalid moment gives NaN, and the comparison
    is false. *)
Definition hoursSinceCreation (now : Z) (created_at : option Z) : option Z :=
  match created_at with
  | Some created => Some (Z.quot (now - created) 3600000)
  | None => None
  end.

Definition recent (hours : option Z) : bool :=
  match hours with
  | Some h => h <=? 24
  | None => false
  end.

Section Gateway.

Variable env : Env.

(** ** src/googleCalendar.js *)

Definition enter (c : Call) : M unit := fun w => (Return tt, log_call c w).

Definition ensureValidTokens : M unit :=
  fun w => if tokens_valid env (steps w) then (Return tt, tick w)
           else (Throw AuthError, tick w).

Definition authenticate : M unit :=
  enter CallAuthenticate ;;;
  fun w => if authenticates env (steps w) then (Return tt, tick w)
           else (Throw AuthError, tick w).

(** A request to the provider: resolved with its answer or rejected. *)
Definition provider {A} (answer : nat -> option A) : M A :=
  fun w => match answer (steps w) with
           | Some a => (Return a, tick w)
           | None => (Throw ProviderError, tick w)
           end.

Definition accepted (answer : nat -> bool) (n : nat) : option unit :=
  if answer n then Some tt else None.

(** [startDateTime.toISOString()] throws on an invalid date. *)
Definition toISOString (d : AppointmentData.t) : M unit :=
  match new_Date env (iso_local (AppointmentData.date d) (AppointmentData.time d)) with
  | Some _ => ret tt
  | None => throw RangeError
  end.

Definition createAppointment (appointmentData : AppointmentData.t) : M string :=
  enter (CallCreateAppointment appointmentData) ;;;
  try_catch
    (ensureValidTokens ;;;
     toISOString appointmentData ;;;
     provider (events_insert env))
    (fun error => throw error).

Definition updateAppointment (eventId : string)
  (appointmentData : AppointmentData.t) : M unit :=
  enter (CallUpdateAppointment eventId appointmentData) ;;;
  try_catch
    (ensureValidTokens ;;;
     toISOString appointmentData ;;;
     provider (accepted (events_update env)))
    (fun error => throw error).

Definition cancelAppointment (eventId : string) : M bool :=
  enter (CallCancelAppointment eventId) ;;;
  try_catch
    (ensureValidTokens ;;;
     provider (accepted (events_delete env)) ;;;
     ret true)
    (fun error => throw error).

Definition getUpcomingAppointments (days : Z) : M (list CalendarEvent.t) :=
  enter (CallGetUpcomingAppointments days) ;;;
  try_catch
    (ensureValidTokens ;;;
     past <- Date_now env ;;
     future <- Date_now env ;;
     provider (events_list env))
    (fun error => throw error).

Definition createEvent (summary description : string)
  (startDateTime endDateTime : option Z) : M string :=
  enter (CallCreateEvent summary description startDateTime endDateTime) ;;;
  try_catch
    (ensureValidTokens ;;;
     provider (events_insert env))
    (fun error => throw error).

(** ** maintenance.js: the calendar sweep *)

Definition cancel_each (events : list CalendarEvent.t) (totalDeleted : nat)
  : M nat :=
  fold_of events totalDeleted
    (fun total event =>
       cancelAppointment (CalendarEvent.id event) ;;; ret (S total)).

Definition valid_ids (appointments : list Appointment.t) : list string :=
  flat_map (fun a => match Appointment.google_event_id a with
                     | Some e => [e]
                     | None => []
                     end) appointments.

Definition clean_slot (validEventIds : list string) (totalDeleted : nat)
  (entry : string * list CalendarEvent.t) : M nat :=
  let slotEvents := snd entry in
  if (List.length slotEvents <=? 1)%nat then ret totalDeleted
  else
    let validEvents :=
      filter (fun e => Set_has (CalendarEvent.id e) validEventIds) slotEvents in
    let invalidEvents :=
      filter (fun e => negb (Set_has (CalendarEvent.id e) validEventIds))
             slotEvents in
    if (0 <? List.length validEvents)%nat then
      total1 <- cancel_each invalidEvents totalDeleted ;;
      if (1 <? List.length validEvents)%nat
      then cancel_each (tl validEvents) total1
      else ret total1
    else cancel_each (tl slotEvents) totalDeleted.

Definition cleanCalendarDuplicates : M nat :=
  try_catch
    (authenticate ;;;
     appointments <- db_query env select_scheduled_with_event ;;
     events <- getUpcomingAppointments 30 ;;
     let validEventIds := valid_ids appointments in
     match group_events events [] with
     | None => throw TypeError
     | Some timeSlots => fold_of timeSlots 0%nat (clean_slot validEventIds)
     end)
    (fun error => ret 0%nat).

End Gateway.

Section CalendarSyncService.

Variable env : Env.

(** ** utils/calendarSync.js *)

Definition appointment_data (a : Appointment.t) (patient : list Patient.t)
  : AppointmentData.t :=
  {| AppointmentData.patientName :=
       or_default
         (or_else (Appointment.patient_name a)
                  match patient with
                  | p :: _ => Patient.name p
                  | [] => None
                  end)
         "Patient";
     AppointmentData.patientPhone := Appointment.patient_phone a;
     AppointmentData.date := Appointment.appointment_date a;
     AppointmentData.time := Appointment.appointment_time a;
     AppointmentData.duration := Appointment.duration_minutes a |}.

(** The body of the loops that create an event for a record and write the
    new event id back. *)
Definition recreate (appointment : Appointment.t) : M unit :=
  patient <- db_query env (select_patient (Appointment.patient_phone appointment)) ;;
  eventId <- createAppointment env (appointment_data appointment patient) ;;
  db_run env (update_google_event_id eventId (Appointment.id appointment)) ;;;
  ret tt.

(** [UPDATE appointments SET updated_at = datetime("now") WHERE id = ?] *)
Definition touch_row (rowid : Z) : Z -> World -> option (RunResult.t * World) :=
  fun now w =>
    Some ({| RunResult.id := sqlite_sequence w;
             RunResult.changes :=
               Z.of_nat (List.length
                 (filter (fun a => Appointment.id a =? rowid) (appointments w))) |},
          set_appointments
            (map (fun a => if Appointment.id a =? rowid
                           then Appointment.set_updated_at now a else a)
                 (appointments w)) w).

(** [UPDATE appointments SET status = 'cancelled', updated_at = datetime("now")
     WHERE id = ?] *)
Definition cancel_row (rowid : Z) : Z -> World -> option (RunResult.t * World) :=
  fun now w =>
    Some ({| RunResult.id := sqlite_sequence w;
             RunResult.changes :=
               Z.of_nat (List.length
                 (filter (fun a => Appointment.id a =? rowid) (appointments w))) |},
          set_appointments
            (map (fun a => if Appointment.id a =? rowid
                           then Appointment.set_status "cancelled" (Some now) a
                           else a)
                 (appointments w)) w).

Definition swallow (c : M unit) : M unit := try_catch c (fun error => ret tt).

(** The body of the loop over [toUpdateInCalendar]: the record's date, time
    and duration are pushed to its event. *)
Definition push_update (item : Appointment.t * CalendarEvent.t) : M unit :=
  let dbAppointment := fst item in
  let calendarEvent := snd item in
  patient <- db_query env (select_patient (Appointment.patient_phone dbAppointment)) ;;
  updateAppointment env (CalendarEvent.id calendarEvent)
                    (appointment_data dbAppointment patient).

Definition applySyncFixes
  (toCreateInCalendar : list Appointment.t)
  (toUpdateInCalendar : list (Appointment.t * CalendarEvent.t))
  (toDeleteInCalendar : list string)
  (toUpdateInDb toDeleteInDb : list Appointment.t) : M unit :=
  try_catch
    (for_of toCreateInCalendar (fun appointment => swallow (recreate appointment)) ;;;
     for_of toUpdateInCalendar (fun item => swallow (push_update item)) ;;;
     for_of toDeleteInCalendar
       (fun eventId => swallow (cancelAppointment env eventId ;;; ret tt)) ;;;
     for_of toUpdateInDb
       (fun appointment =>
          swallow (db_run env (touch_row (Appointment.id appointment)) ;;; ret tt)) ;;;
     for_of toDeleteInDb
       (fun appointment =>
          swallow (db_run env (cancel_row (Appointment.id appointment)) ;;; ret tt)))
    (fun error => throw error).

(** [dbAppointments.forEach(a => { if (a.google_event_id) map.set(...) })] *)
Fixpoint dbAppointmentMap_of (dbAppointments : list Appointment.t)
  (m : list (string * Appointment.t)) : list (string * Appointment.t) :=
  match dbAppointments with
  | [] => m
  | a :: rest =>
    match Appointment.google_event_id a with
    | None | Some EmptyString => dbAppointmentMap_of rest m
    | Some e => dbAppointmentMap_of rest (Map_set e a m)
    end
  end.

Fixpoint calendarEventMap_of (calendarEvents : list CalendarEvent.t)
  (m : list (string * CalendarEvent.t)) : list (string * CalendarEvent.t) :=
  match calendarEvents with
  | [] => m
  | e :: rest => calendarEventMap_of rest (Map_set (CalendarEvent.id e) e m)
  end.

(** One turn of [for (const [eventId, dbAppointment] of dbAppointmentMap)];
    the accumulator is [(toCreateInCalendar, toUpdateInCalendar)]. *)
Definition compare_one (calendarEventMap : list (string * CalendarEvent.t))
  (acc : list Appointment.t * list (Appointment.t * CalendarEvent.t))
  (entry : string * Appointment.t)
  : M (list Appointment.t * list (Appointment.t * CalendarEvent.t)) :=
  let eventId := fst entry in
  let dbAppointment := snd entry in
  match Map_get eventId calendarEventMap with
  | None =>
    now <- Date_now env ;;
    if recent (hoursSinceCreation now (Appointment.created_at dbAppointment))
    then ret ((fst acc ++ [dbAppointment])%list, snd acc)
    else ret acc
  | Some calendarEvent =>
    let dbDateTime :=
      moment_tz env (iso_local (Appointment.appointment_date dbAppointment)
                               (Appointment.appointment_time dbAppointment)) in
    let calendarDateTime := moment env (CalendarEvent.start calendarEvent) in
    if negb (isSame dbDateTime calendarDateTime)
    then ret (fst acc, (snd acc ++ [(dbAppointment, calendarEvent)])%list)
    else ret acc
  end.

(** The part of [syncAppointments] that follows the two reads: build the
    maps, compare, log the events no record references, apply the fixes. *)
Definition reconcile (dbAppointments : list Appointment.t)
  (calendarEvents : list CalendarEvent.t) : M unit :=
  let dbAppointmentMap := dbAppointmentMap_of dbAppointments [] in
  let calendarEventMap := calendarEventMap_of calendarEvents [] in
  queued <- fold_of dbAppointmentMap ([], []) (compare_one calendarEventMap) ;;
  applySyncFixes (fst queued) (snd queued) [] [] [].

Definition syncAppointments : M unit :=
  try_finally
    (try_catch
       (started <- start env ;;
        if negb started then ret tt
        else
          dbAppointments <- db_query env select_scheduled_with_event ;;
          calendarEvents <- getUpcomingAppointments env 30 ;;
          reconcile dbAppointments calendarEvents)
       (fun error => throw error))
    (stop).

Definition validateAppointmentData : M unit :=
  try_catch
    (orphanedAppointments <- db_query env select_scheduled_without_event ;;
     (if (0 <? List.length orphanedAppointments)%nat
      then for_of orphanedAppointments
             (fun appointment => swallow (recreate appointment))
      else ret tt) ;;;
     invalidAppointments <- db_query env select_invalid_formats ;;
     ret tt)
    (fun error => throw error).

(** [UPDATE appointments SET status = 'archived' WHERE status IN
     ('completed', 'cancelled') AND created_at < ?]; the comparison is made
    on the instants the two texts denote, and NULL is below nothing. *)
Definition archive_before (limit : Z) : Z -> World -> option (RunResult.t * World) :=
  fun _ w =>
    let old a :=
      status_in ["completed"; "cancelled"] a
      && match Appointment.created_at a with
         | Some created => created <? limit
         | None => false
         end in
    Some ({| RunResult.id := sqlite_sequence w;
             RunResult.changes :=
               Z.of_nat (List.length (filter old (appointments w))) |},
          set_appointments
            (map (fun a => if old a then Appointment.set_status "archived" None a
                           else a)
                 (appointments w)) w).

(** [DELETE FROM conversation_states WHERE updated_at < ?]: the table is
    not part of the engine. *)
Definition delete_conversation_states : Z -> World -> option (RunResult.t * World) :=
  fun _ w =>
    Some ({| RunResult.id := sqlite_sequence w; RunResult.changes := 0 |}, w).

Definition days (n : Z) : Z := n * 24 * 60 * 60 * 1000.

Definition cleanupOldData : M unit :=
  swallow
    (thirtyDaysAgo <- Date_now env ;;
     db_run env (archive_before (thirtyDaysAgo - days 30)) ;;;
     sevenDaysAgo <- Date_now env ;;
     db_run env delete_conversation_states ;;;
     ret tt).

Definition retry_one (appointment : Appointment.t) : M unit :=
  patient <- db_query env (select_patient (Appointment.patient_phone appointment)) ;;
  let startDateTime :=
    moment_tz env (iso_local (Appointment.appointment_date appointment)
                             (Appointment.appointment_time appointment)) in
  let minutes := if Appointment.duration_minutes appointment =? 0 then 30
                 else Appointment.duration_minutes appointment in
  let endDateTime := option_map (fun t => t + minutes * 60000) startDateTime in
  let who := or_default (Appointment.patient_name appointment) "Patient" in
  eventId <- createEvent env
               ("Appointment - " ++ who)%string
               ("Appointment with " ++ who ++ " ("
                  ++ Appointment.patient_phone appointment ++ ")")%string
               startDateTime endDateTime ;;
  db_run env (update_google_event_id eventId (Appointment.id appointment)) ;;;
  ret tt.

Definition retryFailedAppointmentSyncs : M unit :=
  swallow
    (if negb (appointmentBot_loads env) then throw ModuleNotFound
     else
       failedAppointments <- db_query env select_scheduled_without_event ;;
       if (List.length failedAppointments =? 0)%nat then ret tt
       else for_of failedAppointments
              (fun appointment => swallow (retry_one appointment))).

Definition performFullSync : M unit :=
  try_finally
    (try_catch
       (started <- start env ;;
        if negb started then ret tt
        else
          validateAppointmentData ;;;
          syncAppointments ;;;
          retryFailedAppointmentSyncs ;;;
          cleanupOldData)
       (fun error => throw error))
    (stop).

End CalendarSyncService.

(** ** A concrete environment for the scenarios

    Timestamps of the form [YYYY-MM-DDTHH:MM:SS], optionally followed by
    [Z] or [+HH:MM] / [-HH:MM]; a timestamp without offset is read in a zone
    [offset] minutes east of UTC (330 for Asia/Kolkata, the default
    [TIMEZONE]). *)

Definition digit (c : ascii) : option Z :=
  let n := Z.of_nat (nat_of_ascii c) in
  if (48 <=? n) && (n <=? 57) then Some (n - 48) else None.

Fixpoint number_from (acc : Z) (s : string) : option Z :=
  match s with
  | EmptyString => Some acc
  | String c s' =>
    match digit c with
    | Some d => number_from (10 * acc + d) s'
    | None => None
    end
  end.

Definition number (s : string) : option Z :=
  match s with
  | EmptyString => None
  | _ => number_from 0 s
  end.

Definition days_from_civil (y m d : Z) : Z :=
  let y' := if m <=? 2 then y - 1 else y in
  let era := y' / 400 in
  let yoe := y' - era * 400 in
  let mp := (m + 9) mod 12 in
  let doy := (153 * mp + 2) / 5 + d - 1 in
  let doe := yoe * 365 + yoe / 4 - yoe / 100 + doy in
  era * 146097 + doe - 719468.

Definition parse_offset (offset : Z) (s : string) : option Z :=
  match s with
  | EmptyString => Some offset
  | "Z"%string => Some 0
  | String sign rest =>
    match number (substring 0 2 rest), number (substring 3 2 rest) with
    | Some h, Some m =>
      if String.eqb (substring 2 1 rest) ":" && (String.length rest =? 5)%nat then
        if Ascii.eqb sign "+" then Some (h * 60 + m)
        else if Ascii.eqb sign "-" then Some (- (h * 60 + m))
        else None
      else None
    | _, _ => None
    end
  end.

Definition parse_iso (offset : Z) (s : string) : option Z :=
  match number (substring 0 4 s), number (substring 5 2 s),
        number (substring 8 2 s), number (substring 11 2 s),
        number (substring 14 2 s), number (substring 17 2 s),
        parse_offset offset (substring 19 (String.length s - 19) s) with
  | Some y, Some mo, Some d, Some h, Some mi, Some sec, Some off =>
    if String.eqb (substring 4 1 s) "-" && String.eqb (substring 7 1 s) "-"
       && String.eqb (substring 10 1 s) "T" && String.eqb (substring 13 1 s) ":"
       && String.eqb (substring 16 1 s) ":"
       && (1 <=? mo) && (mo <=? 12) && (1 <=? d) && (d <=? 31)
       && (h <=? 23) && (mi <=? 59) && (sec <=? 59)
    then Some ((((days_from_civil y mo d * 24 + h) * 60 + mi - off) * 60 + sec) * 1000)
    else None
  | _, _, _, _, _, _, _ => None
  end.

(** A well-behaved environment: the clock stands at [now], no statement and
    no request fails, the provider lists [listing] and names new events
    [evt-new]. *)
Definition quiet_env (now : Z) (listing : list CalendarEvent.t) : Env :=
  {| date_now := fun _ => now;
     sqlite_fails := fun _ => false;
     tokens_valid := fun _ => true;
     authenticates := fun _ => true;
     events_list := fun _ => Some listing;
     events_insert := fun _ => Some "evt-new"%string;
     events_update := fun _ => true;
     events_delete := fun _ => true;
     appointmentBot_loads := true;
     new_Date := parse_iso 330;
     moment_tz := parse_iso 330;
     moment := parse_iso 330 |}.

(** The same, except that the provider rejects the request made at step
    [gone] (an event that no longer exists). *)
Definition env_rejecting_delete (now : Z) (listing : list CalendarEvent.t)
  (gone : nat) : Env :=
  {| date_now := fun _ => now;
     sqlite_fails := fun _ => false;
     tokens_valid := fun _ => true;
     authenticates := fun _ => true;
     events_list := fun _ => Some listing;
     events_insert := fun _ => Some "evt-new"%string;
     events_update := fun _ => true;
     events_delete := fun n => negb (n =? gone)%nat;
     appointmentBot_loads := true;
     new_Date := parse_iso 330;
     moment_tz := parse_iso 330;
     moment := parse_iso 330 |}.

Definition idle_world (rows : list Appointment.t) : World :=
  {| sync := SimpleSyncManager.constructor; appointments := rows;
     patients := []; sqlite_sequence := 0; steps := 0; calls := [] |}.

Definition row (rowid : Z) (phone date time status : string)
  (eventId : option string) (created : Z) : Appointment.t :=
  {| Appointment.id := rowid; Appointment.patient_phone := phone;
     Appointment.patient_name := None; Appointment.appointment_date := date;
     Appointment.appointment_time := time; Appointment.duration_minutes := 30;
     Appointment.status := status; Appointment.google_event_id := eventId;
     Appointment.created_at := Some created;
     Appointment.updated_at := Some created |}.

Definition event (eventId start : string) : CalendarEvent.t :=
  {| CalendarEvent.id := eventId; CalendarEvent.title := None;
     CalendarEvent.start := start; CalendarEvent.end_ := start;
     CalendarEvent.description := None |}.

(** 2025-04-09T12:00:00+05:30 *)
Definition noon : Z := 1744180200000.

(** ** simple-sync-manager.js: [forceReset] and [getStatus] *)

Module SyncStatus.
Record t := { isRunning : bool; lastRun : Z; timeSinceLastRun : Z }.
End SyncStatus.

Definition forceReset : M unit :=
  assign (SimpleSyncManager.set_isRunning false) ;;;
  assign (SimpleSyncManager.set_lastRun 0).

(** The object [checkCalendarDuplicates] reports for a slot. *)
Module CalendarDuplicate.
Record t := { timeSlot : string; count : nat; events : list CalendarEvent.t }.
End CalendarDuplicate.

(** A bookable slot of [getAvailableSlots].  The three texts of the source
    ([start], [end], [datetime]) render the two instants kept here. *)
Module TimeSlot.
Record t := { start : Z; end_ : Z }.
End TimeSlot.

(** A slot of [generateBasicSlots]. *)
Module BasicSlot.
Record t := { start : string; end_ : string; datetime : string }.
End BasicSlot.

Definition set_patients (l : list Patient.t) (w : World) : World :=
  {| sync := sync w; appointments := appointments w; patients := l;
     sqlite_sequence := sqlite_sequence w; steps := steps w;
     calls := calls w |}.

Section Callers.

Variable env : Env.

Definition getStatus : M SyncStatus.t :=
  fun w =>
    let isRunning := SimpleSyncManager.isRunning (sync w) in
    let lastRun := SimpleSyncManager.lastRun (sync w) in
    (now <- Date_now env ;;
     ret {| SyncStatus.isRunning := isRunning;
            SyncStatus.lastRun := lastRun;
            SyncStatus.timeSinceLastRun := now - lastRun |}) w.

(** ** server.js: the scheduled sync

    The body of the timer set up for [periodicSyncInterval]; the timer of
    the initial sync runs the same statements. *)
Definition periodicSync : M unit :=
  try_catch
    (getStatus ;;;
     started <- start env ;;
     if negb started then ret tt
     else
       syncStartTime <- Date_now env ;;
       performFullSync env ;;;
       syncDuration <- Date_now env ;;
       getStatus ;;;
       stop)
    (fun error => getStatus ;;; stop).

(** ** maintenance.js: [checkCalendarDuplicates] *)

(** [Object.entries(timeSlots).forEach(([key, events]) => { if
    (events.length > 1) duplicates.push(...) })] *)
Definition duplicate_slots (timeSlots : list (string * list CalendarEvent.t))
  : list CalendarDuplicate.t :=
  flat_map
    (fun entry =>
       if (1 <? List.length (snd entry))%nat
       then [{| CalendarDuplicate.timeSlot := fst entry;
                CalendarDuplicate.count := List.length (snd entry);
                CalendarDuplicate.events := snd entry |}]
       else [])
    timeSlots.

Definition checkCalendarDuplicates : M (list CalendarDuplicate.t) :=
  try_catch
    (authenticate env ;;;
     events <- getUpcomingAppointments env 30 ;;
     match group_events events [] with
     | None => throw TypeError
     | Some timeSlots => ret (duplicate_slots timeSlots)
     end)
    (fun error => ret []).

(** ** maintenance.js: [init], [close] and [runFullMaintenance] *)

(** [new sqlite3.Database(path, callback)] and [db.exec(schema, callback)]:
    the driver may reject either; the schema only creates what does not
    exist yet. *)
Definition db_open : M unit :=
  fun w => if sqlite_fails env (steps w) then (Throw SqliteError, tick w)
           else (Return tt, tick w).

Definition db_exec_schema : M unit :=
  fun w => if sqlite_fails env (steps w) then (Throw SqliteError, tick w)
           else (Return tt, tick w).

Definition init : M unit := db_open ;;; db_exec_schema.

(** [db.close(callback)] resolves whether or not the driver reports an
    error. *)
Definition close : M unit := fun w => (Return tt, tick w).

Definition runFullMaintenance : M unit :=
  try_finally
    (try_catch
       (init ;;;
        dbDuplicates <- checkDbDuplicates env ;;
        calendarDuplicates <- checkCalendarDuplicates ;;
        if (List.length dbDuplicates =? 0)%nat
           && (List.length calendarDuplicates =? 0)%nat
        then ret tt
        else
          (if (0 <? List.length dbDuplicates)%nat
           then cleanDbDuplicates env ;;; ret tt
           else ret tt) ;;;
          (if (0 <? List.length calendarDuplicates)%nat
           then cleanCalendarDuplicates env ;;; ret tt
           else ret tt))
       (fun error => ret tt))
    close.

(** ** src/appointmentBot.js: patients *)

(** [INSERT INTO patients (phone) VALUES (?)] under [phone TEXT UNIQUE NOT
    NULL]; no statement of the repository deletes a patient, so the new
    rowid is the number of rows. *)
Definition insert_patient (phone : string)
  : Z -> World -> option (RunResult.t * World) :=
  fun _ w =>
    if existsb (fun p => String.eqb (Patient.phone p) phone) (patients w)
    then None
    else Some ({| RunResult.id := Z.of_nat (List.length (patients w)) + 1;
                  RunResult.changes := 1 |},
               set_patients
                 (patients w ++ [{| Patient.phone := phone;
                                    Patient.name := None |}]) w).

(** [patients[0]] is [undefined] on an empty array: [None]. *)
Definition getOrCreatePatient (phoneNumber : string) : M (option Patient.t) :=
  try_catch
    (patients <- db_query env (select_patient phoneNumber) ;;
     patients <- (if (List.length patients =? 0)%nat
                  then db_run env (insert_patient phoneNumber) ;;;
                       db_query env (select_patient phoneNumber)
                  else ret patients) ;;
     ret (hd_error patients))
    (fun error => ret (Some {| Patient.phone := phoneNumber;
                               Patient.name := None |})).

(** [UPDATE patients SET name = ?, updated_at = datetime("now") WHERE
     phone = ?] *)
Definition update_patient_name (name phone : string)
  : Z -> World -> option (RunResult.t * World) :=
  fun _ w =>
    let hit p := String.eqb (Patient.phone p) phone in
    Some ({| RunResult.id := sqlite_sequence w;
             RunResult.changes :=
               Z.of_nat (List.length (filter hit (patients w))) |},
          set_patients
            (map (fun p => if hit p
                           then {| Patient.phone := Patient.phone p;
                                   Patient.name := Some name |}
                           else p)
                 (patients w)) w).

Definition updatePatientName (phoneNumber name : string) : M unit :=
  try_catch
    (db_run env (update_patient_name name phoneNumber) ;;; ret tt)
    (fun error => throw error).

(** ** src/googleCalendar.js: [getAvailableSlots] *)






End Callers.

(** ** src/appointmentBot.js: [cleanPhoneNumber] *)

(** [s.substring(n)] *)
Fixpoint drop (n : nat) (s : string) : string :=
  match n, s with
  | O, _ => s
  | S n', String _ s' => drop n' s'
  | S _, EmptyString => EmptyString
  end.

(** [s.replace(pattern, '')] with a text as pattern: the first occurrence
    goes *)
Fixpoint remove_first (pattern s : string) : string :=
  if String.prefix pattern s then drop (String.length pattern) s
  else match s with
       | EmptyString => EmptyString
       | String c s' => String c (remove_first pattern s')
       end.

(** [/^\d+$/] on a text of the length the caller has checked *)
Fixpoint all_digits (s : string) : bool :=
  match s with
  | EmptyString => true
  | String c s' => is_some (digit c) && all_digits s'
  end.

Definition cleanPhoneNumber (phoneNumber : string) : string :=
  if String.eqb phoneNumber "" then phoneNumber
  else
    let cleaned := remove_first "@c.us" phoneNumber in
    let cleaned := remove_first "whatsapp:" cleaned in
    let cleaned := if (10 <? String.length cleaned)%nat then drop 2 cleaned
                   else cleaned in
    if (String.length cleaned =? 10)%nat && all_digits cleaned then cleaned
    else phoneNumber.

(** ** src/googleCalendar.js: the phone number written to an event *)

Definition formattedPhone (patientPhone : string) : string :=
  if (String.length patientPhone =? 10)%nat && all_digits patientPhone
  then ("91" ++ patientPhone)%string
  else patientPhone.

(** ** src/appointmentBot.js: the loop of [generateBasicSlots] *)

(** [n.toString().padStart(2, '0')] *)
Definition pad2 (n : Z) : string :=
  let s := DecimalString.NilZero.string_of_int (Z.to_int n) in
  if (String.length s <? 2)%nat then ("0" ++ s)%string else s.

(** [while (endMinCalc >= 60) { endMinCalc -= 60; endHourCalc += 1; }];
    the loop makes at most [endMinCalc] turns. *)
Fixpoint carry (turns : nat) (endMinCalc endHourCalc : Z) : Z * Z :=
  match turns with
  | O => (endMinCalc, endHourCalc)
  | S turns' =>
    if 60 <=? endMinCalc then carry turns' (endMinCalc - 60) (endHourCalc + 1)
    else (endMinCalc, endHourCalc)
  end.

(** [while (currentHour < endHour || (currentHour === endHour && currentMin
    < endMin)) { ... }]: [None] when the loop is still running after [fuel]
    turns. *)
Fixpoint basic_slots (fuel : nat) (date : string) (endHour endMin duration : Z)
  (currentHour currentMin : Z) (slots : list BasicSlot.t)
  : option (list BasicSlot.t) :=
  match fuel with
  | O => None
  | S fuel' =>
    if (currentHour <? endHour)
       || ((currentHour =? endHour) && (currentMin <? endMin))
    then
      let startTime := (pad2 currentHour ++ ":" ++ pad2 currentMin)%string in
      let '(endMinCalc, endHourCalc) :=
        carry (Z.to_nat (currentMin + duration)) (currentMin + duration)
              currentHour in
      let endTime := (pad2 endHourCalc ++ ":" ++ pad2 endMinCalc)%string in
      let slots :=
        if (endHourCalc <? endHour)
           || ((endHourCalc =? endHour) && (endMinCalc <=? endMin))
        then (slots ++ [{| BasicSlot.start := startTime;
                           BasicSlot.end_ := endTime;
                           BasicSlot.datetime :=
                             (date ++ "T" ++ startTime ++ ":00")%string |}])%list
        else slots in
      let currentMin := currentMin + duration in
      if 60 <=? currentMin
      then basic_slots fuel' date endHour endMin duration
                       (currentHour + 1) (currentMin - 60) slots
      else basic_slots fuel' date endHour endMin duration
                       currentHour currentMin slots
    else Some slots
  end.

(** [generateBasicSlots(date)] once the configuration has been read:
    [startHour], [startMin], [endHour] and [endMin] are the numbers
    [split(':').map(Number)] gives, [duration] is
    [parseInt(APPOINTMENT_DURATION_MINUTES) || 30]. *)
Definition generateBasicSlots (fuel : nat) (date : string)
  (startHour startMin endHour endMin duration : Z)
  : option (list BasicSlot.t) :=
  basic_slots fuel date endHour endMin duration startHour startMin [].

(* ================================================================== *)
(** * Part II: properties                                              *)
(* ================================================================== *)

(** ** Running a promise *)

Definition outcome {A} (c : M A) (w : World) : Outcome A := fst (c w).
Definition after {A} (c : M A) (w : World) : World := snd (c w).

(** ** The sync coordinator *)

Section Coordinator.

Variable env : Env.

Lemma start_refused (w : World) :
  SimpleSyncManager.isRunning (sync w) = true
  \/ date_now env (steps w) - SimpleSyncManager.lastRun (sync w)
     < SimpleSyncManager.minInterval (sync w) ->
  start env w = (Return false, tick w).
Proof.
  intros H. unfold start, canRun, bind, Date_now, ret. cbn.
  destruct (SimpleSyncManager.isRunning (sync w)) eqn:R; [reflexivity|].
  destruct H as [H|H]; [discriminate|].
  apply Z.ltb_lt in H. rewrite H. reflexivity.
Qed.

Lemma start_granted (w : World) :
  SimpleSyncManager.isRunning (sync w) = false ->
  SimpleSyncManager.minInterval (sync w)
  <= date_now env (steps w) - SimpleSyncManager.lastRun (sync w) ->
  start env w =
  (Return true,
   set_sync {| SimpleSyncManager.isRunning := true;
               SimpleSyncManager.lastRun := date_now env (S (steps w));
               SimpleSyncManager.minInterval :=
                 SimpleSyncManager.minInterval (sync w) |}
            (tick (tick w))).
Proof.
  intros R H. unfold start, canRun, bind, Date_now, ret. cbn.
  rewrite R. apply Z.ltb_ge in H. rewrite H. reflexivity.
Qed.

(** C7.  [start()] returns false, without throwing and leaving the
    coordinator as it was, when a sync is running or when less than
    [minInterval] (5 minutes) passed since [lastRun]; otherwise it sets
    [isRunning], records the current time in [lastRun] and returns true;
    [stop()] clears [isRunning] whatever the state. *)
Theorem coordinator_start_stop (w : World) :
  (SimpleSyncManager.isRunning (sync w) = true
   \/ date_now env (steps w) - SimpleSyncManager.lastRun (sync w)
      < SimpleSyncManager.minInterval (sync w) ->
   outcome (start env) w = Return false
   /\ sync (after (start env) w) = sync w)
  /\ (SimpleSyncManager.isRunning (sync w) = false ->
      SimpleSyncManager.minInterval (sync w)
      <= date_now env (steps w) - SimpleSyncManager.lastRun (sync w) ->
      outcome (start env) w = Return true
      /\ sync (after (start env) w) =
         {| SimpleSyncManager.isRunning := true;
            SimpleSyncManager.lastRun := date_now env (S (steps w));
            SimpleSyncManager.minInterval :=
              SimpleSyncManager.minInterval (sync w) |})
  /\ (outcome stop w = Return tt
      /\ sync (after stop w) =
         {| SimpleSyncManager.isRunning := false;
            SimpleSyncManager.lastRun := SimpleSyncManager.lastRun (sync w);
            SimpleSyncManager.minInterval :=
              SimpleSyncManager.minInterval (sync w) |})
  /\ SimpleSyncManager.minInterval SimpleSyncManager.constructor = 5 * 60 * 1000.
Proof.
  unfold outcome, after. split; [|split; [|split]].
  - intros H. rewrite (start_refused w H). split; reflexivity.
  - intros R H. rewrite (start_granted w R H). split; reflexivity.
  - split; reflexivity.
  - reflexivity.
Qed.

End Coordinator.

(** The coordinator, fresh and then started at noon: a second [start] one
    minute later is refused and changes nothing, one after six minutes (and
    a [stop]) is granted. *)
Lemma coordinator_start_stop_witness :
  let env := quiet_env noon [] in
  let busy := after (start env) (idle_world []) in
  (outcome (start env) busy = Return false
   /\ sync (after (start env) busy) = sync busy)
  /\ (outcome (start env) (idle_world []) = Return true
      /\ sync (after (start env) (idle_world [])) =
         {| SimpleSyncManager.isRunning := true;
            SimpleSyncManager.lastRun := noon;
            SimpleSyncManager.minInterval := 300000 |}).
Proof.
  intros env busy.
  destruct (coordinator_start_stop env busy) as [Hbusy _].
  destruct (coordinator_start_stop env (idle_world [])) as [_ [Hidle _]].
  split.
  - apply Hbusy. left. reflexivity.
  - apply Hidle; [reflexivity | vm_compute; discriminate].
Defined.

(** ** What an operation leaves alone

    [frame P S w w']: from [w] to [w'] the coordinator and the patients are
    untouched, no row was inserted or deleted, the rows whose id is not in
    [S] are what they were, and every call made on the gateway satisfies
    [P]. *)

Definition appended (P : Call -> Prop) (w w' : World) : Prop :=
  exists tr, calls w' = (calls w ++ tr)%list /\ Forall P tr.

Definition untouched (S : Z -> Prop) (w w' : World) : Prop :=
  forall x, In x (appointments w) -> ~ S (Appointment.id x) ->
            In x (appointments w').

Record frame (P : Call -> Prop) (S : Z -> Prop) (w w' : World) : Prop := {
  frame_sync : sync w' = sync w;
  frame_patients : patients w' = patients w;
  frame_ids : map Appointment.id (appointments w')
              = map Appointment.id (appointments w);
  frame_rows : untouched S w w';
  frame_calls : appended P w w'
}.

Definition keeps (P : Call -> Prop) (S : Z -> Prop) {A} (c : M A) : Prop :=
  forall w, frame P S w (after c w).

Section Frame.

Variable P : Call -> Prop.
Variable S : Z -> Prop.

Lemma appended_silent (w w' : World) : calls w' = calls w -> appended P w w'.
Proof. intros E. exists []. split; [now rewrite app_nil_r | constructor]. Qed.

Lemma appended_refl (w : World) : appended P w w.
Proof. apply appended_silent. reflexivity. Qed.

Lemma appended_trans (a b c : World) :
  appended P a b -> appended P b c -> appended P a c.
Proof.
  intros [t1 [E1 F1]] [t2 [E2 F2]]. exists (t1 ++ t2)%list. split.
  - rewrite E2, E1, app_assoc. reflexivity.
  - apply Forall_app. split; assumption.
Qed.

Lemma frame_silent (w w' : World) :
  sync w' = sync w -> patients w' = patients w ->
  appointments w' = appointments w -> calls w' = calls w -> frame P S w w'.
Proof.
  intros Hs Hp Ha Hc. constructor; try assumption.
  - rewrite Ha. reflexivity.
  - intros x Hx _. rewrite Ha. exact Hx.
  - apply appended_silent. exact Hc.
Qed.

Lemma frame_refl (w : World) : frame P S w w.
Proof. apply frame_silent; reflexivity. Qed.

Lemma frame_trans (a b c : World) : frame P S a b -> frame P S b c -> frame P S a c.
Proof.
  intros [S1 P1 I1 U1 C1] [S2 P2 I2 U2 C2]. constructor.
  - congruence.
  - congruence.
  - congruence.
  - intros x Hx Hn. apply U2; [apply U1|]; assumption.
  - eapply appended_trans; eassumption.
Qed.

Lemma frame_tick (w : World) : frame P S w (tick w).
Proof. apply frame_silent; reflexivity. Qed.

Lemma keeps_ret {A} (a : A) : keeps P S (ret a).
Proof. intros w. apply frame_refl. Qed.

Lemma keeps_throw {A} (e : Error) : keeps P S (@throw A e).
Proof. intros w. apply frame_refl. Qed.

Lemma keeps_bind {A B} (c : M A) (k : A -> M B) :
  keeps P S c -> (forall a, keeps P S (k a)) -> keeps P S (bind c k).
Proof.
  intros Hc Hk w. specialize (Hc w). unfold after, bind in *.
  destruct (c w) as [[a|e] w1]; cbn in *.
  - eapply frame_trans; [exact Hc | apply Hk].
  - exact Hc.
Qed.

Lemma keeps_try_catch {A} (c : M A) (h : Error -> M A) :
  keeps P S c -> (forall e, keeps P S (h e)) -> keeps P S (try_catch c h).
Proof.
  intros Hc Hh w. specialize (Hc w). unfold after, try_catch in *.
  destruct (c w) as [[a|e] w1]; cbn in *.
  - exact Hc.
  - eapply frame_trans; [exact Hc | apply Hh].
Qed.

Lemma keeps_swallow (c : M unit) : keeps P S c -> keeps P S (swallow c).
Proof. intros Hc. apply keeps_try_catch; [exact Hc | intros; apply keeps_ret]. Qed.

Lemma keeps_for_of {A} (l : list A) (body : A -> M unit) :
  (forall x, In x l -> keeps P S (body x)) -> keeps P S (for_of l body).
Proof.
  induction l as [|x l IH]; intros Hb; cbn [for_of].
  - apply keeps_ret.
  - apply keeps_bind; [apply Hb; left; reflexivity | intros _].
    apply IH. intros y Hy. apply Hb. right. exact Hy.
Qed.

Lemma keeps_fold_of {A T} (l : list A) (body : T -> A -> M T) :
  (forall s x, keeps P S (body s x)) -> forall s, keeps P S (fold_of l s body).
Proof.
  intros Hb. induction l as [|x l IH]; intros s; cbn [fold_of].
  - apply keeps_ret.
  - apply keeps_bind; [apply Hb | intros s1; apply IH].
Qed.

Variable env : Env.

Lemma keeps_Date_now : keeps P S (Date_now env).
Proof. intros w. apply frame_tick. Qed.

Lemma keeps_db_query {A} (select : World -> A) : keeps P S (db_query env select).
Proof.
  intros w. unfold after, db_query.
  destruct (sqlite_fails env (steps w)); apply frame_tick.
Qed.

(** A statement that rewrites rows in place. *)
Definition in_place (stmt : Z -> World -> option (RunResult.t * World)) : Prop :=
  forall now w r w1, stmt now w = Some (r, w1) -> frame P S w w1.

Lemma keeps_db_run stmt : in_place stmt -> keeps P S (db_run env stmt).
Proof.
  intros Hs w. unfold after, db_run.
  destruct (sqlite_fails env (steps w)); [apply frame_tick|].
  destruct (stmt (date_now env (steps w)) w) as [[r w1]|] eqn:E; cbn.
  - eapply frame_trans; [eapply Hs; exact E | apply frame_tick].
  - apply frame_tick.
Qed.

Lemma frame_rewrite_rows (w : World) (f : Appointment.t -> Appointment.t) :
  (forall a, Appointment.id (f a) = Appointment.id a) ->
  (forall a, ~ S (Appointment.id a) -> f a = a) ->
  frame P S w (set_appointments (map f (appointments w)) w).
Proof.
  intros Hid Hfix. constructor; try reflexivity.
  - cbn. rewrite map_map. apply map_ext. exact Hid.
  - intros x Hx Hn. cbn. apply in_map_iff. exists x. split; [apply Hfix, Hn | exact Hx].
  - apply appended_silent. reflexivity.
Qed.

Lemma in_place_update_google_event_id eventId rowid :
  S rowid -> in_place (update_google_event_id eventId rowid).
Proof.
  intros HS now w r w1. unfold update_google_event_id.
  destruct (filter _ (appointments w)).
  - intros E. injection E as _ <-. apply frame_refl.
  - destruct (event_id_taken _ _ _); [discriminate|].
    intros E. injection E as _ <-. apply frame_rewrite_rows; intros a.
    + destruct (Appointment.id a =? rowid); reflexivity.
    + intros Hn. destruct (Z.eqb_spec (Appointment.id a) rowid); [|reflexivity].
      subst rowid. contradiction.
Qed.

Lemma in_place_touch_row rowid : S rowid -> in_place (touch_row rowid).
Proof.
  intros HS now w r w1 E. injection E as _ <-. apply frame_rewrite_rows; intros a.
  - destruct (Appointment.id a =? rowid); reflexivity.
  - intros Hn. destruct (Z.eqb_spec (Appointment.id a) rowid); [|reflexivity].
    subst rowid. contradiction.
Qed.

Lemma in_place_cancel_row rowid : S rowid -> in_place (cancel_row rowid).
Proof.
  intros HS now w r w1 E. injection E as _ <-. apply frame_rewrite_rows; intros a.
  - destruct (Appointment.id a =? rowid); reflexivity.
  - intros Hn. destruct (Z.eqb_spec (Appointment.id a) rowid); [|reflexivity].
    subst rowid. contradiction.
Qed.

Lemma in_place_archive_before limit :
  (forall z, S z) -> in_place (archive_before limit).
Proof.
  intros HS now w r w1 E. injection E as _ <-. apply frame_rewrite_rows; intros a.
  - match goal with |- context [if ?b then _ else _] => destruct b end; reflexivity.
  - intros Hn. contradiction (Hn (HS _)).
Qed.

Lemma in_place_delete_conversation_states : in_place delete_conversation_states.
Proof. intros now w r w1 E. injection E as _ <-. apply frame_refl. Qed.

Lemma keeps_enter (c : Call) : P c -> keeps P S (enter c).
Proof.
  intros Hc w. constructor; try reflexivity.
  - intros x Hx _. exact Hx.
  - exists [c]. split; [reflexivity | constructor; [exact Hc | constructor]].
Qed.

Lemma keeps_ensureValidTokens : keeps P S (ensureValidTokens env).
Proof.
  intros w. unfold after, ensureValidTokens.
  destruct (tokens_valid env (steps w)); apply frame_tick.
Qed.

Lemma keeps_provider {A} (answer : nat -> option A) : keeps P S (provider answer).
Proof.
  intros w. unfold after, provider.
  destruct (answer (steps w)); apply frame_tick.
Qed.

Lemma keeps_toISOString d : keeps P S (toISOString env d).
Proof.
  unfold toISOString. destruct (new_Date env _); [apply keeps_ret | apply keeps_throw].
Qed.

Lemma keeps_createAppointment d :
  P (CallCreateAppointment d) -> keeps P S (createAppointment env d).
Proof.
  intros H. unfold createAppointment.
  apply keeps_bind; [apply keeps_enter; exact H | intros _].
  apply keeps_try_catch; [|intros; apply keeps_throw].
  apply keeps_bind; [apply keeps_ensureValidTokens | intros _].
  apply keeps_bind; [apply keeps_toISOString | intros _].
  apply keeps_provider.
Qed.

Lemma keeps_updateAppointment eventId d :
  P (CallUpdateAppointment eventId d) -> keeps P S (updateAppointment env eventId d).
Proof.
  intros H. unfold updateAppointment.
  apply keeps_bind; [apply keeps_enter; exact H | intros _].
  apply keeps_try_catch; [|intros; apply keeps_throw].
  apply keeps_bind; [apply keeps_ensureValidTokens | intros _].
  apply keeps_bind; [apply keeps_toISOString | intros _].
  apply keeps_provider.
Qed.

Lemma keeps_createEvent summary description s e :
  P (CallCreateEvent summary description s e) ->
  keeps P S (createEvent env summary description s e).
Proof.
  intros H. unfold createEvent.
  apply keeps_bind; [apply keeps_enter; exact H | intros _].
  apply keeps_try_catch; [|intros; apply keeps_throw].
  apply keeps_bind; [apply keeps_ensureValidTokens | intros _].
  apply keeps_provider.
Qed.

Lemma keeps_getUpcomingAppointments n :
  P (CallGetUpcomingAppointments n) -> keeps P S (getUpcomingAppointments env n).
Proof.
  intros H. unfold getUpcomingAppointments.
  apply keeps_bind; [apply keeps_enter; exact H | intros _].
  apply keeps_try_catch; [|intros; apply keeps_throw].
  apply keeps_bind; [apply keeps_ensureValidTokens | intros _].
  apply keeps_bind; [apply keeps_Date_now | intros _].
  apply keeps_bind; [apply keeps_Date_now | intros _].
  apply keeps_provider.
Qed.

Lemma keeps_recreate a :
  (forall d, P (CallCreateAppointment d)) -> S (Appointment.id a) ->
  keeps P S (recreate env a).
Proof.
  intros H HS. unfold recreate.
  apply keeps_bind; [apply keeps_db_query | intros patient].
  apply keeps_bind; [apply keeps_createAppointment, H | intros eventId].
  apply keeps_bind; [|intros; apply keeps_ret].
  apply keeps_db_run, in_place_update_google_event_id, HS.
Qed.

Lemma keeps_validateAppointmentData :
  (forall d, P (CallCreateAppointment d)) -> (forall z, S z) ->
  keeps P S (validateAppointmentData env).
Proof.
  intros H HS. unfold validateAppointmentData.
  apply keeps_try_catch; [|intros; apply keeps_throw].
  apply keeps_bind; [apply keeps_db_query | intros orphaned].
  apply keeps_bind.
  - destruct (0 <? List.length orphaned)%nat; [|apply keeps_ret].
    apply keeps_for_of. intros a _. apply keeps_swallow, keeps_recreate; [apply H | apply HS].
  - intros _. apply keeps_bind; [apply keeps_db_query | intros; apply keeps_ret].
Qed.

Lemma keeps_retryFailedAppointmentSyncs :
  (forall s d b e, P (CallCreateEvent s d b e)) -> (forall z, S z) ->
  keeps P S (retryFailedAppointmentSyncs env).
Proof.
  intros H HS. unfold retryFailedAppointmentSyncs. apply keeps_swallow.
  destruct (negb (appointmentBot_loads env)); [apply keeps_throw|].
  apply keeps_bind; [apply keeps_db_query | intros failed].
  destruct (List.length failed =? 0)%nat; [apply keeps_ret|].
  apply keeps_for_of. intros a _. apply keeps_swallow. unfold retry_one.
  apply keeps_bind; [apply keeps_db_query | intros patient].
  apply keeps_bind; [apply keeps_createEvent, H | intros eventId].
  apply keeps_bind; [|intros; apply keeps_ret].
  apply keeps_db_run, in_place_update_google_event_id, HS.
Qed.

Lemma keeps_cleanupOldData : (forall z, S z) -> keeps P S (cleanupOldData env).
Proof.
  intros HS. unfold cleanupOldData. apply keeps_swallow.
  apply keeps_bind; [apply keeps_Date_now | intros t].
  apply keeps_bind; [apply keeps_db_run, in_place_archive_before, HS | intros _].
  apply keeps_bind; [apply keeps_Date_now | intros t'].
  apply keeps_bind; [|intros; apply keeps_ret].
  apply keeps_db_run, in_place_delete_conversation_states.
Qed.

End Frame.

(** ** The gate around the sync entry points *)

Section Gate.

Variable env : Env.

Lemma finally_stop_clears {A} (c : M A) (w : World) :
  SimpleSyncManager.isRunning (sync (after (try_finally c stop) w)) = false.
Proof. unfold after, try_finally. destruct (c w) as [r w1]. reflexivity. Qed.

Lemma syncAppointments_refused (w : World) :
  SimpleSyncManager.isRunning (sync w) = true ->
  syncAppointments env w = (Return tt, after stop (tick w)).
Proof.
  intros R. unfold syncAppointments, try_finally, try_catch, bind.
  rewrite (start_refused env w (or_introl R)). reflexivity.
Qed.

Lemma performFullSync_refused (w : World) :
  SimpleSyncManager.isRunning (sync w) = true ->
  performFullSync env w = (Return tt, after stop (tick w)).
Proof.
  intros R. unfold performFullSync, try_finally, try_catch, bind.
  rewrite (start_refused env w (or_introl R)). reflexivity.
Qed.

(** C9.  [performFullSync] and [syncAppointments] run [stop()] on every
    path, the one where their own [start()] was refused included: whatever
    the world they are called in and however they end, [isRunning] is false
    afterwards.  Called while another sync holds the gate, they do nothing
    but clear the flag of that sync. *)
Theorem entry_points_always_stop (w : World) :
  SimpleSyncManager.isRunning (sync (after (performFullSync env) w)) = false
  /\ SimpleSyncManager.isRunning (sync (after (syncAppointments env) w)) = false
  /\ (SimpleSyncManager.isRunning (sync w) = true ->
      performFullSync env w = (Return tt, after stop (tick w))
      /\ syncAppointments env w = (Return tt, after stop (tick w))
      /\ SimpleSyncManager.isRunning (sync (after stop (tick w))) = false).
Proof.
  split; [apply finally_stop_clears|].
  split; [apply finally_stop_clears|].
  intros R. split; [apply performFullSync_refused, R|].
  split; [apply syncAppointments_refused, R | reflexivity].
Qed.

Lemma start_true (w : World) :
  outcome (start env) w = Return true ->
  exists w1, start env w = (Return true, w1)
             /\ SimpleSyncManager.isRunning (sync w1) = true
             /\ calls w1 = calls w.
Proof.
  unfold outcome. intros H.
  destruct (SimpleSyncManager.isRunning (sync w)) eqn:R.
  - rewrite (start_refused env w (or_introl R)) in H. discriminate.
  - destruct (Z.lt_ge_cases
                (date_now env (steps w) - SimpleSyncManager.lastRun (sync w))
                (SimpleSyncManager.minInterval (sync w))) as [L|L].
    + rewrite (start_refused env w (or_intror L)) in H. discriminate.
    + rewrite (start_granted env w R L). eexists. split; [reflexivity|].
      split; reflexivity.
Qed.

(** The calls [performFullSync] can make: events are created, the calendar
    is neither listed nor updated. *)
Definition creation (c : Call) : Prop :=
  match c with
  | CallCreateAppointment _ | CallCreateEvent _ _ _ _ => True
  | _ => False
  end.

Lemma full_sync_only_creates (w : World) :
  outcome (start env) w = Return true ->
  appended creation w (after (performFullSync env) w).
Proof.
  intros H. destruct (start_true w H) as [w1 [E1 [R1 C1]]].
  unfold after, performFullSync, try_finally, try_catch, bind. rewrite E1. cbn.
  pose proof (keeps_validateAppointmentData creation (fun _ => True) env
                (fun _ => I) (fun _ => I) w1) as F2.
  unfold after in F2.
  destruct (validateAppointmentData env w1) as [[[]|e2] w2]; cbn in *.
  - assert (R2 : SimpleSyncManager.isRunning (sync w2) = true)
      by (rewrite (frame_sync _ _ _ _ F2); exact R1).
    rewrite (syncAppointments_refused w2 R2). cbn.
    pose proof (keeps_retryFailedAppointmentSyncs creation (fun _ => True) env
                  (fun _ _ _ _ => I) (fun _ => I) (after stop (tick w2))) as F3.
    unfold after in F3. cbn in F3.
    match type of F3 with frame _ _ ?x _ => set (w3 := x) in * end.
    destruct (retryFailedAppointmentSyncs env w3) as [[[]|e4] w4] eqn:E4; cbn in *.
    + pose proof (keeps_cleanupOldData creation (fun _ => True) env (fun _ => I) w4)
        as F5.
      unfold after in F5.
      destruct (cleanupOldData env w4) as [r5 w5]; cbn in *.
      assert (A : appended creation w w5).
      { eapply appended_trans; [|apply (frame_calls _ _ _ _ F5)].
        eapply appended_trans; [|apply (frame_calls _ _ _ _ F3)].
        eapply appended_trans; [|apply appended_silent with (w := w2); reflexivity].
        eapply appended_trans; [|apply (frame_calls _ _ _ _ F2)].
        apply appended_silent. exact C1. }
      destruct r5; cbn; destruct A as [tr [Etr Ftr]]; exists tr; split; assumption.
    + assert (A : appended creation w w4).
      { eapply appended_trans; [|apply (frame_calls _ _ _ _ F3)].
        eapply appended_trans; [|apply appended_silent with (w := w2); reflexivity].
        eapply appended_trans; [|apply (frame_calls _ _ _ _ F2)].
        apply appended_silent. exact C1. }
      destruct A as [tr [Etr Ftr]]; exists tr; split; assumption.
  - assert (A : appended creation w w2).
    { eapply appended_trans; [|apply (frame_calls _ _ _ _ F2)].
      apply appended_silent. exact C1. }
    destruct A as [tr [Etr Ftr]]; exists tr; split; assumption.
Qed.

(** C2 (as the code behaves).  Whenever [performFullSync] acquires the gate,
    the [start()] inside the [syncAppointments] it calls finds the gate held
    and returns at once: up to the return of [performFullSync] the calendar
    is never listed and no event is updated; the only calls on the gateway
    create events (for the records without an event id). *)
Theorem full_sync_never_reconciles (w : World) :
  outcome (start env) w = Return true ->
  exists tr,
    calls (after (performFullSync env) w) = (calls w ++ tr)%list
    /\ (forall n, ~ In (CallGetUpcomingAppointments n) tr)
    /\ (forall e d, ~ In (CallUpdateAppointment e d) tr)
    /\ (forall e, ~ In (CallCancelAppointment e) tr).
Proof.
  intros H. destruct (full_sync_only_creates w H) as [tr [E F]].
  exists tr. split; [exact E|].
  rewrite Forall_forall in F.
  repeat split; intros; intro Hin; apply F in Hin; exact Hin.
Qed.

End Gate.

(** A sync in progress since noon; a second trigger enters both entry
    points and leaves the flag cleared. *)
Lemma entry_points_always_stop_witness :
  let env := quiet_env noon [] in
  let busy := after (start env) (idle_world []) in
  SimpleSyncManager.isRunning (sync busy) = true
  /\ performFullSync env busy = (Return tt, after stop (tick busy))
  /\ syncAppointments env busy = (Return tt, after stop (tick busy))
  /\ SimpleSyncManager.isRunning (sync (after stop (tick busy))) = false.
Proof.
  intros env busy. split; [reflexivity|].
  destruct (entry_points_always_stop env busy) as [_ [_ H]].
  apply H. reflexivity.
Defined.

(** The scenario of the specification: record 7 refers to event [evt-1],
    was created two hours ago, and the calendar has no such event. *)
Definition drifted_store : list Appointment.t :=
  [row 7 "9876543210" "2025-04-10" "09:00" "scheduled" (Some "evt-1")
       (noon - 2 * 3600000)].

Lemma full_sync_never_reconciles_witness :
  exists tr,
    calls (after (performFullSync (quiet_env noon [])) (idle_world drifted_store))
    = ([] ++ tr)%list
    /\ (forall n, ~ In (CallGetUpcomingAppointments n) tr)
    /\ (forall e d, ~ In (CallUpdateAppointment e d) tr)
    /\ (forall e, ~ In (CallCancelAppointment e) tr).
Proof.
  apply (full_sync_never_reconciles (quiet_env noon []) (idle_world drifted_store)).
  reflexivity.
Defined.

(** On that store [performFullSync] acquires the gate, makes no call at all
    and leaves record 7 pointing at the missing event, whereas
    [syncAppointments] called on its own recreates the event. *)
Example full_sync_on_drifted_store :
  outcome (start (quiet_env noon [])) (idle_world drifted_store) = Return true
  /\ outcome (performFullSync (quiet_env noon [])) (idle_world drifted_store)
     = Return tt
  /\ calls (after (performFullSync (quiet_env noon [])) (idle_world drifted_store))
     = []
  /\ appointments
       (after (performFullSync (quiet_env noon [])) (idle_world drifted_store))
     = drifted_store
  /\ calls (after (syncAppointments (quiet_env noon [])) (idle_world drifted_store))
     = [CallGetUpcomingAppointments 30;
        CallCreateAppointment
          {| AppointmentData.patientName := "Patient";
             AppointmentData.patientPhone := "9876543210";
             AppointmentData.date := "2025-04-10";
             AppointmentData.time := "09:00";
             AppointmentData.duration := 30 |}]
  /\ map Appointment.google_event_id
       (appointments
          (after (syncAppointments (quiet_env noon [])) (idle_world drifted_store)))
     = [Some "evt-new"%string].
Proof. vm_compute. repeat split. Qed.

(** ** The booking path *)

Section Booking.

Variable env : Env.

Lemma event_id_taken_null skip rows : event_id_taken None skip rows = false.
Proof.
  unfold event_id_taken. induction rows as [|a rows IH]; cbn; [reflexivity|].
  rewrite IH. destruct (Appointment.google_event_id a); cbn;
    rewrite andb_false_r; reflexivity.
Qed.

Lemma active_at_app phone date time l1 l2 :
  active_at phone date time (l1 ++ l2)
  = (active_at phone date time l1 ++ active_at phone date time l2)%list.
Proof. apply filter_app. Qed.

Lemma select_existing_active_at d w :
  select_existing d w
  = map Appointment.id
        (active_at (Appointment.patient_phone d) (Appointment.appointment_date d)
                   (Appointment.appointment_time d) (appointments w)).
Proof. reflexivity. Qed.

Lemma same_slot_refl a :
  same_slot (Appointment.patient_phone a) (Appointment.appointment_date a)
            (Appointment.appointment_time a) a = true.
Proof. unfold same_slot. rewrite !String.eqb_refl. reflexivity. Qed.

Lemma db_query_ok {A} (select : World -> A) (w : World) :
  sqlite_fails env (steps w) = false ->
  db_query env select w = (Return (select w), tick w).
Proof. intros H. unfold db_query. rewrite H. reflexivity. Qed.

Lemma db_run_ok stmt (w w1 : World) (r : RunResult.t) :
  sqlite_fails env (steps w) = false ->
  stmt (date_now env (steps w)) w = Some (r, w1) ->
  db_run env stmt w = (Return r, tick w1).
Proof. intros H E. unfold db_run. rewrite H, E. reflexivity. Qed.

Lemma insert_appointment_ok d now w :
  Appointment.google_event_id d = None ->
  insert_appointment d now w
  = Some ({| RunResult.id := next_rowid w; RunResult.changes := 1 |},
          set_sqlite_sequence (next_rowid w)
            (set_appointments
               (appointments w ++ [inserted_row d (next_rowid w) now]) w)).
Proof.
  intros G. unfold insert_appointment. rewrite G, event_id_taken_null. reflexivity.
Qed.

Lemma active_at_inserted d rowid now :
  status_in active_statuses d = true ->
  active_at (Appointment.patient_phone d) (Appointment.appointment_date d)
            (Appointment.appointment_time d) [inserted_row d rowid now]
  = [inserted_row d rowid now].
Proof.
  intros A. unfold active_at. cbn [filter].
  replace (same_slot _ _ _ (inserted_row d rowid now)) with true
    by (symmetry; apply (same_slot_refl d)).
  replace (status_in active_statuses (inserted_row d rowid now)) with true
    by (symmetry; exact A).
  reflexivity.
Qed.

(** Booking attempts that run one after the other keep the invariant: a
    slot with at most one active record has at most one afterwards. *)
Lemma saveAppointment_keeps_invariant (d : Appointment.t) (w : World)
  (phone date time : string) :
  (List.length (active_at phone date time (appointments w)) <= 1)%nat ->
  (List.length
     (active_at phone date time (appointments (after (saveAppointment env d) w)))
   <= 1)%nat.
Proof.
  intros H. unfold after, saveAppointment, try_catch, bind,
    saveAppointment_check, db_query.
  destruct (sqlite_fails env (steps w)); [exact H|].
  rewrite select_existing_active_at.
  destruct (active_at (Appointment.patient_phone d) (Appointment.appointment_date d)
                      (Appointment.appointment_time d) (appointments w))
    as [|x rest] eqn:E; cbn [map saveAppointment_resume].
  - unfold bind, db_run, ret, throw. cbn [tick steps].
    destruct (sqlite_fails env (S (steps w))); [exact H|].
    unfold insert_appointment.
    destruct (event_id_taken _ _ _); [exact H|].
    cbn [snd fst tick set_sqlite_sequence set_appointments appointments].
    rewrite active_at_app. cbn [active_at filter].
    match goal with |- context [same_slot phone date time ?r] => set (new := r) end.
    destruct (same_slot phone date time new) eqn:S1; cbn [andb];
      [|rewrite app_nil_r; exact H].
    destruct (status_in active_statuses new) eqn:S2; cbn [andb];
      [|rewrite app_nil_r; exact H].
    unfold same_slot in S1. cbn in S1.
    apply andb_prop in S1. destruct S1 as [S1 St]. apply andb_prop in S1.
    destruct S1 as [Sp Sd].
    apply String.eqb_eq in Sp, Sd, St. subst phone date time.
    unfold active_at in E |- *. rewrite E. cbn. lia.
  - exact H.
Qed.

(** C1 (as the code behaves).  Two booking attempts for one free slot whose
    duplicate checks are both answered before either inserts: each finds no
    active record, each inserts, and the slot holds two active records. *)
Theorem concurrent_bookings_both_insert (d1 d2 : Appointment.t) (w : World) :
  (forall n, sqlite_fails env n = false) ->
  slot_of d2 = slot_of d1 ->
  status_in active_statuses d1 = true ->
  status_in active_statuses d2 = true ->
  Appointment.google_event_id d1 = None ->
  Appointment.google_event_id d2 = None ->
  active_at (Appointment.patient_phone d1) (Appointment.appointment_date d1)
            (Appointment.appointment_time d1) (appointments w) = [] ->
  exists id1 id2,
    outcome (saveAppointment_concurrently env d1 d2) w
    = Return ({| SaveResult.id := id1; SaveResult.existed := false |},
              {| SaveResult.id := id2; SaveResult.existed := false |})
    /\ List.length
         (active_at (Appointment.patient_phone d1) (Appointment.appointment_date d1)
                    (Appointment.appointment_time d1)
                    (appointments (after (saveAppointment_concurrently env d1 d2) w)))
       = 2%nat.
Proof.
  intros Hq Hslot A1 A2 G1 G2 Hfree.
  unfold slot_of in Hslot. injection Hslot as Hp Hd Ht.
  assert (C1 : select_existing d1 w = []).
  { rewrite select_existing_active_at, Hfree. reflexivity. }
  assert (C2 : select_existing d2 (tick w) = []).
  { rewrite select_existing_active_at, Hp, Hd, Ht. cbn [tick appointments].
    rewrite Hfree. reflexivity. }
  unfold outcome, after, saveAppointment_concurrently, bind, saveAppointment_check.
  rewrite (db_query_ok _ w (Hq _)), C1.
  rewrite (db_query_ok _ (tick w) (Hq _)), C2.
  cbn [saveAppointment_resume]. unfold bind, ret.
  rewrite (db_run_ok _ _ _ _ (Hq _) (insert_appointment_ok d1 _ _ G1)).
  rewrite (db_run_ok _ _ _ _ (Hq _) (insert_appointment_ok d2 _ _ G2)).
  eexists _, _. split; [reflexivity|].
  cbn [snd tick set_sqlite_sequence set_appointments appointments].
  rewrite !active_at_app, Hfree, (active_at_inserted d1 _ _ A1).
  rewrite <- Hp, <- Hd, <- Ht, (active_at_inserted d2 _ _ A2). reflexivity.
Qed.

End Booking.

(** The booking the bot makes for a confirmed conversation. *)
Definition booking (phone date time : string) : Appointment.t :=
  {| Appointment.id := 0; Appointment.patient_phone := phone;
     Appointment.patient_name := None; Appointment.appointment_date := date;
     Appointment.appointment_time := time; Appointment.duration_minutes := 30;
     Appointment.status := "scheduled"; Appointment.google_event_id := None;
     Appointment.created_at := None; Appointment.updated_at := None |}.

(** Two messages confirm the same slot on an empty store. *)
Lemma concurrent_bookings_both_insert_witness :
  exists id1 id2,
    outcome (saveAppointment_concurrently (quiet_env noon [])
               (booking "9876543210" "2025-04-10" "09:00")
               (booking "9876543210" "2025-04-10" "09:00")) (idle_world [])
    = Return ({| SaveResult.id := id1; SaveResult.existed := false |},
              {| SaveResult.id := id2; SaveResult.existed := false |})
    /\ List.length
         (active_at "9876543210" "2025-04-10" "09:00"
            (appointments
               (after (saveAppointment_concurrently (quiet_env noon [])
                         (booking "9876543210" "2025-04-10" "09:00")
                         (booking "9876543210" "2025-04-10" "09:00"))
                      (idle_world []))))
       = 2%nat.
Proof.
  apply (concurrent_bookings_both_insert (quiet_env noon [])
           (booking "9876543210" "2025-04-10" "09:00")
           (booking "9876543210" "2025-04-10" "09:00") (idle_world []));
    reflexivity.
Defined.

(** ** The store sweep *)

(** One patient and one slot: a booking made and cancelled, then two active
    bookings of the same slot. *)
Definition rebooked_slot : list Appointment.t :=
  [row 1 "9876543210" "2025-04-10" "09:00" "cancelled" None (noon - 3 * 3600000);
   row 2 "9876543210" "2025-04-10" "09:00" "scheduled" None (noon - 2 * 3600000);
   row 3 "9876543210" "2025-04-10" "09:00" "scheduled" None (noon - 1 * 3600000)].

(** Two active bookings of a slot, and a later booking of it that was
    cancelled. *)
Definition cancelled_later : list Appointment.t :=
  [row 1 "9876543210" "2025-04-10" "09:00" "scheduled" None (noon - 3 * 3600000);
   row 2 "9876543210" "2025-04-10" "09:00" "scheduled" None (noon - 2 * 3600000);
   row 3 "9876543210" "2025-04-10" "09:00" "cancelled" None (noon - 1 * 3600000)].

(** On [rebooked_slot] the sweep keeps the cancelled record and deletes both
    active bookings, so the group of active records is emptied; on
    [cancelled_later] it deletes the cancelled record, which no group of
    active records contains. *)
Example store_sweep_on_mixed_slots :
  (List.length (active_at "9876543210" "2025-04-10" "09:00" rebooked_slot) = 2%nat
   /\ outcome (cleanDbDuplicates (quiet_env noon [])) (idle_world rebooked_slot)
      = Return 2%nat
   /\ map Appointment.id
        (appointments
           (after (cleanDbDuplicates (quiet_env noon [])) (idle_world rebooked_slot)))
      = [1]
   /\ active_at "9876543210" "2025-04-10" "09:00"
        (appointments
           (after (cleanDbDuplicates (quiet_env noon [])) (idle_world rebooked_slot)))
      = [])
  /\ (outcome (cleanDbDuplicates (quiet_env noon [])) (idle_world cancelled_later)
      = Return 2%nat
      /\ map Appointment.id
           (appointments
              (after (cleanDbDuplicates (quiet_env noon []))
                     (idle_world cancelled_later)))
         = [1]).
Proof. vm_compute. repeat split. Qed.

(** ** The calendar sweep: a delete that fails *)

(** Three events in one slot and two in another; no record refers to any. *)
Definition crowded_calendar : list CalendarEvent.t :=
  [event "e1" "2025-04-10T09:00:00+05:30";
   event "e2" "2025-04-10T09:00:00+05:30";
   event "e3" "2025-04-10T09:00:00+05:30";
   event "e4" "2025-04-11T09:00:00+05:30";
   event "e5" "2025-04-11T09:00:00+05:30"].

(** Undisturbed, the sweep deletes [e2], [e3] and [e5].  When the delete of
    [e2] is rejected (step 7 of the run), [e3] of the same slot and [e5] of
    the next slot are never tried and the sweep reports 0. *)
Example calendar_sweep_on_crowded_calendar :
  let undisturbed :=
    cleanCalendarDuplicates (quiet_env noon crowded_calendar) (idle_world []) in
  let disturbed :=
    cleanCalendarDuplicates (env_rejecting_delete noon crowded_calendar 7)
                            (idle_world []) in
  (fst undisturbed = Return 3%nat
   /\ calls (snd undisturbed)
      = [CallAuthenticate; CallGetUpcomingAppointments 30;
         CallCancelAppointment "e2"; CallCancelAppointment "e3";
         CallCancelAppointment "e5"])
  /\ (fst disturbed = Return 0%nat
      /\ calls (snd disturbed)
         = [CallAuthenticate; CallGetUpcomingAppointments 30;
            CallCancelAppointment "e2"])
  /\ outcome (cancelAppointment (env_rejecting_delete noon crowded_calendar 1) "e2")
             (idle_world [])
     = Throw ProviderError.
Proof. vm_compute. repeat split. Qed.

(** *** What the store sweep does to a slot, in general *)

Lemma insert_by_created_perm a l : Permutation (insert_by_created a l) (a :: l).
Proof.
  induction l as [|b l IH]; cbn; [apply Permutation_refl|].
  destruct (created_le a b); [apply Permutation_refl|].
  eapply Permutation_trans; [apply perm_skip, IH | apply perm_swap].
Qed.

Lemma order_by_created_perm l : Permutation (order_by_created l) l.
Proof.
  induction l as [|a l IH]; cbn; [apply Permutation_refl|].
  eapply Permutation_trans; [apply insert_by_created_perm | apply perm_skip, IH].
Qed.

Lemma filter_all_true {A} (f : A -> bool) (l : list A) :
  (forall x, In x l -> f x = true) -> filter f l = l.
Proof.
  induction l as [|x l IH]; intros H; cbn; [reflexivity|].
  rewrite (H x (or_introl eq_refl)). f_equal. apply IH. intros y Hy. apply H. right. exact Hy.
Qed.

Lemma filter_none {A} (f : A -> bool) (l : list A) :
  (forall x, In x l -> f x = false) -> filter f l = [].
Proof.
  induction l as [|x l IH]; intros H; cbn; [reflexivity|].
  rewrite (H x (or_introl eq_refl)). apply IH. intros y Hy. apply H. right. exact Hy.
Qed.

Lemma filter_after_filter {A} (f g : A -> bool) (l : list A) :
  (forall x, In x l -> g x = true -> f x = true) ->
  filter g (filter f l) = filter g l.
Proof.
  induction l as [|x l IH]; intros H; cbn; [reflexivity|].
  assert (IH' : filter g (filter f l) = filter g l)
    by (apply IH; intros y Hy; apply H; right; exact Hy).
  destruct (f x) eqn:F; cbn.
  - rewrite IH'. reflexivity.
  - destruct (g x) eqn:G; [|exact IH'].
    rewrite (H x (or_introl eq_refl) G) in F. discriminate.
Qed.

Lemma Z_in_In (x : Z) (l : list Z) : Z_in x l = true <-> In x l.
Proof.
  unfold Z_in. rewrite existsb_exists. split.
  - intros [y [Hy E]]. apply Z.eqb_eq in E. subst y. exact Hy.
  - intros H. exists x. split; [exact H | apply Z.eqb_refl].
Qed.

Lemma NoDup_ids_filter (f : Appointment.t -> bool) rows :
  NoDup (map Appointment.id rows) -> NoDup (map Appointment.id (filter f rows)).
Proof.
  induction rows as [|a rows IH]; cbn; intros H; [constructor|].
  inversion H as [|? ? Hn Hd]; subst.
  destruct (f a); cbn; [|apply IH, Hd].
  constructor; [|apply IH, Hd].
  intros Hin. apply Hn. apply in_map_iff in Hin. destruct Hin as [b [E Hb]].
  apply filter_In in Hb. rewrite <- E. apply in_map, Hb.
Qed.

Lemma NoDup_ids_inj rows a b :
  NoDup (map Appointment.id rows) -> In a rows -> In b rows ->
  Appointment.id a = Appointment.id b -> a = b.
Proof.
  induction rows as [|x rows IH]; cbn; intros H Ha Hb E; [destruct Ha|].
  inversion H as [|? ? Hn Hd]; subst.
  destruct Ha as [->|Ha], Hb as [->|Hb].
  - reflexivity.
  - exfalso. apply Hn. rewrite E. apply in_map, Hb.
  - exfalso. apply Hn. rewrite <- E. apply in_map, Ha.
  - apply IH; assumption.
Qed.

Lemma In_tl {A} (x : A) (l : list A) : In x (tl l) -> In x l.
Proof. destruct l; [intros [] | intros H; right; exact H]. Qed.

(** The rows that one turn of the sweep's loop leaves. *)
Definition sweep_slot (dup : DuplicateGroup.t) (rows : list Appointment.t)
  : list Appointment.t :=
  filter (fun a =>
            negb (Z_in (Appointment.id a)
                       (tl (map Appointment.id
                                (order_by_created
                                   (filter (same_slot (DuplicateGroup.patient_phone dup)
                                                      (DuplicateGroup.appointment_date dup)
                                                      (DuplicateGroup.appointment_time dup))
                                           rows))))))
         rows.

Lemma same_slot_eq phone date time phone' date' time' a :
  same_slot phone date time a = true -> same_slot phone' date' time' a = true ->
  (phone, date, time) = (phone', date', time').
Proof.
  unfold same_slot. intros H H'.
  apply andb_prop in H. destruct H as [H Ht]. apply andb_prop in H. destruct H as [Hp Hd].
  apply andb_prop in H'. destruct H' as [H' Ht']. apply andb_prop in H'.
  destruct H' as [Hp' Hd'].
  apply String.eqb_eq in Hp, Hd, Ht, Hp', Hd', Ht'. congruence.
Qed.

Section StoreSweep.

Variable phone date time : string.

(** The sweep of a slot keeps, of that slot, the first record in the order
    of creation; no other record of the slot survives. *)
Lemma sweep_own_slot dup rows oldest rest a :
  DuplicateGroup.patient_phone dup = phone ->
  DuplicateGroup.appointment_date dup = date ->
  DuplicateGroup.appointment_time dup = time ->
  order_by_created (filter (same_slot phone date time) rows) = oldest :: rest ->
  In a (sweep_slot dup rows) -> same_slot phone date time a = true -> a = oldest.
Proof.
  intros Ep Ed Et Hsorted Ha Hslot. unfold sweep_slot in Ha.
  rewrite Ep, Ed, Et, Hsorted in Ha.
  apply filter_In in Ha. destruct Ha as [Ha Hkeep]. cbn [map tl] in Hkeep.
  assert (Hin : In a (oldest :: rest)).
  { rewrite <- Hsorted.
    eapply Permutation_in; [apply Permutation_sym, order_by_created_perm|].
    apply filter_In. split; assumption. }
  destruct Hin as [<-|Hin]; [reflexivity|]. exfalso.
  apply negb_true_iff in Hkeep.
  assert (Z_in (Appointment.id a) (map Appointment.id rest) = true)
    by (apply Z_in_In, in_map, Hin).
  congruence.
Qed.

(** The sweep of another slot leaves the records of this one alone. *)
Lemma sweep_other_slot dup rows :
  NoDup (map Appointment.id rows) ->
  (DuplicateGroup.patient_phone dup, DuplicateGroup.appointment_date dup,
   DuplicateGroup.appointment_time dup) <> (phone, date, time) ->
  filter (same_slot phone date time) (sweep_slot dup rows)
  = filter (same_slot phone date time) rows.
Proof.
  intros Hnd Hother. unfold sweep_slot. apply filter_after_filter.
  intros a Ha Hslot. apply negb_true_iff.
  destruct (Z_in _ _) eqn:E; [|reflexivity]. exfalso.
  apply Z_in_In in E.
  assert (E' : In (Appointment.id a)
                  (map Appointment.id
                       (order_by_created
                          (filter (same_slot (DuplicateGroup.patient_phone dup)
                                             (DuplicateGroup.appointment_date dup)
                                             (DuplicateGroup.appointment_time dup))
                                  rows)))).
  { apply In_tl, E. }
  apply in_map_iff in E'. destruct E' as [b [Eid Hb]].
  eapply Permutation_in in Hb; [|apply order_by_created_perm].
  apply filter_In in Hb. destruct Hb as [Hb Hbslot].
  assert (b = a) by (eapply NoDup_ids_inj; eassumption). subst b.
  apply Hother. eapply same_slot_eq; eassumption.
Qed.

Lemma sweeps_shrink dups : forall rows,
  active_at phone date time rows = [] ->
  active_at phone date time (fold_left (fun rows dup => sweep_slot dup rows) dups rows)
  = [].
Proof.
  induction dups as [|dup dups IH]; intros rows H; cbn; [exact H|].
  apply IH. unfold active_at in *. unfold sweep_slot.
  apply filter_none. intros a Ha. apply filter_In in Ha. destruct Ha as [Ha _].
  destruct (same_slot phone date time a && status_in active_statuses a) eqn:E;
    [|reflexivity].
  assert (In a (filter (fun a => same_slot phone date time a
                                 && status_in active_statuses a) rows))
    by (apply filter_In; split; assumption).
  rewrite H in *. contradiction.
Qed.

Lemma sweeps_empty_slot dups oldest rest : forall rows,
  NoDup (map Appointment.id rows) ->
  (exists dup, In dup dups
               /\ (DuplicateGroup.patient_phone dup, DuplicateGroup.appointment_date dup,
                   DuplicateGroup.appointment_time dup) = (phone, date, time)) ->
  order_by_created (filter (same_slot phone date time) rows) = oldest :: rest ->
  status_in active_statuses oldest = false ->
  active_at phone date time (fold_left (fun rows dup => sweep_slot dup rows) dups rows)
  = [].
Proof.
  induction dups as [|dup dups IH]; intros rows Hnd [dk [Hin Hk]] Hsorted Hinactive;
    [destruct Hin|].
  cbn [fold_left].
  destruct (String.eqb_spec (DuplicateGroup.patient_phone dup) phone) as [Ep|Ep];
    [destruct (String.eqb_spec (DuplicateGroup.appointment_date dup) date) as [Ed|Ed];
     [destruct (String.eqb_spec (DuplicateGroup.appointment_time dup) time) as [Et|Et]|]|].
  - apply sweeps_shrink. unfold active_at. apply filter_none. intros a Ha.
    destruct (same_slot phone date time a) eqn:S; [|reflexivity]. cbn.
    rewrite (sweep_own_slot dup rows oldest rest a Ep Ed Et Hsorted Ha S).
    exact Hinactive.
  - apply IH with (rows := sweep_slot dup rows).
    + apply NoDup_ids_filter, Hnd.
    + exists dk. split; [|exact Hk].
      destruct Hin as [->|Hin]; [|exact Hin]. congruence.
    + rewrite sweep_other_slot; [exact Hsorted | exact Hnd | congruence].
    + exact Hinactive.
  - apply IH with (rows := sweep_slot dup rows).
    + apply NoDup_ids_filter, Hnd.
    + exists dk. split; [|exact Hk].
      destruct Hin as [->|Hin]; [|exact Hin]. congruence.
    + rewrite sweep_other_slot; [exact Hsorted | exact Hnd | congruence].
    + exact Hinactive.
  - apply IH with (rows := sweep_slot dup rows).
    + apply NoDup_ids_filter, Hnd.
    + exists dk. split; [|exact Hk].
      destruct Hin as [->|Hin]; [|exact Hin]. congruence.
    + rewrite sweep_other_slot; [exact Hsorted | exact Hnd | congruence].
    + exact Hinactive.
Qed.

End StoreSweep.

Lemma distinct_slots_complete rows a :
  In a rows -> In (slot_of a) (distinct_slots rows).
Proof.
  induction rows as [|b rows IH]; cbn; intros H; [destruct H|].
  destruct H as [->|H]; [left; reflexivity|].
  destruct (in_slot (slot_of a) b) eqn:E.
  - left. unfold in_slot, slot_of in *. unfold same_slot in E.
    apply andb_prop in E. destruct E as [E Et]. apply andb_prop in E.
    destruct E as [Ep Ed]. apply String.eqb_eq in Ep, Ed, Et. congruence.
  - right. apply filter_In. split; [apply IH, H | rewrite E; reflexivity].
Qed.

Lemma active_of_slot rows phone date time :
  filter (in_slot (phone, date, time)) (filter (status_in active_statuses) rows)
  = active_at phone date time rows.
Proof.
  unfold active_at. induction rows as [|a rows IH]; [reflexivity|].
  cbn [filter]. rewrite <- IH.
  destruct (status_in active_statuses a) eqn:S; cbn [filter]; unfold in_slot at 1;
    destruct (same_slot phone date time a) eqn:T; reflexivity.
Qed.

Section StoreSweepRun.

Variable env : Env.

Hypothesis sqlite_works : forall n, sqlite_fails env n = false.

Lemma clean_group_rows (total : nat) (dup : DuplicateGroup.t) (w : World) :
  exists total' w',
    clean_group env total dup w = (Return total', w')
    /\ appointments w' = sweep_slot dup (appointments w).
Proof.
  unfold clean_group. unfold bind at 1.
  rewrite (db_query_ok env _ w (sqlite_works _)).
  destruct (0 <? List.length (tl (select_slot_records dup w)))%nat eqn:L.
  - unfold bind.
    rewrite (db_run_ok env _ (tick w) _ _ (sqlite_works _) eq_refl).
    eexists _, _. split; reflexivity.
  - eexists _, _. split; [reflexivity|]. cbn [tick appointments].
    unfold sweep_slot. fold (select_slot_records dup w).
    apply Nat.ltb_ge in L.
    destruct (tl (select_slot_records dup w)); [|cbn in L; lia].
    symmetry. apply filter_all_true. reflexivity.
Qed.

Lemma clean_groups_rows dups : forall (total : nat) (w : World),
  appointments (after (fold_of dups total (clean_group env)) w)
  = fold_left (fun rows dup => sweep_slot dup rows) dups (appointments w).
Proof.
  induction dups as [|dup dups IH]; intros total w; [reflexivity|].
  cbn [fold_of fold_left]. unfold after, bind.
  destruct (clean_group_rows total dup w) as [t1 [w1 [E R]]]. rewrite E, <- R.
  apply IH.
Qed.

Lemma cleanDbDuplicates_rows (w : World) :
  appointments (after (cleanDbDuplicates env) w)
  = fold_left (fun rows dup => sweep_slot dup rows)
              (select_duplicate_groups w) (appointments w).
Proof.
  unfold after, cleanDbDuplicates, checkDbDuplicates. unfold bind at 1.
  rewrite (db_query_ok env _ w (sqlite_works _)).
  destruct (List.length (select_duplicate_groups w) =? 0)%nat eqn:L.
  - apply Nat.eqb_eq, length_zero_iff_nil in L. rewrite L. reflexivity.
  - apply (clean_groups_rows (select_duplicate_groups w) 0%nat (tick w)).
Qed.

(** C4 (as the code behaves).  The query that lists the records of a
    duplicate group has no condition on the status.  Whenever the oldest
    record of a slot is not an active one (a cancelled booking, say) and the
    slot holds more than one active record, the sweep keeps that oldest
    record and deletes every active record of the slot: the group of active
    records is emptied instead of being reduced to its earliest member. *)
Theorem store_sweep_ignores_status
  (w : World) (phone date time : string)
  (oldest : Appointment.t) (rest : list Appointment.t) :
  NoDup (map Appointment.id (appointments w)) ->
  (1 < List.length (active_at phone date time (appointments w)))%nat ->
  order_by_created (filter (same_slot phone date time) (appointments w))
  = oldest :: rest ->
  status_in active_statuses oldest = false ->
  active_at phone date time (appointments (after (cleanDbDuplicates env) w)) = [].
Proof.
  intros Hnd Hmany Hsorted Hinactive.
  rewrite cleanDbDuplicates_rows.
  apply (sweeps_empty_slot phone date time _ oldest rest); try assumption.
  set (active := filter (status_in active_statuses) (appointments w)).
  pose proof (active_of_slot (appointments w) phone date time) as Hcount.
  fold active in Hcount.
  destruct (active_at phone date time (appointments w)) as [|a tail] eqn:Ea;
    [cbn in Hmany; lia|].
  assert (Ha : In a (filter (in_slot (phone, date, time)) active))
    by (rewrite Hcount; left; reflexivity).
  apply filter_In in Ha. destruct Ha as [Ha Hslot].
  assert (Hk : slot_of a = (phone, date, time)).
  { unfold in_slot, same_slot in Hslot. apply andb_prop in Hslot.
    destruct Hslot as [H Ht]. apply andb_prop in H. destruct H as [Hp Hd].
    apply String.eqb_eq in Hp, Hd, Ht. unfold slot_of. congruence. }
  exists {| DuplicateGroup.patient_phone := phone;
            DuplicateGroup.appointment_date := date;
            DuplicateGroup.appointment_time := time;
            DuplicateGroup.count := List.length (a :: tail) |}.
  split; [|reflexivity].
  unfold select_duplicate_groups. fold active. apply in_flat_map.
  exists (phone, date, time). split.
  - rewrite <- Hk. apply distinct_slots_complete, Ha.
  - rewrite Hcount. destruct (Nat.ltb_spec 1 (List.length (a :: tail))); [|lia].
    left. reflexivity.
Qed.

End StoreSweepRun.

(** The sweep on [rebooked_slot]: two active bookings before, none after. *)
Lemma store_sweep_ignores_status_witness :
  List.length (active_at "9876543210" "2025-04-10" "09:00" rebooked_slot) = 2%nat
  /\ active_at "9876543210" "2025-04-10" "09:00"
       (appointments
          (after (cleanDbDuplicates (quiet_env noon [])) (idle_world rebooked_slot)))
     = [].
Proof.
  split; [reflexivity|].
  apply (store_sweep_ignores_status (quiet_env noon []) (fun _ => eq_refl)
           (idle_world rebooked_slot) "9876543210" "2025-04-10" "09:00"
           (row 1 "9876543210" "2025-04-10" "09:00" "cancelled" None
                (noon - 3 * 3600000))
           [row 2 "9876543210" "2025-04-10" "09:00" "scheduled" None
                (noon - 2 * 3600000);
            row 3 "9876543210" "2025-04-10" "09:00" "scheduled" None
                (noon - 1 * 3600000)]).
  - repeat constructor; cbn; intuition discriminate.
  - cbn. lia.
  - reflexivity.
  - reflexivity.
Defined.

(** ** Drift: the window in which a missing event is recreated *)

Lemma recent_iff (now created : Z) :
  recent (hoursSinceCreation now (Some created)) = true
  <-> now - created < 25 * 3600000.
Proof.
  unfold recent, hoursSinceCreation. rewrite Z.leb_le.
  destruct (Z.le_gt_cases 0 (now - created)) as [Hpos|Hneg].
  - rewrite Z.quot_div_nonneg by lia. split; intros H.
    + apply Z.nle_gt. intros Hge.
      assert (25 <= (now - created) / 3600000)
        by (apply Z.div_le_lower_bound; lia).
      lia.
    + assert ((now - created) / 3600000 < 25)
        by (apply Z.div_lt_upper_bound; lia).
      lia.
  - assert (Z.quot (now - created) 3600000 <= 0).
    { replace (now - created) with (- (created - now)) by lia.
      rewrite Z.quot_opp_l by lia.
      assert (0 <= Z.quot (created - now) 3600000) by (apply Z.quot_pos; lia).
      lia. }
    split; intros; lia.
Qed.

(** Record 7 of the specification's scenario, created [age] milliseconds
    before noon. *)
Definition drifted (age : Z) : list Appointment.t :=
  [row 7 "9876543210" "2025-04-10" "09:00" "scheduled" (Some "evt-1") (noon - age)].

Definition minutes (n : Z) : Z := n * 60000.

(** C3 (as the code behaves).  The age of a record is counted in whole
    hours, rounded toward zero, and compared with [<= 24]: a record whose
    event is missing is queued for recreation exactly when it is less than
    25 hours old.  One created 24h01m before the pass is recreated and gets
    the new event id, like one created 23h59m before; one created 25h
    before is skipped. *)
Theorem drift_recreated_below_25_hours :
  (forall env calendarEventMap acc eventId dbAppointment created w,
      Map_get eventId calendarEventMap = None ->
      Appointment.created_at dbAppointment = Some created ->
      compare_one env calendarEventMap acc (eventId, dbAppointment) w
      = (Return (if date_now env (steps w) - created <? 25 * 3600000
                 then ((fst acc ++ [dbAppointment])%list, snd acc)
                 else acc),
         tick w))
  /\ (forall age,
         In age [minutes (23 * 60 + 59); minutes (24 * 60 + 1)] ->
         calls (after (syncAppointments (quiet_env noon [])) (idle_world (drifted age)))
         = [CallGetUpcomingAppointments 30;
            CallCreateAppointment
              {| AppointmentData.patientName := "Patient";
                 AppointmentData.patientPhone := "9876543210";
                 AppointmentData.date := "2025-04-10";
                 AppointmentData.time := "09:00";
                 AppointmentData.duration := 30 |}]
         /\ map Appointment.google_event_id
              (appointments
                 (after (syncAppointments (quiet_env noon []))
                        (idle_world (drifted age))))
            = [Some "evt-new"%string])
  /\ calls (after (syncAppointments (quiet_env noon []))
                  (idle_world (drifted (minutes (25 * 60)))))
     = [CallGetUpcomingAppointments 30].
Proof.
  split; [|split].
  - intros env cm acc eventId a created w Hmiss Hcreated.
    unfold compare_one, bind, Date_now, ret. cbn [fst snd]. rewrite Hmiss, Hcreated.
    destruct (recent _) eqn:R.
    + apply recent_iff in R. apply Z.ltb_lt in R. rewrite R. reflexivity.
    + destruct (date_now env (steps w) - created <? 25 * 3600000) eqn:L;
        [|reflexivity].
      apply Z.ltb_lt, recent_iff in L. congruence.
  - intros age [<-|[<-|[]]]; vm_compute; split; reflexivity.
  - vm_compute. reflexivity.
Qed.

(** ** The calendar sweep and the records that are not [scheduled] *)

(** A confirmed booking with its event, and a second event in its slot. *)
Definition confirmed_store : list Appointment.t :=
  [row 1 "9876543210" "2025-04-10" "09:00" "confirmed" (Some "e1") (noon - 3600000)].

Definition shared_slot : list CalendarEvent.t :=
  [event "e1" "2025-04-10T09:00:00+05:30"; event "e2" "2025-04-10T09:00:00+05:30"].

(** C10, refuted as stated.  The slot holds two events, [e1] is referenced
    by a confirmed record and is classified invalid, yet the sweep keeps it:
    with no valid event in the slot the first event is kept and only [e2]
    is deleted. *)
Lemma confirmed_event_kept :
  group_events shared_slot [] = Some [("2025-04-10_09:00"%string, shared_slot)]
  /\ Set_has "e1"
       (valid_ids (select_scheduled_with_event (idle_world confirmed_store)))
     = false
  /\ calls (after (cleanCalendarDuplicates (quiet_env noon shared_slot))
                  (idle_world confirmed_store))
     = [CallAuthenticate; CallGetUpcomingAppointments 30;
        CallCancelAppointment "e2"]
  /\ ~ In (CallCancelAppointment "e1")
          (calls (after (cleanCalendarDuplicates (quiet_env noon shared_slot))
                        (idle_world confirmed_store))).
Proof.
  split; [reflexivity|]. split; [reflexivity|]. split; [reflexivity|].
  vm_compute. intros [H|[H|[H|[]]]]; discriminate.
Qed.

(** ** Maps of the reconciliation *)

Section Maps.

Context {V : Type}.

Lemma Map_get_set_same (k : string) (v : V) m : Map_get k (Map_set k v m) = Some v.
Proof.
  induction m as [|[k' v'] m IH]; cbn.
  - rewrite String.eqb_refl. reflexivity.
  - destruct (String.eqb k' k) eqn:E; cbn; rewrite E; [reflexivity | exact IH].
Qed.

Lemma Map_get_set_other (k k' : string) (v : V) m :
  k' <> k -> Map_get k' (Map_set k v m) = Map_get k' m.
Proof.
  intros N. induction m as [|[k0 v0] m IH]; cbn.
  - destruct (String.eqb_spec k k'); [congruence | reflexivity].
  - destruct (String.eqb_spec k0 k); cbn.
    + subst k0. destruct (String.eqb_spec k k'); [congruence | reflexivity].
    + rewrite IH. reflexivity.
Qed.

Lemma Map_get_Some_In (k : string) (v : V) m : Map_get k m = Some v -> In (k, v) m.
Proof.
  induction m as [|[k0 v0] m IH]; cbn; [discriminate|].
  destruct (String.eqb_spec k0 k).
  - intros E. injection E as <-. subst. left. reflexivity.
  - intros E. right. apply IH, E.
Qed.

Lemma Map_get_None_keys (k : string) (m : list (string * V)) :
  Map_get k m = None -> ~ In k (map fst m).
Proof.
  induction m as [|[k0 v0] m IH]; cbn; [tauto|].
  destruct (String.eqb_spec k0 k); [discriminate|].
  intros E [H|H]; [congruence | exact (IH E H)].
Qed.

Lemma Map_set_keys (k : string) (v : V) m :
  forall k', In k' (map fst (Map_set k v m)) -> k' = k \/ In k' (map fst m).
Proof.
  induction m as [|[k0 v0] m IH]; cbn; intros k'.
  - intros [H|[]]. left. congruence.
  - destruct (String.eqb_spec k0 k); cbn.
    + intros [H|H]; [right; left; exact H | right; right; exact H].
    + intros [H|H]; [right; left; exact H|].
      destruct (IH _ H); [left; assumption | right; right; assumption].
Qed.

Lemma Map_set_NoDup (k : string) (v : V) m :
  NoDup (map fst m) -> NoDup (map fst (Map_set k v m)).
Proof.
  induction m as [|[k0 v0] m IH]; cbn; intros H.
  - constructor; [intros [] | constructor].
  - inversion H as [|? ? Hn Hd]; subst.
    destruct (String.eqb_spec k0 k); cbn.
    + constructor; assumption.
    + constructor; [|apply IH, Hd].
      intros Hin. apply Map_set_keys in Hin. destruct Hin; [congruence | contradiction].
Qed.

Lemma Map_set_entries (k : string) (v : V) m :
  forall k' v', In (k', v') (Map_set k v m) -> (k' = k /\ v' = v) \/ In (k', v') m.
Proof.
  induction m as [|[k0 v0] m IH]; cbn; intros k' v'.
  - intros [H|[]]. injection H as <- <-. left. split; reflexivity.
  - destruct (String.eqb_spec k0 k); cbn.
    + intros [H|H]; [injection H as <- <-; left; split; congruence
                    | right; right; exact H].
    + intros [H|H]; [right; left; exact H|].
      destruct (IH _ _ H); [left; assumption | right; right; assumption].
Qed.

End Maps.

Lemma dbAppointmentMap_NoDup l : forall m,
  NoDup (map fst m) -> NoDup (map fst (dbAppointmentMap_of l m)).
Proof.
  induction l as [|a l IH]; intros m H; cbn; [exact H|].
  destruct (Appointment.google_event_id a) as [[|c s]|]; try (apply IH, H).
  apply IH, Map_set_NoDup, H.
Qed.

Lemma dbAppointmentMap_entries l : forall m k a,
  In (k, a) (dbAppointmentMap_of l m) ->
  In (k, a) m \/ (In a l /\ Appointment.google_event_id a = Some k).
Proof.
  induction l as [|x l IH]; intros m k a; cbn; [left; assumption|].
  destruct (Appointment.google_event_id x) as [[|c s]|] eqn:G; intros H;
    apply IH in H.
  - destruct H as [H|[H1 H2]]; [left; exact H | right; split; [right|]; assumption].
  - destruct H as [H|[H1 H2]]; [|right; split; [right|]; assumption].
    apply Map_set_entries in H. destruct H as [[-> ->]|H]; [|left; exact H].
    right. split; [left; reflexivity | exact G].
  - destruct H as [H|[H1 H2]]; [left; exact H | right; split; [right|]; assumption].
Qed.

(** With event ids unique among the rows, the map sends an event id to the
    row that carries it. *)
Lemma dbAppointmentMap_get l (e : string) (a : Appointment.t) :
  e <> EmptyString ->
  Appointment.google_event_id a = Some e ->
  (forall b, In b l -> Appointment.google_event_id b = Some e -> b = a) ->
  forall m, In a l \/ Map_get e m = Some a ->
            Map_get e (dbAppointmentMap_of l m) = Some a.
Proof.
  intros Ne Ga. induction l as [|x l IH]; intros U m H; cbn.
  - destruct H as [[]|H]. exact H.
  - assert (U' : forall b, In b l -> Appointment.google_event_id b = Some e -> b = a)
      by (intros b Hb; apply U; right; exact Hb).
    destruct (Appointment.google_event_id x) as [[|c s]|] eqn:G.
    + apply IH; [exact U'|]. destruct H as [[H|H]|H]; [|left; exact H | right; exact H].
      subst x. congruence.
    + apply IH; [exact U'|].
      destruct (String.eqb_spec (String c s) e) as [E|E].
      * right. rewrite <- E in *. rewrite Map_get_set_same.
        f_equal. apply U; [left; reflexivity | exact G].
      * destruct H as [[H|H]|H]; [subst x; congruence | left; exact H|].
        right. rewrite Map_get_set_other by congruence. exact H.
    + apply IH; [exact U'|]. destruct H as [[H|H]|H]; [|left; exact H | right; exact H].
      subst x. congruence.
Qed.

Lemma calendarEventMap_ids l : forall m,
  (forall k ev, In (k, ev) m -> CalendarEvent.id ev = k) ->
  forall k ev, In (k, ev) (calendarEventMap_of l m) -> CalendarEvent.id ev = k.
Proof.
  induction l as [|x l IH]; intros m H k ev; cbn; [apply H|].
  apply IH. intros k' ev' Hin. apply Map_set_entries in Hin.
  destruct Hin as [[-> ->]|Hin]; [reflexivity | apply H, Hin].
Qed.

Lemma calendarEventMap_get_id evs k ev :
  Map_get k (calendarEventMap_of evs []) = Some ev -> CalendarEvent.id ev = k.
Proof.
  intros H. apply Map_get_Some_In in H.
  revert H. apply calendarEventMap_ids. intros ? ? [].
Qed.

(** ** The comparison pass *)

Section Reconciliation.

Variable env : Env.

(** The record's date and time, read in the configured zone, and the
    event's start are not the same instant. *)
Definition differs (a : Appointment.t) (ev : CalendarEvent.t) : bool :=
  negb (isSame (moment_tz env (iso_local (Appointment.appointment_date a)
                                         (Appointment.appointment_time a)))
               (moment env (CalendarEvent.start ev))).

(** What the comparison loop queues, the clock being read at step [n] for
    the first record whose event is missing. *)
Fixpoint queued_creates (calendarEventMap : list (string * CalendarEvent.t))
  (m : list (string * Appointment.t)) (n : nat) : list Appointment.t :=
  match m with
  | [] => []
  | (k, a) :: m' =>
    match Map_get k calendarEventMap with
    | None =>
      (if recent (hoursSinceCreation (date_now env n) (Appointment.created_at a))
       then [a] else [])
      ++ queued_creates calendarEventMap m' (S n)
    | Some _ => queued_creates calendarEventMap m' n
    end
  end%list.

Definition queued_updates (calendarEventMap : list (string * CalendarEvent.t))
  (m : list (string * Appointment.t)) : list (Appointment.t * CalendarEvent.t) :=
  flat_map (fun entry =>
              match Map_get (fst entry) calendarEventMap with
              | Some ev => if differs (snd entry) ev then [(snd entry, ev)] else []
              | None => []
              end) m.

Fixpoint misses (calendarEventMap : list (string * CalendarEvent.t))
  (m : list (string * Appointment.t)) : nat :=
  match m with
  | [] => 0
  | (k, _) :: m' =>
    match Map_get k calendarEventMap with
    | None => S (misses calendarEventMap m')
    | Some _ => misses calendarEventMap m'
    end
  end.

Lemma iter_tick_fields (n : nat) (w : World) :
  sync (Nat.iter n tick w) = sync w
  /\ patients (Nat.iter n tick w) = patients w
  /\ appointments (Nat.iter n tick w) = appointments w
  /\ calls (Nat.iter n tick w) = calls w.
Proof.
  induction n as [|n IH]; [repeat split|].
  rewrite Nat.iter_succ. exact IH.
Qed.

Lemma compare_fold cm m : forall acc w,
  fold_of m acc (compare_one env cm) w
  = (Return ((fst acc ++ queued_creates cm m (steps w))%list,
             (snd acc ++ queued_updates cm m)%list),
     Nat.iter (misses cm m) tick w).
Proof.
  induction m as [|[k a] m IH]; intros [tc tu] w.
  - cbn. rewrite !app_nil_r. reflexivity.
  - cbn [fold_of queued_creates queued_updates misses flat_map fst snd].
    unfold bind at 1. unfold compare_one. cbn [fst snd]. fold (differs a).
    destruct (Map_get k cm) as [ev|].
    + fold (differs a ev). destruct (differs a ev); unfold ret; rewrite IH; cbn [fst snd].
      * rewrite <- app_assoc. reflexivity.
      * reflexivity.
    + unfold bind, Date_now.
      destruct (recent _); unfold ret; rewrite IH; cbn [fst snd tick steps].
      * rewrite <- app_assoc, Nat.iter_succ_r. reflexivity.
      * rewrite Nat.iter_succ_r. reflexivity.
Qed.

Lemma queued_creates_from cm m : forall n a,
  In a (queued_creates cm m n) ->
  exists k, In (k, a) m /\ Map_get k cm = None.
Proof.
  induction m as [|[k x] m IH]; intros n a; cbn; [intros []|].
  destruct (Map_get k cm) eqn:G.
  - intros H. destruct (IH _ _ H) as [k' [H1 H2]]. exists k'. split; [right|]; assumption.
  - intros H. apply in_app_or in H. destruct H as [H|H].
    + destruct (recent _); [|destruct H]. destruct H as [<-|[]].
      exists k. split; [left; reflexivity | exact G].
    + destruct (IH _ _ H) as [k' [H1 H2]]. exists k'. split; [right|]; assumption.
Qed.

Lemma queued_updates_from cm m a ev :
  In (a, ev) (queued_updates cm m) ->
  exists k, In (k, a) m /\ Map_get k cm = Some ev.
Proof.
  unfold queued_updates. rewrite in_flat_map. intros [[k x] [Hin H]]. cbn in H.
  destruct (Map_get k cm) as [ev'|] eqn:G; [|destruct H].
  destruct (differs x ev'); [|destruct H]. destruct H as [H|[]].
  injection H as -> ->. exists k. split; assumption.
Qed.

(** ** Applying the fixes *)

Lemma swallow_returns (c : M unit) (w : World) : outcome (swallow c) w = Return tt.
Proof.
  unfold outcome, swallow, try_catch. destruct (c w) as [[[]|e] w1]; reflexivity.
Qed.

Lemma for_of_swallow_returns {A} (l : list A) (body : A -> M unit) : forall w,
  outcome (for_of l (fun x => swallow (body x))) w = Return tt.
Proof.
  induction l as [|x l IH]; intros w; [reflexivity|].
  cbn [for_of]. unfold outcome, bind.
  pose proof (swallow_returns (body x) w) as H. unfold outcome in H.
  destruct (swallow (body x) w) as [r w1]. cbn in H. subst r. apply IH.
Qed.

Lemma applySyncFixes_run tc tu (w : World) :
  applySyncFixes env tc tu [] [] [] w
  = (Return tt,
     after (for_of tu (fun item => swallow (push_update env item)))
           (after (for_of tc (fun a => swallow (recreate env a))) w)).
Proof.
  unfold applySyncFixes, try_catch, bind, after.
  pose proof (for_of_swallow_returns tc (recreate env) w) as H1. unfold outcome in H1.
  destruct (for_of tc _ w) as [r1 w1]. cbn in H1. subst r1. cbn [snd].
  pose proof (for_of_swallow_returns tu (push_update env) w1) as H2.
  unfold outcome in H2.
  destruct (for_of tu _ w1) as [r2 w2]. cbn in H2. subst r2. reflexivity.
Qed.

Section Kept.

Variable P : Call -> Prop.
Variable S : Z -> Prop.

Lemma keeps_push_update item :
  (forall d, P (CallUpdateAppointment (CalendarEvent.id (snd item)) d)) ->
  keeps P S (push_update env item).
Proof.
  intros H. unfold push_update.
  apply keeps_bind; [apply keeps_db_query | intros patient].
  apply keeps_updateAppointment, H.
Qed.

Lemma keeps_reconcile dbAppointments calendarEvents :
  (forall d, P (CallCreateAppointment d)) ->
  (forall a, In a dbAppointments -> S (Appointment.id a)) ->
  (forall k d, In k (map fst (dbAppointmentMap_of dbAppointments [])) ->
               P (CallUpdateAppointment k d)) ->
  keeps P S (reconcile env dbAppointments calendarEvents).
Proof.
  intros Hc HS Hu w. unfold after, reconcile, bind.
  rewrite compare_fold. cbn [fst snd app]. rewrite applySyncFixes_run. cbn [snd].
  set (m := dbAppointmentMap_of dbAppointments []) in *.
  set (cm := calendarEventMap_of calendarEvents []).
  eapply frame_trans.
  { destruct (iter_tick_fields (misses cm m) w) as [H1 [H2 [H3 H4]]].
    apply frame_silent; eassumption. }
  eapply frame_trans; cycle 1.
  - apply keeps_for_of. intros [a ev] Hin. apply keeps_swallow, keeps_push_update.
    intros d. cbn [snd].
    apply queued_updates_from in Hin. destruct Hin as [k [Hin Hget]].
    rewrite (calendarEventMap_get_id _ _ _ Hget).
    apply Hu. apply in_map_iff. exists (k, a). split; [reflexivity | exact Hin].
  - apply keeps_for_of. intros a Ha. apply keeps_swallow, keeps_recreate; [exact Hc|].
    apply queued_creates_from in Ha. destruct Ha as [k [Hin _]].
    apply dbAppointmentMap_entries in Hin. destruct Hin as [[]|[Hin _]].
    apply HS, Hin.
Qed.

End Kept.

Lemma start_cases (w : World) :
  start env w = (Return false, tick w)
  \/ exists s, start env w = (Return true, set_sync s (tick (tick w)))
               /\ SimpleSyncManager.isRunning s = true.
Proof.
  destruct (SimpleSyncManager.isRunning (sync w)) eqn:R.
  - left. apply start_refused. left. exact R.
  - destruct (Z.lt_ge_cases
                (date_now env (steps w) - SimpleSyncManager.lastRun (sync w))
                (SimpleSyncManager.minInterval (sync w))) as [L|L].
    + left. apply start_refused. right. exact L.
    + right. eexists. split; [apply start_granted; assumption | reflexivity].
Qed.

(** [syncAppointments] once its [start()] has been granted. *)
Definition sync_body : M unit :=
  dbAppointments <- db_query env select_scheduled_with_event ;;
  calendarEvents <- getUpcomingAppointments env 30 ;;
  reconcile env dbAppointments calendarEvents.

Lemma syncAppointments_after (w : World) :
  after (syncAppointments env) w
  = match start env w with
    | (Return true, w1) => after stop (after sync_body w1)
    | (_, w1) => after stop w1
    end.
Proof.
  unfold syncAppointments, try_finally, try_catch, after. unfold bind at 1.
  fold sync_body.
  destruct (start env w) as [[[]|err] w1]; cbn [negb]; try reflexivity.
  destruct (sync_body w1) as [[[]|err] w2]; reflexivity.
Qed.

(** An event no record of the map refers to is spared: it is not updated,
    and the pass deletes nothing. *)
Definition spares (e : string) (c : Call) : Prop :=
  match c with
  | CallUpdateAppointment e' _ => e' <> e
  | CallCancelAppointment _ => False
  | _ => True
  end.

Lemma sync_body_spares (w : World) (e : string) :
  Map_get e (dbAppointmentMap_of (select_scheduled_with_event w) []) = None ->
  frame (spares e) (fun _ => True) w (after sync_body w).
Proof.
  intros Horphan. unfold after, sync_body. unfold bind at 1. unfold db_query.
  destruct (sqlite_fails env (steps w)); [apply frame_tick|].
  eapply frame_trans; [apply frame_tick|].
  apply (keeps_bind (spares e) (fun _ => True)).
  - apply keeps_getUpcomingAppointments. exact I.
  - intros evs. apply keeps_reconcile.
    + intros d. exact I.
    + intros a _. exact I.
    + intros k d Hk. cbn. intros ->.
      exact (Map_get_None_keys _ _ Horphan Hk).
Qed.

(** C8.  An event whose id no record of the reconciliation's map refers to
    survives the pass: [syncAppointments] never calls [updateAppointment]
    on it, calls [cancelAppointment] on no event at all, and inserts or
    deletes no record (nothing is imported); such an event is only logged. *)
Theorem orphan_event_survives (w : World) (e : string) :
  Map_get e (dbAppointmentMap_of (select_scheduled_with_event w) []) = None ->
  exists tr,
    calls (after (syncAppointments env) w) = (calls w ++ tr)%list
    /\ (forall d, ~ In (CallUpdateAppointment e d) tr)
    /\ (forall e', ~ In (CallCancelAppointment e') tr)
    /\ map Appointment.id (appointments (after (syncAppointments env) w))
       = map Appointment.id (appointments w).
Proof.
  intros Horphan.
  assert (A : appended (spares e) w (after (syncAppointments env) w)
              /\ map Appointment.id (appointments (after (syncAppointments env) w))
                 = map Appointment.id (appointments w)).
  { rewrite syncAppointments_after.
    destruct (start_cases w) as [E|[s [E _]]]; rewrite E.
    - split; [apply appended_silent|]; reflexivity.
    - pose proof (sync_body_spares (set_sync s (tick (tick w))) e Horphan) as G.
      split.
      + eapply appended_trans;
          [apply appended_silent with (w' := set_sync s (tick (tick w))); reflexivity|].
        eapply appended_trans; [apply (frame_calls _ _ _ _ G)|].
        apply appended_silent. reflexivity.
      + exact (frame_ids _ _ _ _ G). }
  destruct A as [[tr [E Htr]] Hids]. exists tr. split; [exact E|].
  rewrite Forall_forall in Htr. split; [|split; [|exact Hids]].
  - intros d Hin. apply Htr in Hin. cbn in Hin. congruence.
  - intros e' Hin. apply Htr in Hin. exact Hin.
Qed.

End Reconciliation.

(** ** A record whose event is listed *)

Section Mismatch.

Variable env : Env.

Hypothesis sqlite_works : forall n, sqlite_fails env n = false.

(** The calls on [updateAppointment] that target event [e]. *)
Definition updates_for (e : string) (tr : list Call) : list Call :=
  filter (fun c => match c with
                   | CallUpdateAppointment e' _ => String.eqb e' e
                   | _ => false
                   end) tr.

Definition update_call (w : World) (item : Appointment.t * CalendarEvent.t) : Call :=
  CallUpdateAppointment
    (CalendarEvent.id (snd item))
    (appointment_data (fst item)
                      (select_patient (Appointment.patient_phone (fst item)) w)).

(** What [w'] may differ from [w] in while a loop only makes calls. *)
Definition same_stores (w w' : World) : Prop :=
  sync w' = sync w /\ patients w' = patients w /\ appointments w' = appointments w.

Lemma push_update_exact (item : Appointment.t * CalendarEvent.t) (w : World) :
  exists w',
    swallow (push_update env item) w = (Return tt, w')
    /\ calls w' = (calls w ++ [update_call w item])%list
    /\ same_stores w w'.
Proof.
  unfold swallow, try_catch, push_update, bind.
  rewrite (db_query_ok env _ w (sqlite_works _)).
  unfold updateAppointment, bind, enter, try_catch, ensureValidTokens, toISOString,
    provider, accepted, ret, throw, update_call, same_stores.
  cbn [log_call steps tick].
  destruct (tokens_valid env _);
    [|eexists; split; [reflexivity | repeat split]].
  destruct (new_Date env _);
    [|eexists; split; [reflexivity | repeat split]].
  cbn [steps tick].
  destruct (events_update env _); eexists; (split; [reflexivity | repeat split]).
Qed.

Lemma update_loop_exact tu : forall w,
  calls (after (for_of tu (fun item => swallow (push_update env item))) w)
  = (calls w ++ map (update_call w) tu)%list
  /\ same_stores w (after (for_of tu (fun item => swallow (push_update env item))) w).
Proof.
  induction tu as [|item tu IH]; intros w.
  - cbn. rewrite app_nil_r. repeat split.
  - cbn [for_of map]. unfold after, bind.
    destruct (push_update_exact item w) as [w1 [E [C [S1 [S2 S3]]]]].
    rewrite E.
    destruct (IH w1) as [C' [S1' [S2' S3']]]. unfold after in *.
    split.
    + rewrite C', C, <- app_assoc. cbn. do 2 f_equal.
      apply map_ext. intros it. unfold update_call, select_patient. rewrite S2.
      reflexivity.
    + repeat split; congruence.
Qed.

Lemma getUpcomingAppointments_ok (evs : list CalendarEvent.t) (n : Z) (w : World) :
  (forall k, tokens_valid env k = true) ->
  (forall k, events_list env k = Some evs) ->
  getUpcomingAppointments env n w
  = (Return evs, Nat.iter 4 tick (log_call (CallGetUpcomingAppointments n) w)).
Proof.
  intros Ht Hl.
  unfold getUpcomingAppointments, bind, enter, try_catch, ensureValidTokens,
    Date_now, provider.
  rewrite Ht, Hl. reflexivity.
Qed.

Lemma sync_body_run (evs : list CalendarEvent.t) (w1 : World) :
  (forall k, tokens_valid env k = true) ->
  (forall k, events_list env k = Some evs) ->
  let m := dbAppointmentMap_of (select_scheduled_with_event w1) [] in
  let cm := calendarEventMap_of evs [] in
  let w2 := Nat.iter 4 tick (log_call (CallGetUpcomingAppointments 30) (tick w1)) in
  sync_body env w1
  = (Return tt,
     after (for_of (queued_updates env cm m)
                   (fun item => swallow (push_update env item)))
           (after (for_of (queued_creates env cm m (steps w2))
                          (fun x => swallow (recreate env x)))
                  (Nat.iter (misses cm m) tick w2))).
Proof.
  intros Htok Hlist m cm w2. unfold sync_body. unfold bind at 1.
  rewrite (db_query_ok env _ w1 (sqlite_works _)).
  unfold bind at 1. rewrite (getUpcomingAppointments_ok evs 30 _ Htok Hlist).
  unfold reconcile, bind. rewrite (compare_fold env). cbn [fst snd app].
  rewrite applySyncFixes_run. reflexivity.
Qed.

Lemma updates_for_app e l1 l2 :
  updates_for e (l1 ++ l2) = (updates_for e l1 ++ updates_for e l2)%list.
Proof. apply filter_app. Qed.

Lemma updates_for_none e tr :
  Forall (fun c => match c with CallUpdateAppointment e' _ => e' <> e | _ => True end) tr ->
  updates_for e tr = [].
Proof.
  induction 1 as [|c tr Hc _ IH]; [reflexivity|]. cbn.
  destruct c; try exact IH.
  destruct (String.eqb_spec eventId e); [contradiction | exact IH].
Qed.

(** Among the queued updates, those for event [e]: the one of the record
    the map holds for [e], if its time differs. *)
Lemma updates_for_queued (w : World) (e : string) (a : Appointment.t)
  (ev : CalendarEvent.t) cm m :
  (forall k ev', Map_get k cm = Some ev' -> CalendarEvent.id ev' = k) ->
  NoDup (map fst m) ->
  In (e, a) m ->
  Map_get e cm = Some ev ->
  updates_for e (map (update_call w) (queued_updates env cm m))
  = if differs env a ev then [update_call w (a, ev)] else [].
Proof.
  intros Hid. induction m as [|[k x] m IH]; intros Hnd Hin Hget; [destruct Hin|].
  inversion Hnd as [|? ? Hk Hnd']; subst.
  unfold queued_updates. cbn [flat_map fst snd]. fold (queued_updates env cm m).
  rewrite map_app, updates_for_app.
  destruct Hin as [Hin|Hin].
  - injection Hin as -> ->. rewrite Hget.
    replace (updates_for e (map (update_call w) (queued_updates env cm m))) with (@nil Call).
    + rewrite app_nil_r. destruct (differs env a ev); [|reflexivity].
      cbn. rewrite (Hid _ _ Hget), String.eqb_refl. reflexivity.
    + symmetry. apply updates_for_none. rewrite Forall_forall.
      intros c Hc. apply in_map_iff in Hc. destruct Hc as [[a' ev'] [<- Hq]].
      cbn. apply queued_updates_from in Hq. destruct Hq as [k' [Hk' Hg']].
      rewrite (Hid _ _ Hg'). intros ->. apply Hk.
      apply in_map_iff. exists (e, a'). split; [reflexivity | exact Hk'].
  - rewrite (IH Hnd' Hin Hget).
    replace (updates_for e _) with (@nil Call); [reflexivity|].
    symmetry. apply updates_for_none. rewrite Forall_forall.
    intros c Hc. apply in_map_iff in Hc. destruct Hc as [[a' ev'] [<- Hq]].
    cbn. destruct (Map_get k cm) as [ev0|] eqn:G; [|destruct Hq].
    destruct (differs env x ev0); [|destruct Hq]. destruct Hq as [Hq|[]].
    injection Hq as <- <-. rewrite (Hid _ _ G). intros ->. apply Hk.
    apply in_map_iff. exists (e, a). split; [reflexivity | exact Hin].
Qed.

(** C6.  A scheduled record [a] whose event id [e] is listed, the listed
    event being [ev]: when the record's date and time, read in the
    configured zone, and the event's start are different instants, the pass
    calls [updateAppointment] on [e] exactly once, with the record's date,
    time and duration; when they are the same instant it makes no such
    call.  In both cases the record itself is left as it was. *)
Theorem time_mismatch_pushes_local_time
  (w : World) (a : Appointment.t) (e : string)
  (evs : list CalendarEvent.t) (ev : CalendarEvent.t) (t_local t_event : Z) :
  outcome (start env) w = Return true ->
  (forall n, tokens_valid env n = true) ->
  (forall n, events_list env n = Some evs) ->
  NoDup (map Appointment.id (appointments w)) ->
  (forall b, In b (appointments w) -> Appointment.google_event_id b = Some e -> b = a) ->
  In a (appointments w) ->
  Appointment.status a = "scheduled"%string ->
  Appointment.google_event_id a = Some e ->
  e <> EmptyString ->
  Map_get e (calendarEventMap_of evs []) = Some ev ->
  moment_tz env (iso_local (Appointment.appointment_date a)
                           (Appointment.appointment_time a)) = Some t_local ->
  moment env (CalendarEvent.start ev) = Some t_event ->
  exists tr,
    calls (after (syncAppointments env) w) = (calls w ++ tr)%list
    /\ updates_for e tr
       = (if t_local =? t_event then []
          else [CallUpdateAppointment e
                  (appointment_data a
                     (select_patient (Appointment.patient_phone a) w))])
    /\ (forall d, In (CallUpdateAppointment e d) tr ->
                  AppointmentData.date d = Appointment.appointment_date a
                  /\ AppointmentData.time d = Appointment.appointment_time a
                  /\ AppointmentData.duration d = Appointment.duration_minutes a)
    /\ In a (appointments (after (syncAppointments env) w)).
Proof.
  intros Hstart Htok Hlist Hids Huniq Hin Hstatus Hgeid Hne Hev Hlocal Hevent.
  rewrite syncAppointments_after.
  destruct (start_cases env w) as [E|[s [E _]]];
    [unfold outcome in Hstart; rewrite E in Hstart; discriminate|].
  rewrite E. set (w1 := set_sync s (tick (tick w))).
  set (rows := select_scheduled_with_event w).
  set (m := dbAppointmentMap_of rows []).
  set (cm := calendarEventMap_of evs []).
  assert (Hrows : In a rows).
  { unfold rows, select_scheduled_with_event. apply filter_In. split; [exact Hin|].
    rewrite Hstatus, Hgeid. reflexivity. }
  assert (Hm : Map_get e m = Some a).
  { apply dbAppointmentMap_get; [exact Hne | exact Hgeid | | left; exact Hrows].
    intros b Hb. apply Huniq.
    unfold rows, select_scheduled_with_event in Hb. apply filter_In in Hb. apply Hb. }
  assert (Hnd : NoDup (map fst m)) by (apply dbAppointmentMap_NoDup; constructor).
  (* the run of the body *)
  pose proof (sync_body_run evs w1 Htok Hlist) as Hrun. cbv zeta in Hrun.
  change (select_scheduled_with_event w1) with rows in Hrun. fold m cm in Hrun.
  apply (f_equal snd) in Hrun. cbn [snd] in Hrun.
  change (snd (sync_body env w1)) with (after (sync_body env) w1) in Hrun.
  rewrite Hrun. clear Hrun.
  match goal with
  | |- context [Nat.iter (misses ?c ?mm) tick ?x] =>
    set (w3 := Nat.iter (misses c mm) tick x)
  end.
  set (tc := queued_creates env cm m (steps _)).
  set (tu := queued_updates env cm m).
  destruct (iter_tick_fields (misses cm m)
              (Nat.iter 4 tick (log_call (CallGetUpcomingAppointments 30) (tick w1))))
    as [_ [P3 [A3 C3]]].
  fold w3 in P3, A3, C3. cbn in P3, A3, C3.
  (* the loop over toCreateInCalendar *)
  pose proof (keeps_for_of
                (fun c => match c with CallUpdateAppointment _ _ => False | _ => True end)
                (fun z => exists x, In x tc /\ Appointment.id x = z)
                tc (fun x => swallow (recreate env x))) as F4.
  assert (F4' : frame (fun c => match c with
                                | CallUpdateAppointment _ _ => False | _ => True end)
                      (fun z => exists x, In x tc /\ Appointment.id x = z)
                      w3 (after (for_of tc (fun x => swallow (recreate env x))) w3)).
  { apply F4. intros x Hx. apply keeps_swallow, keeps_recreate.
    - intros d. exact I.
    - exists x. split; [exact Hx | reflexivity]. }
  clear F4. set (w4 := after (for_of tc _) w3) in *.
  destruct (frame_calls _ _ _ _ F4') as [trc [C4 Ftrc]].
  (* the loop over toUpdateInCalendar *)
  destruct (update_loop_exact tu w4) as [C5 [_ [_ A5]]].
  set (w5 := after (for_of tu _) w4) in *.
  exists ([CallGetUpcomingAppointments 30] ++ trc ++ map (update_call w4) tu)%list.
  assert (Hupd : forall it, update_call w4 it = update_call w it).
  { intros it. unfold update_call, select_patient.
    rewrite (frame_patients _ _ _ _ F4'), P3. reflexivity. }
  assert (Hdiff : differs env a ev = negb (t_local =? t_event)).
  { unfold differs. rewrite Hlocal, Hevent. reflexivity. }
  split; [|split; [|split]].
  - change (calls (after stop w5)) with (calls w5).
    rewrite C5, C4, C3, <- !app_assoc. reflexivity.
  - rewrite !updates_for_app. cbn [updates_for filter app].
    rewrite (updates_for_none e trc).
    + cbn [app]. rewrite (map_ext _ _ Hupd). unfold tu.
      rewrite (updates_for_queued w e a ev cm m); try assumption.
      * rewrite Hdiff. unfold update_call. cbn [fst snd].
        rewrite (calendarEventMap_get_id _ _ _ Hev).
        destruct (t_local =? t_event); reflexivity.
      * intros k ev'. apply calendarEventMap_get_id.
      * apply Map_get_Some_In, Hm.
    + eapply Forall_impl; [|exact Ftrc]. intros c Hc. destruct c; try exact I.
      destruct Hc.
  - intros d Hd. apply in_app_or in Hd. destruct Hd as [[Hd|[]]|Hd]; [discriminate|].
    apply in_app_or in Hd. destruct Hd as [Hd|Hd].
    + rewrite Forall_forall in Ftrc. destruct (Ftrc _ Hd).
    + apply in_map_iff in Hd. destruct Hd as [[a' ev'] [Hc Hq]].
      unfold update_call in Hc. cbn [fst snd] in Hc. injection Hc as He <-.
      apply queued_updates_from in Hq. destruct Hq as [k [Hk Hg]].
      pose proof (calendarEventMap_get_id _ _ _ Hg) as Hk'. rewrite He in Hk'. subst k.
      pose proof (Map_get_Some_In _ _ _ Hm) as Hma.
      assert (a' = a).
      { apply dbAppointmentMap_entries in Hk. destruct Hk as [[]|[Hk1 Hk2]].
        apply Huniq; [|exact Hk2].
        unfold rows, select_scheduled_with_event in Hk1.
        apply filter_In in Hk1. apply Hk1. }
      subst a'. repeat split.
  - change (appointments (after stop w5)) with (appointments w5).
    rewrite A5. apply (frame_rows _ _ _ _ F4').
    + rewrite A3. exact Hin.
    + intros [x [Hx Hxa]]. unfold tc in Hx.
      apply queued_creates_from in Hx. destruct Hx as [k [Hk Hmiss]].
      apply dbAppointmentMap_entries in Hk. destruct Hk as [[]|[Hk1 Hk2]].
      assert (x = a).
      { unfold rows, select_scheduled_with_event in Hk1. apply filter_In in Hk1.
        destruct Hk1 as [Hk1 _].
        clear - Hids Hin Hk1 Hxa.
        induction (appointments w) as [|y l IH]; [destruct Hin|].
        cbn in Hids. inversion Hids as [|? ? Hn Hd]; subst.
        destruct Hin as [->|Hin], Hk1 as [->|Hk1].
        - reflexivity.
        - exfalso. apply Hn. rewrite <- Hxa. apply in_map, Hk1.
        - exfalso. apply Hn. rewrite Hxa. apply in_map, Hin.
        - apply IH; assumption. }
      subst x. rewrite Hgeid in Hk2. injection Hk2 as <-.
      fold cm in Hev. congruence.
Qed.

End Mismatch.

(** The example of the specification: a record at 2025-03-01 10:00 whose
    event starts at 10:30, and an event no record refers to.  The pass runs
    on 2025-02-28 at noon. *)
Definition feb28_noon : Z := 1740724200000.

Definition march_record : Appointment.t :=
  row 7 "9876543210" "2025-03-01" "10:00" "scheduled" (Some "evt-1")
      (feb28_noon - 3 * 3600000).

Definition march_listing : list CalendarEvent.t :=
  [event "evt-1" "2025-03-01T10:30:00+05:30";
   event "evt-orphan" "2025-03-02T15:00:00+05:30"].

Lemma time_mismatch_pushes_local_time_witness :
  exists tr,
    calls (after (syncAppointments (quiet_env feb28_noon march_listing))
                 (idle_world [march_record]))
    = ([] ++ tr)%list
    /\ updates_for "evt-1" tr
       = [CallUpdateAppointment "evt-1"
            {| AppointmentData.patientName := "Patient";
               AppointmentData.patientPhone := "9876543210";
               AppointmentData.date := "2025-03-01";
               AppointmentData.time := "10:00";
               AppointmentData.duration := 30 |}]
    /\ (forall d, In (CallUpdateAppointment "evt-1" d) tr ->
                  AppointmentData.date d = "2025-03-01"%string
                  /\ AppointmentData.time d = "10:00"%string
                  /\ AppointmentData.duration d = 30)
    /\ In march_record
          (appointments
             (after (syncAppointments (quiet_env feb28_noon march_listing))
                    (idle_world [march_record]))).
Proof.
  apply (time_mismatch_pushes_local_time
           (quiet_env feb28_noon march_listing) (fun _ => eq_refl)
           (idle_world [march_record]) march_record "evt-1" march_listing
           (event "evt-1" "2025-03-01T10:30:00+05:30")
           1740803400000 1740805200000).
  - reflexivity.
  - reflexivity.
  - reflexivity.
  - constructor; [intros [] | constructor].
  - intros b [<-|[]] _. reflexivity.
  - left. reflexivity.
  - reflexivity.
  - reflexivity.
  - discriminate.
  - reflexivity.
  - reflexivity.
  - reflexivity.
Defined.

Lemma orphan_event_survives_witness :
  exists tr,
    calls (after (syncAppointments (quiet_env feb28_noon march_listing))
                 (idle_world [march_record]))
    = ([] ++ tr)%list
    /\ (forall d, ~ In (CallUpdateAppointment "evt-orphan" d) tr)
    /\ (forall e', ~ In (CallCancelAppointment e') tr)
    /\ map Appointment.id
         (appointments
            (after (syncAppointments (quiet_env feb28_noon march_listing))
                   (idle_world [march_record])))
       = [7].
Proof.
  apply (orphan_event_survives (quiet_env feb28_noon march_listing)
           (idle_world [march_record]) "evt-orphan").
  reflexivity.
Defined.

(** The whole pass on that input: one listing, one update, no write. *)
Example march_pass :
  calls (after (syncAppointments (quiet_env feb28_noon march_listing))
               (idle_world [march_record]))
  = [CallGetUpcomingAppointments 30;
     CallUpdateAppointment "evt-1"
       {| AppointmentData.patientName := "Patient";
          AppointmentData.patientPhone := "9876543210";
          AppointmentData.date := "2025-03-01";
          AppointmentData.time := "10:00";
          AppointmentData.duration := 30 |}]
  /\ appointments (after (syncAppointments (quiet_env feb28_noon march_listing))
                         (idle_world [march_record]))
     = [march_record].
Proof. vm_compute. split; reflexivity. Qed.

(** ** The calendar sweep when every call succeeds *)

Lemma push_slot_perm key event timeSlots :
  Permutation (List.concat (map snd (push_slot key event timeSlots)))
              (event :: List.concat (map snd timeSlots)).
Proof.
  induction timeSlots as [|[k slotEvents] rest IH]; cbn.
  - apply Permutation_refl.
  - destruct (String.eqb k key); cbn.
    + rewrite <- app_assoc. cbn. apply Permutation_sym, Permutation_middle.
    + eapply Permutation_trans; [apply Permutation_app_head, IH|].
      apply Permutation_sym, Permutation_middle.
Qed.

Lemma group_events_perm events : forall timeSlots grouped,
  group_events events timeSlots = Some grouped ->
  Permutation (List.concat (map snd grouped)) (List.concat (map snd timeSlots) ++ events).
Proof.
  induction events as [|event events IH]; intros timeSlots grouped;
    cbn [group_events].
  - intros E. injection E as <-. rewrite app_nil_r. apply Permutation_refl.
  - destruct (slot_key event) as [key|]; [|discriminate].
    destruct (Set_has key prototype_keys); [discriminate|].
    intros E. apply IH in E. eapply Permutation_trans; [exact E|].
    eapply Permutation_trans; [apply Permutation_app_tail, push_slot_perm|].
    cbn. apply Permutation_middle.
Qed.

Section CalendarSweep.

Variable env : Env.

Hypothesis authenticated : forall n, authenticates env n = true.
Hypothesis sqlite_works : forall n, sqlite_fails env n = false.
Hypothesis tokens_work : forall n, tokens_valid env n = true.
Hypothesis deletes_accepted : forall n, events_delete env n = true.

Definition cancel_call (e : CalendarEvent.t) : Call :=
  CallCancelAppointment (CalendarEvent.id e).

(** The deletes the sweep asks for in one slot. *)
Definition deletions (validEventIds : list string)
  (entry : string * list CalendarEvent.t) : list Call :=
  let slotEvents := snd entry in
  let valid e := Set_has (CalendarEvent.id e) validEventIds in
  if (List.length slotEvents <=? 1)%nat then []
  else if existsb valid slotEvents
       then (map cancel_call (filter (fun e => negb (valid e)) slotEvents)
             ++ map cancel_call (tl (filter valid slotEvents)))%list
       else map cancel_call (tl slotEvents).

Lemma cancelAppointment_ok (eventId : string) (w : World) :
  exists w', cancelAppointment env eventId w = (Return true, w')
             /\ calls w' = (calls w ++ [CallCancelAppointment eventId])%list.
Proof.
  unfold cancelAppointment, bind, enter, try_catch, ensureValidTokens, provider,
    accepted, ret.
  rewrite tokens_work, deletes_accepted. eexists. split; reflexivity.
Qed.

Lemma cancel_each_exact events : forall total w,
  exists w', cancel_each env events total w
             = (Return (List.length events + total)%nat, w')
             /\ calls w' = (calls w ++ map cancel_call events)%list.
Proof.
  unfold cancel_each.
  induction events as [|e events IH]; intros total w; cbn [fold_of map List.length].
  - exists w. split; [reflexivity | now rewrite app_nil_r].
  - unfold bind at 1. unfold bind at 1.
    destruct (cancelAppointment_ok (CalendarEvent.id e) w) as [w1 [E C]].
    rewrite E. unfold ret at 1.
    destruct (IH (Datatypes.S total) w1) as [w2 [E2 C2]]. exists w2. split.
    + rewrite E2. do 2 f_equal. lia.
    + rewrite C2, C, <- app_assoc. reflexivity.
Qed.

Lemma positive_length_existsb {A} (f : A -> bool) (l : list A) :
  (0 <? List.length (filter f l))%nat = existsb f l.
Proof.
  induction l as [|x l IH]; [reflexivity|]. cbn.
  destruct (f x); cbn; [reflexivity | exact IH].
Qed.

Lemma clean_slot_exact validEventIds total entry (w : World) :
  exists total' w',
    clean_slot env validEventIds total entry w = (Return total', w')
    /\ calls w' = (calls w ++ deletions validEventIds entry)%list.
Proof.
  unfold clean_slot, deletions.
  destruct (List.length (snd entry) <=? 1)%nat.
  - exists total, w. split; [reflexivity | now rewrite app_nil_r].
  - rewrite positive_length_existsb.
    destruct (existsb _ (snd entry)).
    + unfold bind.
      destruct (cancel_each_exact
                  (filter (fun e => negb (Set_has (CalendarEvent.id e) validEventIds))
                          (snd entry)) total w) as [w1 [E1 C1]].
      rewrite E1.
      destruct (1 <? List.length _)%nat eqn:L.
      * match goal with
        | |- context [cancel_each env ?l ?t w1] =>
          destruct (cancel_each_exact l t w1) as [w2 [E2 C2]]
        end.
        rewrite E2. eexists _, w2. split; [reflexivity|].
        rewrite C2, C1, <- app_assoc. reflexivity.
      * eexists _, w1. split; [reflexivity|]. rewrite C1. f_equal.
        destruct (filter (fun e => Set_has (CalendarEvent.id e) validEventIds)
                         (snd entry)) as [|v [|v' vs]];
          [rewrite app_nil_r; reflexivity | rewrite app_nil_r; reflexivity
          | discriminate].
    + destruct (cancel_each_exact (tl (snd entry)) total w) as [w1 [E1 C1]].
      eexists _, w1. split; [exact E1 | exact C1].
Qed.

Lemma sweep_fold_exact validEventIds timeSlots : forall total w,
  exists total' w',
    fold_of timeSlots total (clean_slot env validEventIds) w = (Return total', w')
    /\ calls w' = (calls w ++ flat_map (deletions validEventIds) timeSlots)%list.
Proof.
  induction timeSlots as [|entry timeSlots IH]; intros total w; cbn [fold_of flat_map].
  - exists total, w. split; [reflexivity | now rewrite app_nil_r].
  - unfold bind.
    destruct (clean_slot_exact validEventIds total entry w) as [t1 [w1 [E1 C1]]].
    rewrite E1. destruct (IH t1 w1) as [t2 [w2 [E2 C2]]].
    exists t2, w2. split; [exact E2|]. rewrite C2, C1, <- app_assoc. reflexivity.
Qed.

Lemma cleanCalendarDuplicates_calls (events : list CalendarEvent.t) timeSlots
  (w : World) :
  (forall n, events_list env n = Some events) ->
  group_events events [] = Some timeSlots ->
  calls (after (cleanCalendarDuplicates env) w)
  = (calls w
     ++ [CallAuthenticate; CallGetUpcomingAppointments 30]
     ++ flat_map (deletions (valid_ids (select_scheduled_with_event w))) timeSlots)%list.
Proof.
  intros Hlist Hgroup.
  unfold after, cleanCalendarDuplicates, try_catch. unfold bind at 1.
  unfold authenticate, bind at 1, enter. rewrite authenticated. cbn [log_call].
  unfold bind at 1. rewrite (db_query_ok env _ _ (sqlite_works _)).
  unfold bind at 1.
  rewrite (getUpcomingAppointments_ok env events 30 _ tokens_work Hlist).
  rewrite Hgroup.
  match goal with
  | |- context [fold_of timeSlots 0%nat (clean_slot env ?v) ?x] =>
    destruct (sweep_fold_exact v timeSlots 0%nat x) as [t [w' [E C]]]
  end.
  rewrite E. cbn [snd]. rewrite C.
  change (calls (Nat.iter 4 tick
                   (log_call (CallGetUpcomingAppointments 30)
                      (tick (tick (log_call CallAuthenticate w))))))
    with ((calls w ++ [CallAuthenticate]) ++ [CallGetUpcomingAppointments 30])%list.
  rewrite <- !app_assoc. reflexivity.
Qed.

Lemma deletions_within validEventIds entry (x : string) :
  In (CallCancelAppointment x) (deletions validEventIds entry) ->
  In x (map CalendarEvent.id (snd entry)).
Proof.
  unfold deletions. destruct (List.length (snd entry) <=? 1)%nat; [intros []|].
  assert (Htl : forall l : list CalendarEvent.t,
             In (CallCancelAppointment x) (map cancel_call (tl l)) ->
             In x (map CalendarEvent.id l)).
  { intros l H. apply in_map_iff in H. destruct H as [e [He Hin]].
    injection He as <-. apply in_map. destruct l; [destruct Hin | right; exact Hin]. }
  destruct (existsb _ (snd entry)).
  - intros H. apply in_app_or in H. destruct H as [H|H].
    + apply in_map_iff in H. destruct H as [e [He Hin]]. injection He as <-.
      apply in_map. apply filter_In in Hin. apply Hin.
    + apply Htl in H. apply in_map_iff in H. destruct H as [e [<- Hin]].
      apply in_map. apply filter_In in Hin. apply Hin.
  - apply Htl.
Qed.

Lemma unscheduled_is_invalid (w : World) (e : string) :
  (forall a, In a (appointments w) ->
             Appointment.google_event_id a = Some e ->
             Appointment.status a <> "scheduled"%string) ->
  Set_has e (valid_ids (select_scheduled_with_event w)) = false.
Proof.
  intros H. unfold Set_has.
  destruct (existsb _ _) eqn:E; [|reflexivity]. exfalso.
  apply existsb_exists in E. destruct E as [x [Hx Heq]].
  apply String.eqb_eq in Heq. subst x.
  unfold valid_ids in Hx. apply in_flat_map in Hx. destruct Hx as [a [Ha Hg]].
  unfold select_scheduled_with_event in Ha. apply filter_In in Ha.
  destruct Ha as [Ha Hs]. apply andb_prop in Hs. destruct Hs as [Hs _].
  apply String.eqb_eq in Hs.
  destruct (Appointment.google_event_id a) as [g|] eqn:G; [|destruct Hg].
  destruct Hg as [<-|[]]. exact (H a Ha G Hs).
Qed.

(** C10, amended.  The booking check counts [scheduled], [confirmed] and
    [pending] records, the sweep and the reconciliation read [scheduled]
    records only.  So an event [ev] that only records of another status
    refer to is classified invalid.  In a slot of more than one event, when
    every call succeeds, the sweep deletes it if the slot also holds a valid
    event or if it is not the slot's first event; if it is the first event
    of a slot without valid event it is the one the sweep keeps. *)
Theorem unscheduled_event_in_sweep
  (w : World) (events : list CalendarEvent.t)
  (timeSlots : list (string * list CalendarEvent.t))
  (key : string) (slotEvents : list CalendarEvent.t) (ev : CalendarEvent.t) :
  (forall n, events_list env n = Some events) ->
  group_events events [] = Some timeSlots ->
  In (key, slotEvents) timeSlots ->
  (1 < List.length slotEvents)%nat ->
  In ev slotEvents ->
  (forall a, In a (appointments w) ->
             Appointment.google_event_id a = Some (CalendarEvent.id ev) ->
             Appointment.status a <> "scheduled"%string) ->
  let validEventIds := valid_ids (select_scheduled_with_event w) in
  let has_valid :=
    existsb (fun e => Set_has (CalendarEvent.id e) validEventIds) slotEvents in
  (forall a, Appointment.status a = "confirmed"%string
             \/ Appointment.status a = "pending"%string ->
             status_in active_statuses a = true
             /\ ~ In a (select_scheduled_with_event w))
  /\ Set_has (CalendarEvent.id ev) validEventIds = false
  /\ exists tr,
       calls (after (cleanCalendarDuplicates env) w) = (calls w ++ tr)%list
       /\ (has_valid = true \/ In ev (tl slotEvents) ->
           In (CallCancelAppointment (CalendarEvent.id ev)) tr)
       /\ (has_valid = false -> hd_error slotEvents = Some ev ->
           NoDup (map CalendarEvent.id events) ->
           ~ In (CallCancelAppointment (CalendarEvent.id ev)) tr).
Proof.
  intros Hlist Hgroup Hslot Hlen Hev Hunsched validEventIds has_valid.
  pose proof (unscheduled_is_invalid w _ Hunsched) as Hinvalid.
  fold validEventIds in Hinvalid.
  split; [|split; [exact Hinvalid|]].
  { intros a Ha. split.
    - unfold status_in, active_statuses.
      destruct Ha as [-> | ->]; reflexivity.
    - unfold select_scheduled_with_event. rewrite filter_In. intros [_ Hs].
      apply andb_prop in Hs. destruct Hs as [Hs _]. apply String.eqb_eq in Hs.
      destruct Ha as [Ha|Ha]; rewrite Ha in Hs; discriminate. }
  eexists. split; [apply (cleanCalendarDuplicates_calls events timeSlots w Hlist Hgroup)|].
  fold validEventIds.
  assert (Hown : deletions validEventIds (key, slotEvents)
                 = if has_valid
                   then (map cancel_call
                           (filter (fun e => negb (Set_has (CalendarEvent.id e)
                                                           validEventIds)) slotEvents)
                         ++ map cancel_call
                              (tl (filter (fun e => Set_has (CalendarEvent.id e)
                                                            validEventIds) slotEvents)))%list
                   else map cancel_call (tl slotEvents)).
  { unfold deletions. cbn [snd].
    destruct (Nat.leb_spec (List.length slotEvents) 1); [lia | reflexivity]. }
  split.
  - intros Hcase. right. right. apply in_flat_map. exists (key, slotEvents).
    split; [exact Hslot|]. rewrite Hown.
    destruct has_valid.
    + apply in_or_app. left. apply (in_map cancel_call). apply filter_In.
      split; [exact Hev | rewrite Hinvalid; reflexivity].
    + destruct Hcase as [Hcase|Hcase]; [discriminate|].
      apply (in_map cancel_call), Hcase.
  - intros Hnone Hhead Hnodup Hin.
    destruct Hin as [Hin|[Hin|Hin]]; [discriminate | discriminate|].
    cbn [app] in Hin. rewrite Hnone in Hown.
    destruct slotEvents as [|first rest]; [discriminate|].
    cbn in Hhead. injection Hhead as ->. cbn [tl] in Hown.
    pose proof (group_events_perm _ _ _ Hgroup) as Hperm. cbn [map List.concat app] in Hperm.
    assert (Hnd : NoDup (map CalendarEvent.id (List.concat (map snd timeSlots)))).
    { eapply Permutation_NoDup; [|exact Hnodup].
      apply Permutation_map, Permutation_sym, Hperm. }
    destruct (in_split _ _ Hslot) as [before [after_ Hsplit]].
    rewrite Hsplit in Hnd, Hin.
    rewrite map_app, concat_app, map_app in Hnd. cbn [map List.concat snd] in Hnd.
    rewrite !map_app in Hnd. cbn [map] in Hnd.
    apply NoDup_remove_2 in Hnd.
    apply Hnd. rewrite flat_map_app in Hin. cbn [flat_map] in Hin.
    apply in_app_or in Hin. destruct Hin as [Hin|Hin].
    + apply in_or_app. left.
      apply in_flat_map in Hin. destruct Hin as [entry [He Hd]].
      apply deletions_within in Hd.
      rewrite concat_map, <- flat_map_concat_map. apply in_flat_map.
      exists (snd entry). split; [apply in_map, He | exact Hd].
    + apply in_or_app. right. apply in_app_or in Hin. destruct Hin as [Hin|Hin].
      * rewrite Hown in Hin. apply in_or_app. left.
        apply in_map_iff in Hin. destruct Hin as [e [He Hin]].
        injection He as <-. apply in_map, Hin.
      * apply in_or_app. right.
        apply in_flat_map in Hin. destruct Hin as [entry [He Hd]].
        apply deletions_within in Hd.
        rewrite concat_map, <- flat_map_concat_map. apply in_flat_map.
        exists (snd entry). split; [apply in_map, He | exact Hd].
Qed.

End CalendarSweep.

(** ** The calendar sweep when the provider rejects a delete *)

Section FailedDelete.

Variable env : Env.

Hypothesis authenticated : forall n, authenticates env n = true.
Hypothesis sqlite_works : forall n, sqlite_fails env n = false.
Hypothesis tokens_work : forall n, tokens_valid env n = true.

Lemma cancelAppointment_rejected (eventId : string) (w : World) :
  events_delete env (S (steps w)) = false ->
  exists w', cancelAppointment env eventId w = (Throw ProviderError, w')
             /\ calls w' = (calls w ++ [CallCancelAppointment eventId])%list.
Proof.
  intros Hgone.
  unfold cancelAppointment, bind, enter, try_catch, ensureValidTokens, provider,
    accepted, throw.
  rewrite tokens_work. cbn [log_call tick steps]. rewrite Hgone.
  eexists. split; reflexivity.
Qed.

Lemma cancel_each_rejected e rest (total : nat) (w : World) :
  events_delete env (S (steps w)) = false ->
  exists w', cancel_each env (e :: rest) total w = (Throw ProviderError, w')
             /\ calls w' = (calls w ++ [cancel_call e])%list.
Proof.
  intros Hgone. unfold cancel_each. cbn [fold_of]. unfold bind.
  destruct (cancelAppointment_rejected (CalendarEvent.id e) w Hgone) as [w' [E C]].
  rewrite E. exists w'. split; [reflexivity | exact C].
Qed.

Lemma map_cancel_nil (l : list CalendarEvent.t) : map cancel_call l = [] -> l = [].
Proof. destruct l; [reflexivity | discriminate]. Qed.

(** A slot in which nothing is to be deleted costs no request. *)
Lemma clean_slot_idle validEventIds (total : nat) entry (w : World) :
  deletions validEventIds entry = [] ->
  exists total', clean_slot env validEventIds total entry w = (Return total', w).
Proof.
  unfold clean_slot, deletions.
  destruct (List.length (snd entry) <=? 1)%nat; [intros _; eexists; reflexivity|].
  rewrite positive_length_existsb.
  destruct (existsb _ (snd entry)).
  - intros H. apply app_eq_nil in H. destruct H as [H1 H2].
    apply map_cancel_nil in H1, H2. rewrite H1. unfold bind. cbn [cancel_each fold_of].
    unfold cancel_each, ret. cbn [fold_of].
    destruct (1 <? _)%nat; [rewrite H2|]; eexists; reflexivity.
  - intros H. apply map_cancel_nil in H. rewrite H. eexists. reflexivity.
Qed.

Lemma clean_slot_rejected validEventIds (total : nat) entry (w : World) first more :
  deletions validEventIds entry = first :: more ->
  events_delete env (S (steps w)) = false ->
  exists w', clean_slot env validEventIds total entry w = (Throw ProviderError, w')
             /\ calls w' = (calls w ++ [first])%list.
Proof.
  unfold clean_slot, deletions. intros H Hgone.
  destruct (List.length (snd entry) <=? 1)%nat; [discriminate|].
  rewrite positive_length_existsb.
  destruct (existsb _ (snd entry)).
  - unfold bind.
    destruct (filter (fun e => negb _) (snd entry)) as [|e invalid].
    + cbn [map app] in H. unfold cancel_each at 1. cbn [fold_of]. unfold ret at 1.
      destruct (filter _ (snd entry)) as [|v [|v' valid]]; try discriminate.
      cbn [tl map] in H. injection H as <- _. cbn [List.length tl].
      destruct (cancel_each_rejected v' valid total w Hgone) as [w' [E C]].
      exists w'. split; [exact E | exact C].
    + cbn [map app] in H. injection H as <- _.
      destruct (cancel_each_rejected e invalid total w Hgone) as [w' [E C]].
      rewrite E. exists w'. split; [reflexivity | exact C].
  - destruct (tl (snd entry)) as [|e others]; [discriminate|].
    cbn [map] in H. injection H as <- _.
    apply cancel_each_rejected, Hgone.
Qed.

Lemma sweep_fold_rejected validEventIds timeSlots first more :
  forall (total : nat) (w : World),
  flat_map (deletions validEventIds) timeSlots = first :: more ->
  events_delete env (S (steps w)) = false ->
  exists w', fold_of timeSlots total (clean_slot env validEventIds) w
             = (Throw ProviderError, w')
             /\ calls w' = (calls w ++ [first])%list.
Proof.
  induction timeSlots as [|entry timeSlots IH]; intros total w H Hgone;
    [discriminate|].
  cbn [flat_map] in H. cbn [fold_of]. unfold bind.
  destruct (deletions validEventIds entry) as [|d ds] eqn:D.
  - destruct (clean_slot_idle validEventIds total entry w D) as [t' E]. rewrite E.
    apply IH; assumption.
  - cbn [app] in H. injection H as -> _.
    destruct (clean_slot_rejected validEventIds total entry w first ds D Hgone)
      as [w' [E C]].
    rewrite E. exists w'. split; [reflexivity | exact C].
Qed.

(** C5 (as the code behaves).  [cancelAppointment] rethrows what the
    provider answers and the sweep has no handler around a single delete.
    Let [first :: more] be the deletes the sweep is to ask for.  When the
    provider rejects the first one (the event is gone already), the sweep
    asks for none of [more], neither in that slot nor in the following
    ones, and reports 0. *)
Theorem calendar_sweep_stops_at_failed_delete
  (w : World) (events : list CalendarEvent.t)
  (timeSlots : list (string * list CalendarEvent.t)) (first : Call)
  (more : list Call) :
  (forall n, events_list env n = Some events) ->
  group_events events [] = Some timeSlots ->
  flat_map (deletions (valid_ids (select_scheduled_with_event w))) timeSlots
  = first :: more ->
  events_delete env (steps w + 7) = false ->
  outcome (cleanCalendarDuplicates env) w = Return 0%nat
  /\ calls (after (cleanCalendarDuplicates env) w)
     = (calls w ++ [CallAuthenticate; CallGetUpcomingAppointments 30; first])%list.
Proof.
  intros Hlist Hgroup Hdel Hgone.
  assert (Hrun : exists w',
             cleanCalendarDuplicates env w = (Return 0%nat, w')
             /\ calls w'
                = (calls w ++ [CallAuthenticate; CallGetUpcomingAppointments 30; first])%list).
  { unfold cleanCalendarDuplicates, try_catch. unfold bind at 1.
    unfold authenticate, bind at 1, enter. rewrite authenticated. cbn [log_call].
    unfold bind at 1. rewrite (db_query_ok env _ _ (sqlite_works _)).
    unfold bind at 1.
    rewrite (getUpcomingAppointments_ok env events 30 _ tokens_work Hlist).
    rewrite Hgroup.
    match goal with
    | |- context [fold_of timeSlots 0%nat (clean_slot env ?v) ?x] =>
      destruct (sweep_fold_rejected v timeSlots first more 0%nat x Hdel) as [w' [E C]]
    end.
    { cbn [steps tick log_call Nat.iter nat_rect].
      replace (S (S (S (S (S (S (S (steps w)))))))) with (steps w + 7)%nat by lia.
      exact Hgone. }
    rewrite E. exists w'. split; [reflexivity|]. rewrite C.
    change (calls (Nat.iter 4 tick
                     (log_call (CallGetUpcomingAppointments 30)
                        (tick (tick (log_call CallAuthenticate w))))))
      with ((calls w ++ [CallAuthenticate]) ++ [CallGetUpcomingAppointments 30])%list.
    rewrite <- !app_assoc. reflexivity. }
  destruct Hrun as [w' [E C]]. unfold outcome, after. rewrite E.
  split; [reflexivity | exact C].
Qed.

End FailedDelete.

(** On [crowded_calendar] the sweep is to delete [e2], [e3] and [e5]; the
    delete of [e2] is rejected. *)
Lemma calendar_sweep_stops_at_failed_delete_witness :
  outcome (cleanCalendarDuplicates (env_rejecting_delete noon crowded_calendar 7))
          (idle_world [])
  = Return 0%nat
  /\ calls (after (cleanCalendarDuplicates
                     (env_rejecting_delete noon crowded_calendar 7))
                  (idle_world []))
     = ([] ++ [CallAuthenticate; CallGetUpcomingAppointments 30;
               CallCancelAppointment "e2"])%list.
Proof.
  apply (calendar_sweep_stops_at_failed_delete
           (env_rejecting_delete noon crowded_calendar 7)
           (fun _ => eq_refl) (fun _ => eq_refl) (fun _ => eq_refl)
           (idle_world []) crowded_calendar
           [("2025-04-10_09:00"%string,
             [event "e1" "2025-04-10T09:00:00+05:30";
              event "e2" "2025-04-10T09:00:00+05:30";
              event "e3" "2025-04-10T09:00:00+05:30"]);
            ("2025-04-11_09:00"%string,
             [event "e4" "2025-04-11T09:00:00+05:30";
              event "e5" "2025-04-11T09:00:00+05:30"])]
           (CallCancelAppointment "e2")
           [CallCancelAppointment "e3"; CallCancelAppointment "e5"]);
    reflexivity.
Defined.

(** A confirmed booking (event [e1]) and a scheduled booking of another
    patient (event [e2]) in the same slot of the calendar. *)
Definition mixed_store : list Appointment.t :=
  [row 1 "9876543210" "2025-04-10" "09:00" "confirmed" (Some "e1") (noon - 7200000);
   row 2 "9123456780" "2025-04-10" "09:00" "scheduled" (Some "e2") (noon - 3600000)].

Lemma unscheduled_event_in_sweep_witness :
  Set_has "e1" (valid_ids (select_scheduled_with_event (idle_world mixed_store)))
  = false
  /\ exists tr,
       calls (after (cleanCalendarDuplicates (quiet_env noon shared_slot))
                    (idle_world mixed_store))
       = ([] ++ tr)%list
       /\ In (CallCancelAppointment "e1") tr.
Proof.
  destruct (unscheduled_event_in_sweep
              (quiet_env noon shared_slot)
              (fun _ => eq_refl) (fun _ => eq_refl) (fun _ => eq_refl)
              (fun _ => eq_refl)
              (idle_world mixed_store) shared_slot
              [("2025-04-10_09:00"%string, shared_slot)]
              "2025-04-10_09:00" shared_slot
              (event "e1" "2025-04-10T09:00:00+05:30"))
    as [_ [Hinvalid [tr [Hcalls [Hdeleted _]]]]].
  - reflexivity.
  - reflexivity.
  - left. reflexivity.
  - cbn. lia.
  - left. reflexivity.
  - intros a [<-|[<-|[]]]; cbn; intros H; discriminate.
  - split; [exact Hinvalid|]. exists tr. split; [exact Hcalls|].
    apply Hdeleted. left. reflexivity.
Defined.

(* ================================================================== *)
(** * Part III: further properties                                     *)
(* ================================================================== *)

(** ** simple-sync-manager.js: how the gate composes *)

Section CoordinatorUse.

Variable env : Env.

(** X1.  Mutual exclusion.  Once [start()] has been granted, every [start()]
    is refused until [stop()] or [forceReset()] is called, whatever the
    clock reads and whatever runs in between, as long as it leaves the
    coordinator alone. *)
Theorem gate_excludes_second_start {A} (between : M A) (w : World) :
  outcome (start env) w = Return true ->
  (forall w0, sync (after between w0) = sync w0) ->
  outcome (start env) (after between (after (start env) w)) = Return false
  /\ sync (after (start env) (after between (after (start env) w)))
     = sync (after (start env) w).
Proof.
  intros Hgranted Hquiet.
  destruct (start_cases env w) as [E|[s [E Hs]]];
    [unfold outcome in Hgranted; rewrite E in Hgranted; discriminate|].
  assert (E1 : after (start env) w = set_sync s (tick (tick w)))
    by (unfold after; rewrite E; reflexivity).
  rewrite E1. set (w1 := set_sync s (tick (tick w))).
  assert (R : SimpleSyncManager.isRunning (sync (after between w1)) = true)
    by (rewrite Hquiet; exact Hs).
  pose proof (start_refused env _ (or_introl R)) as E2.
  set (w2 := after between w1) in *.
  unfold outcome, after. rewrite E2.
  split; [reflexivity|]. cbn [snd tick sync]. apply Hquiet.
Qed.

(** X2.  Rate limit.  After a granted [start()] and the matching [stop()], the
    next [start()] is granted exactly when the clock it reads is at least
    [minInterval] past the clock the first one recorded. *)
Theorem gate_limits_rate (w : World) :
  outcome (start env) w = Return true ->
  outcome (start env) (after stop (after (start env) w))
  = Return (SimpleSyncManager.minInterval (sync w)
            <=? date_now env (S (S (steps w))) - date_now env (S (steps w))).
Proof.
  intros Hgranted.
  destruct (SimpleSyncManager.isRunning (sync w)) eqn:R;
    [unfold outcome in Hgranted;
     rewrite (start_refused env w (or_introl R)) in Hgranted; discriminate|].
  destruct (Z.lt_ge_cases
              (date_now env (steps w) - SimpleSyncManager.lastRun (sync w))
              (SimpleSyncManager.minInterval (sync w))) as [L|L];
    [unfold outcome in Hgranted;
     rewrite (start_refused env w (or_intror L)) in Hgranted; discriminate|].
  unfold after at 2. rewrite (start_granted env w R L). cbn [snd].
  unfold outcome, after, stop, assign. cbn [snd].
  match goal with |- fst (start env ?x) = _ => set (w1 := x) end.
  destruct (Z.leb_spec (SimpleSyncManager.minInterval (sync w))
                       (date_now env (S (S (steps w))) - date_now env (S (steps w))))
    as [G|G].
  - rewrite (start_granted env w1); [reflexivity | reflexivity | exact G].
  - rewrite (start_refused env w1); [reflexivity | right; exact G].
Qed.

(** X3.  [forceReset()] opens the gate even while a sync is running and forgets
    the last run: the next [start()] is granted as soon as the clock reads
    at least [minInterval]. *)
Theorem forceReset_opens_gate (w : World) :
  SimpleSyncManager.minInterval (sync w) <= date_now env (steps w) ->
  sync (after forceReset w)
  = {| SimpleSyncManager.isRunning := false;
       SimpleSyncManager.lastRun := 0;
       SimpleSyncManager.minInterval := SimpleSyncManager.minInterval (sync w) |}
  /\ outcome (start env) (after forceReset w) = Return true.
Proof.
  intros Hclock. split; [reflexivity|].
  unfold outcome. rewrite (start_granted env (after forceReset w)); [reflexivity..|].
  cbn. lia.
Qed.

(** [getStatus()] reports the state without changing it. *)
Lemma getStatus_reads (w : World) :
  sync (after (getStatus env) w) = sync w.
Proof. reflexivity. Qed.

End CoordinatorUse.

(** At noon a fresh coordinator grants a start; a second start while the
    data is validated is refused. *)
Lemma gate_excludes_second_start_witness :
  outcome (start (quiet_env noon []))
          (after (validateAppointmentData (quiet_env noon []))
                 (after (start (quiet_env noon [])) (idle_world [])))
  = Return false
  /\ sync (after (start (quiet_env noon []))
                 (after (validateAppointmentData (quiet_env noon []))
                        (after (start (quiet_env noon [])) (idle_world []))))
     = sync (after (start (quiet_env noon [])) (idle_world [])).
Proof.
  apply (gate_excludes_second_start (quiet_env noon [])
           (validateAppointmentData (quiet_env noon [])) (idle_world [])).
  - reflexivity.
  - intros w0.
    apply (frame_sync (fun _ => True) (fun _ => True) w0 _
             (keeps_validateAppointmentData (fun _ => True) (fun _ => True)
                (quiet_env noon []) (fun _ => I) (fun _ => I) w0)).
Defined.

Lemma gate_limits_rate_witness :
  outcome (start (quiet_env noon []))
          (after stop (after (start (quiet_env noon [])) (idle_world [])))
  = Return false.
Proof.
  apply (gate_limits_rate (quiet_env noon []) (idle_world [])). reflexivity.
Defined.

(** A sync stuck since noon is reset. *)
Lemma forceReset_opens_gate_witness :
  let busy := after (start (quiet_env noon [])) (idle_world []) in
  sync (after forceReset busy) = SimpleSyncManager.constructor
  /\ outcome (start (quiet_env noon [])) (after forceReset busy) = Return true.
Proof.
  intros busy.
  apply (forceReset_opens_gate (quiet_env noon []) busy). vm_compute. discriminate.
Defined.

(** ** appointmentBot.js: booking attempts that run in turn *)

Section BookingInTurn.

Variable env : Env.

Lemma fold_max_ge (l : list Z) (x : Z) : In x l -> x <= fold_right Z.max 0 l.
Proof.
  induction l as [|y l IH]; cbn [fold_right In]; [intros []|].
  intros [->|H]; [lia|]. specialize (IH H). lia.
Qed.

Lemma next_rowid_fresh (w : World) :
  ~ In (next_rowid w) (map Appointment.id (appointments w)).
Proof.
  intros H. apply fold_max_ge in H. unfold next_rowid in H. lia.
Qed.

(** The three ways a booking attempt can end. *)
Lemma saveAppointment_run (d : Appointment.t) (w : World) :
  (exists e, outcome (saveAppointment env d) w = Throw e
             /\ appointments (after (saveAppointment env d) w) = appointments w)
  \/ (exists x rest,
         active_at (Appointment.patient_phone d) (Appointment.appointment_date d)
                   (Appointment.appointment_time d) (appointments w) = x :: rest
         /\ saveAppointment env d w
            = (Return {| SaveResult.id := Appointment.id x;
                         SaveResult.existed := true |}, tick w))
  \/ (active_at (Appointment.patient_phone d) (Appointment.appointment_date d)
                (Appointment.appointment_time d) (appointments w) = []
      /\ exists now w',
          saveAppointment env d w
          = (Return {| SaveResult.id := next_rowid w;
                       SaveResult.existed := false |}, w')
          /\ appointments w'
             = (appointments w ++ [inserted_row d (next_rowid w) now])%list).
Proof.
  unfold outcome, after, saveAppointment, try_catch, bind,
    saveAppointment_check, db_query.
  destruct (sqlite_fails env (steps w));
    [left; eexists; split; reflexivity|].
  rewrite select_existing_active_at.
  destruct (active_at (Appointment.patient_phone d) (Appointment.appointment_date d)
                      (Appointment.appointment_time d) (appointments w))
    as [|x rest] eqn:E; cbn [map saveAppointment_resume].
  - unfold bind, db_run, ret, throw. cbn [tick steps].
    destruct (sqlite_fails env (S (steps w)));
      [left; eexists; split; reflexivity|].
    unfold insert_appointment.
    destruct (event_id_taken _ _ _);
      [left; eexists; split; reflexivity|].
    right. right. split; [reflexivity|].
    eexists _, _. split; reflexivity.
  - right. left. exists x, rest. split; reflexivity.
Qed.

(** X4.  What [saveAppointment] resolves with names a record of the requested
    slot: the first active one the slot already held ([existed], and the
    table is left as it was), or else the record just inserted. *)
Theorem booking_returns_record_of_slot (d : Appointment.t) (w : World)
  (r : SaveResult.t) :
  outcome (saveAppointment env d) w = Return r ->
  let rows := appointments w in
  let rows' := appointments (after (saveAppointment env d) w) in
  exists a, In a rows'
            /\ Appointment.id a = SaveResult.id r
            /\ slot_of a = slot_of d
            /\ (if SaveResult.existed r
                then In a rows /\ status_in active_statuses a = true
                     /\ rows' = rows
                else ~ In (SaveResult.id r) (map Appointment.id rows)
                     /\ select_existing d w = []
                     /\ exists now, rows' = (rows ++ [inserted_row d (SaveResult.id r) now])%list).
Proof.
  intros Hr rows rows'. subst rows rows'.
  destruct (saveAppointment_run d w) as [[e [E _]]|[[x [rest [E R]]]|[E [now [w' [R A]]]]]].
  - rewrite E in Hr. discriminate.
  - unfold outcome in Hr. unfold after. rewrite R in Hr |- *. cbn [fst snd] in *.
    injection Hr as <-. cbn [SaveResult.id SaveResult.existed tick appointments].
    assert (Hx : In x (active_at (Appointment.patient_phone d)
                                 (Appointment.appointment_date d)
                                 (Appointment.appointment_time d) (appointments w)))
      by (rewrite E; left; reflexivity).
    apply filter_In in Hx. destruct Hx as [Hx Hs]. apply andb_prop in Hs.
    destruct Hs as [Hs Ha].
    exists x. split; [exact Hx|]. split; [reflexivity|]. split.
    + unfold slot_of. exact (same_slot_eq _ _ _ _ _ _ x (same_slot_refl x) Hs).
    + split; [exact Hx|]. split; [exact Ha | reflexivity].
  - unfold outcome in Hr. unfold after. rewrite R in Hr |- *. cbn [fst snd] in *.
    injection Hr as <-. cbn [SaveResult.id SaveResult.existed].
    exists (inserted_row d (next_rowid w) now). rewrite A.
    split; [apply in_or_app; right; left; reflexivity|].
    split; [reflexivity|]. split; [reflexivity|].
    split; [apply next_rowid_fresh|].
    split; [rewrite select_existing_active_at, E; reflexivity|].
    exists now. reflexivity.
Qed.

(** X5.  A booking attempt never changes or removes a record and never reuses
    an id: the table grows by at most one row at its end, and ids that were
    distinct stay distinct. *)
Theorem booking_only_appends (d : Appointment.t) (w : World) :
  NoDup (map Appointment.id (appointments w)) ->
  let rows' := appointments (after (saveAppointment env d) w) in
  NoDup (map Appointment.id rows')
  /\ exists new, rows' = (appointments w ++ new)%list /\ (List.length new <= 1)%nat.
Proof.
  intros Hd rows'. subst rows'.
  destruct (saveAppointment_run d w) as [[e [_ E]]|[[x [rest [_ R]]]|[_ [now [w' [R A]]]]]].
  - rewrite E. split; [exact Hd|]. exists []. rewrite app_nil_r. split; [reflexivity|cbn; lia].
  - unfold after. rewrite R. cbn [snd tick appointments].
    split; [exact Hd|]. exists []. rewrite app_nil_r. split; [reflexivity|cbn; lia].
  - unfold after. rewrite R. cbn [snd]. rewrite A. split.
    + rewrite map_app. cbn [map inserted_row Appointment.id].
      apply NoDup_app; [exact Hd | repeat constructor; intros [] |].
      intros i Hi [<-|[]]. exact (next_rowid_fresh w Hi).
    + eexists. split; [reflexivity|cbn; lia].
Qed.

(** X6.  Booking twice.  When SQLite answers, a second attempt for a slot that
    an attempt has just booked with an active status inserts nothing: it
    resolves with the id of the first attempt's record and [existed]. *)
Theorem booking_again_returns_first (d d' : Appointment.t) (w : World) (i : Z) :
  (forall n, sqlite_fails env n = false) ->
  status_in active_statuses d = true ->
  slot_of d' = slot_of d ->
  outcome (saveAppointment env d) w
  = Return {| SaveResult.id := i; SaveResult.existed := false |} ->
  let w1 := after (saveAppointment env d) w in
  outcome (saveAppointment env d') w1
  = Return {| SaveResult.id := i; SaveResult.existed := true |}
  /\ appointments (after (saveAppointment env d') w1) = appointments w1.
Proof.
  intros Hq Ha Hslot Hr w1. subst w1.
  unfold slot_of in Hslot. injection Hslot as Hp Hdt Ht.
  destruct (saveAppointment_run d w) as [[e [E _]]|[[x [rest [_ R]]]|[E [now [w' [R A]]]]]].
  - rewrite E in Hr. discriminate.
  - unfold outcome in Hr. rewrite R in Hr. discriminate.
  - assert (W : after (saveAppointment env d) w = w')
      by (unfold after; rewrite R; reflexivity).
    rewrite !W. unfold outcome in Hr. rewrite R in Hr.
    cbn [fst] in Hr. injection Hr as <-.
    destruct (saveAppointment_run d' w') as [[e [E' _]]|[[x [rest [E' R']]]|[E' _]]].
    + exfalso. revert E'.
      unfold outcome, saveAppointment, try_catch, bind, saveAppointment_check.
      rewrite (db_query_ok env _ w' (Hq _)), select_existing_active_at.
      rewrite Hp, Hdt, Ht, A, active_at_app, E, (active_at_inserted d _ _ Ha).
      cbn. discriminate.
    + rewrite Hp, Hdt, Ht, A, active_at_app, E, (active_at_inserted d _ _ Ha) in E'.
      cbn [app] in E'. injection E' as <- <-.
      unfold outcome, after. rewrite R'. split; reflexivity.
    + rewrite Hp, Hdt, Ht, A, active_at_app, E, (active_at_inserted d _ _ Ha) in E'.
      discriminate.
Qed.

(** Any number of booking attempts, each run to its end before the next
    starts. *)
Definition booked_in_turn (ds : list Appointment.t) (w : World) : World :=
  fold_left (fun w d => after (saveAppointment env d) w) ds w.

(** X7.  Run in turn, booking attempts keep the invariant whatever they ask for
    and whatever fails: a slot that holds at most one active record holds
    at most one afterwards. *)
Theorem bookings_in_turn_keep_one_per_slot (ds : list Appointment.t) (w : World)
  (phone date time : string) :
  (List.length (active_at phone date time (appointments w)) <= 1)%nat ->
  (List.length (active_at phone date time (appointments (booked_in_turn ds w)))
   <= 1)%nat.
Proof.
  revert w. induction ds as [|d ds IH]; intros w H; [exact H|].
  cbn [booked_in_turn fold_left]. apply IH.
  apply saveAppointment_keeps_invariant, H.
Qed.

End BookingInTurn.

(** A first booking of a free slot. *)
Lemma booking_returns_record_of_slot_witness :
  exists a,
    In a (appointments (after (saveAppointment (quiet_env noon [])
                                 (booking "9876543210" "2025-04-10" "09:00"))
                              (idle_world [])))
    /\ Appointment.id a = 1
    /\ slot_of a = ("9876543210", "2025-04-10", "09:00").
Proof.
  destruct (booking_returns_record_of_slot (quiet_env noon [])
              (booking "9876543210" "2025-04-10" "09:00") (idle_world [])
              {| SaveResult.id := 1; SaveResult.existed := false |} eq_refl)
    as [a [Hin [Hid [Hslot _]]]].
  exists a. split; [exact Hin|]. split; [exact Hid | exact Hslot].
Defined.

Lemma booking_only_appends_witness :
  NoDup (map Appointment.id
           (appointments (after (saveAppointment (quiet_env noon [])
                                   (booking "9876543210" "2025-04-11" "10:00"))
                                (idle_world rebooked_slot)))).
Proof.
  apply (booking_only_appends (quiet_env noon [])
           (booking "9876543210" "2025-04-11" "10:00") (idle_world rebooked_slot)).
  cbn. repeat constructor; cbn; intuition discriminate.
Defined.

(** The same message handled twice. *)
Lemma booking_again_returns_first_witness :
  let d := booking "9876543210" "2025-04-10" "09:00" in
  let w1 := after (saveAppointment (quiet_env noon []) d) (idle_world []) in
  outcome (saveAppointment (quiet_env noon []) d) w1
  = Return {| SaveResult.id := 1; SaveResult.existed := true |}
  /\ appointments (after (saveAppointment (quiet_env noon []) d) w1) = appointments w1.
Proof.
  intros d w1.
  apply (booking_again_returns_first (quiet_env noon []) d d (idle_world []) 1).
  - reflexivity.
  - reflexivity.
  - reflexivity.
  - reflexivity.
Defined.

(** Three messages for one slot, one for another. *)
Lemma bookings_in_turn_keep_one_per_slot_witness :
  (List.length
     (active_at "9876543210" "2025-04-10" "09:00"
        (appointments
           (booked_in_turn (quiet_env noon [])
              [booking "9876543210" "2025-04-10" "09:00";
               booking "9876543210" "2025-04-10" "09:00";
               booking "9123456780" "2025-04-10" "09:00";
               booking "9876543210" "2025-04-10" "09:00"]
              (idle_world [])))) <= 1)%nat.
Proof.
  apply (bookings_in_turn_keep_one_per_slot (quiet_env noon [])).
  cbn. lia.
Defined.

(** ** utils/calendarSync.js: what a sync leaves of the records *)

(** What a record and its later state have in common when a sync has left a
    booking alone: only [google_event_id] and [updated_at] may differ, and
    with [archiving] a completed or cancelled record may have become
    archived. *)
Definition same_booking (archiving : bool) (a a' : Appointment.t) : Prop :=
  Appointment.id a' = Appointment.id a
  /\ slot_of a' = slot_of a
  /\ Appointment.patient_name a' = Appointment.patient_name a
  /\ Appointment.duration_minutes a' = Appointment.duration_minutes a
  /\ Appointment.created_at a' = Appointment.created_at a
  /\ (Appointment.status a' = Appointment.status a
      \/ (archiving = true
          /\ status_in ["completed"; "cancelled"] a = true
          /\ Appointment.status a' = "archived")).

(** The table holds the same records in the same order, each one
    [same_booking] as before, and the patients are as they were. *)
Definition bookings_kept (archiving : bool) (w w' : World) : Prop :=
  Forall2 (same_booking archiving) (appointments w) (appointments w')
  /\ patients w' = patients w.

Definition keeps_bookings (archiving : bool) {A} (c : M A) : Prop :=
  forall w, bookings_kept archiving w (after c w).

Section BookingsKept.

Variable archiving : bool.

Lemma same_booking_refl a : same_booking archiving a a.
Proof. unfold same_booking. intuition. Qed.

Lemma same_booking_trans a b c :
  same_booking archiving a b -> same_booking archiving b c ->
  same_booking archiving a c.
Proof.
  intros (I1 & S1 & N1 & D1 & C1 & T1) (I2 & S2 & N2 & D2 & C2 & T2).
  unfold same_booking. repeat (split; [congruence|]).
  destruct T2 as [T2|(A2 & B2 & T2)].
  - destruct T1 as [T1|(A1 & B1 & T1)]; [left; congruence|].
    right. repeat split; [assumption..|congruence].
  - destruct T1 as [T1|(A1 & B1 & T1)].
    + right. repeat split; [assumption| |assumption].
      unfold status_in in *. rewrite <- T1. exact B2.
    + unfold status_in in B2. rewrite T1 in B2. discriminate.
Qed.

Lemma Forall2_same_refl rows : Forall2 (same_booking archiving) rows rows.
Proof. induction rows; constructor; [apply same_booking_refl | assumption]. Qed.

Lemma Forall2_same_trans l1 : forall l2 l3,
  Forall2 (same_booking archiving) l1 l2 -> Forall2 (same_booking archiving) l2 l3 ->
  Forall2 (same_booking archiving) l1 l3.
Proof.
  induction l1 as [|a l1 IH]; intros l2 l3 H12 H23.
  - inversion H12; subst. inversion H23; subst. constructor.
  - inversion H12 as [|? b ? l2' Hab H12']; subst.
    inversion H23 as [|? c ? l3' Hbc H23']; subst.
    constructor; [eapply same_booking_trans; eassumption | eapply IH; eassumption].
Qed.

Lemma Forall2_same_map (f : Appointment.t -> Appointment.t) rows :
  (forall a, same_booking archiving a (f a)) ->
  Forall2 (same_booking archiving) rows (map f rows).
Proof. intros H. induction rows; cbn; constructor; [apply H | assumption]. Qed.

Lemma kept_quiet (w w' : World) :
  appointments w' = appointments w -> patients w' = patients w ->
  bookings_kept archiving w w'.
Proof. intros Ea Ep. split; [rewrite Ea; apply Forall2_same_refl | exact Ep]. Qed.

Lemma kept_refl (w : World) : bookings_kept archiving w w.
Proof. apply kept_quiet; reflexivity. Qed.

Lemma kept_trans (a b c : World) :
  bookings_kept archiving a b -> bookings_kept archiving b c ->
  bookings_kept archiving a c.
Proof.
  intros [F1 P1] [F2 P2]. split; [eapply Forall2_same_trans; eassumption | congruence].
Qed.

Lemma kb_ret {A} (a : A) : keeps_bookings archiving (ret a).
Proof. intros w. apply kept_refl. Qed.

Lemma kb_throw {A} (e : Error) : keeps_bookings archiving (@throw A e).
Proof. intros w. apply kept_refl. Qed.

Lemma kb_bind {A B} (c : M A) (k : A -> M B) :
  keeps_bookings archiving c -> (forall a, keeps_bookings archiving (k a)) ->
  keeps_bookings archiving (bind c k).
Proof.
  intros Hc Hk w. specialize (Hc w). unfold after, bind in *.
  destruct (c w) as [[a|e] w1]; cbn in *.
  - eapply kept_trans; [exact Hc | apply Hk].
  - exact Hc.
Qed.

Lemma kb_try_catch {A} (c : M A) (h : Error -> M A) :
  keeps_bookings archiving c -> (forall e, keeps_bookings archiving (h e)) ->
  keeps_bookings archiving (try_catch c h).
Proof.
  intros Hc Hh w. specialize (Hc w). unfold after, try_catch in *.
  destruct (c w) as [[a|e] w1]; cbn in *.
  - exact Hc.
  - eapply kept_trans; [exact Hc | apply Hh].
Qed.

Lemma kb_try_finally {A} (c : M A) (f : M unit) :
  keeps_bookings archiving c -> keeps_bookings archiving f ->
  keeps_bookings archiving (try_finally c f).
Proof.
  intros Hc Hf w. specialize (Hc w). unfold after, try_finally in *.
  destruct (c w) as [r w1]. cbn in Hc. specialize (Hf w1). unfold after in Hf.
  destruct (f w1) as [[u|e] w2]; cbn in *; eapply kept_trans; eassumption.
Qed.

Lemma kb_swallow (c : M unit) :
  keeps_bookings archiving c -> keeps_bookings archiving (swallow c).
Proof. intros Hc. apply kb_try_catch; [exact Hc | intros; apply kb_ret]. Qed.

Lemma kb_for_of {A} (l : list A) (body : A -> M unit) :
  (forall x, keeps_bookings archiving (body x)) ->
  keeps_bookings archiving (for_of l body).
Proof.
  intros Hb. induction l as [|x l IH]; cbn [for_of].
  - apply kb_ret.
  - apply kb_bind; [apply Hb | intros _; exact IH].
Qed.

Lemma kb_fold_of {A T} (l : list A) (body : T -> A -> M T) :
  (forall s x, keeps_bookings archiving (body s x)) ->
  forall s, keeps_bookings archiving (fold_of l s body).
Proof.
  intros Hb. induction l as [|x l IH]; intros s; cbn [fold_of].
  - apply kb_ret.
  - apply kb_bind; [apply Hb | intros s1; apply IH].
Qed.

Variable env : Env.

Lemma kb_Date_now : keeps_bookings archiving (Date_now env).
Proof. intros w. apply kept_quiet; reflexivity. Qed.

Lemma kb_db_query {A} (select : World -> A) :
  keeps_bookings archiving (db_query env select).
Proof.
  intros w. unfold after, db_query.
  destruct (sqlite_fails env (steps w)); apply kept_quiet; reflexivity.
Qed.

Lemma kb_enter (c : Call) : keeps_bookings archiving (enter c).
Proof. intros w. apply kept_quiet; reflexivity. Qed.

Lemma kb_ensureValidTokens : keeps_bookings archiving (ensureValidTokens env).
Proof.
  intros w. unfold after, ensureValidTokens.
  destruct (tokens_valid env (steps w)); apply kept_quiet; reflexivity.
Qed.

Lemma kb_provider {A} (answer : nat -> option A) :
  keeps_bookings archiving (provider answer).
Proof.
  intros w. unfold after, provider.
  destruct (answer (steps w)); apply kept_quiet; reflexivity.
Qed.

Lemma kb_toISOString d : keeps_bookings archiving (toISOString env d).
Proof.
  unfold toISOString. destruct (new_Date env _); [apply kb_ret | apply kb_throw].
Qed.

Lemma kb_start : keeps_bookings archiving (start env).
Proof.
  intros w. unfold after.
  destruct (start_cases env w) as [E|[s [E _]]]; rewrite E;
    apply kept_quiet; reflexivity.
Qed.

Lemma kb_stop : keeps_bookings archiving stop.
Proof. intros w. apply kept_quiet; reflexivity. Qed.

(** A statement that rewrites rows without touching the booking. *)
Definition rewrites (stmt : Z -> World -> option (RunResult.t * World)) : Prop :=
  forall now w r w1, stmt now w = Some (r, w1) -> bookings_kept archiving w w1.

Lemma kb_db_run stmt : rewrites stmt -> keeps_bookings archiving (db_run env stmt).
Proof.
  intros Hs w. unfold after, db_run.
  destruct (sqlite_fails env (steps w)); [apply kept_quiet; reflexivity|].
  destruct (stmt (date_now env (steps w)) w) as [[r w1]|] eqn:E; cbn.
  - eapply kept_trans; [eapply Hs; exact E | apply kept_quiet; reflexivity].
  - apply kept_quiet; reflexivity.
Qed.

Lemma rewrites_update_google_event_id eventId rowid :
  rewrites (update_google_event_id eventId rowid).
Proof.
  intros now w r w1. unfold update_google_event_id.
  destruct (filter _ (appointments w)).
  - intros E. injection E as _ <-. apply kept_refl.
  - destruct (event_id_taken _ _ _); [discriminate|].
    intros E. injection E as _ <-. split; [|reflexivity].
    apply Forall2_same_map. intros a.
    destruct (Appointment.id a =? rowid); [|apply same_booking_refl].
    unfold same_booking. cbn. intuition.
Qed.

Lemma rewrites_touch_row rowid : rewrites (touch_row rowid).
Proof.
  intros now w r w1 E. injection E as _ <-. split; [|reflexivity].
  apply Forall2_same_map. intros a.
  destruct (Appointment.id a =? rowid); [|apply same_booking_refl].
  unfold same_booking. cbn. intuition.
Qed.

Lemma rewrites_delete_conversation_states : rewrites delete_conversation_states.
Proof. intros now w r w1 E. injection E as _ <-. apply kept_refl. Qed.

Lemma kb_createAppointment d : keeps_bookings archiving (createAppointment env d).
Proof.
  unfold createAppointment.
  apply kb_bind; [apply kb_enter | intros _].
  apply kb_try_catch; [|intros; apply kb_throw].
  apply kb_bind; [apply kb_ensureValidTokens | intros _].
  apply kb_bind; [apply kb_toISOString | intros _].
  apply kb_provider.
Qed.

Lemma kb_updateAppointment eventId d :
  keeps_bookings archiving (updateAppointment env eventId d).
Proof.
  unfold updateAppointment.
  apply kb_bind; [apply kb_enter | intros _].
  apply kb_try_catch; [|intros; apply kb_throw].
  apply kb_bind; [apply kb_ensureValidTokens | intros _].
  apply kb_bind; [apply kb_toISOString | intros _].
  apply kb_provider.
Qed.

Lemma kb_createEvent summary description s e :
  keeps_bookings archiving (createEvent env summary description s e).
Proof.
  unfold createEvent.
  apply kb_bind; [apply kb_enter | intros _].
  apply kb_try_catch; [|intros; apply kb_throw].
  apply kb_bind; [apply kb_ensureValidTokens | intros _].
  apply kb_provider.
Qed.

Lemma kb_getUpcomingAppointments n :
  keeps_bookings archiving (getUpcomingAppointments env n).
Proof.
  unfold getUpcomingAppointments.
  apply kb_bind; [apply kb_enter | intros _].
  apply kb_try_catch; [|intros; apply kb_throw].
  apply kb_bind; [apply kb_ensureValidTokens | intros _].
  apply kb_bind; [apply kb_Date_now | intros _].
  apply kb_bind; [apply kb_Date_now | intros _].
  apply kb_provider.
Qed.

Lemma kb_recreate a : keeps_bookings archiving (recreate env a).
Proof.
  unfold recreate.
  apply kb_bind; [apply kb_db_query | intros patient].
  apply kb_bind; [apply kb_createAppointment | intros eventId].
  apply kb_bind; [|intros; apply kb_ret].
  apply kb_db_run, rewrites_update_google_event_id.
Qed.

Lemma kb_push_update item : keeps_bookings archiving (push_update env item).
Proof.
  unfold push_update.
  apply kb_bind; [apply kb_db_query | intros patient].
  apply kb_updateAppointment.
Qed.

Lemma kb_reconcile dbAppointments calendarEvents :
  keeps_bookings archiving (reconcile env dbAppointments calendarEvents).
Proof.
  unfold reconcile. apply kb_bind.
  - apply kb_fold_of. intros acc entry. unfold compare_one.
    destruct (Map_get _ _).
    + destruct (negb _); apply kb_ret.
    + apply kb_bind; [apply kb_Date_now | intros now].
      destruct (recent _); apply kb_ret.
  - intros queued. unfold applySyncFixes.
    apply kb_try_catch; [|intros; apply kb_throw].
    apply kb_bind; [apply kb_for_of; intros; apply kb_swallow, kb_recreate | intros _].
    apply kb_bind; [apply kb_for_of; intros; apply kb_swallow, kb_push_update | intros _].
    cbn [for_of]. repeat (apply kb_bind; [apply kb_ret | intros _]). apply kb_ret.
Qed.

Lemma kb_syncAppointments : keeps_bookings archiving (syncAppointments env).
Proof.
  unfold syncAppointments.
  apply kb_try_finally; [|apply kb_stop].
  apply kb_try_catch; [|intros; apply kb_throw].
  apply kb_bind; [apply kb_start | intros started].
  destruct (negb started); [apply kb_ret|].
  apply kb_bind; [apply kb_db_query | intros dbAppointments].
  apply kb_bind; [apply kb_getUpcomingAppointments | intros calendarEvents].
  apply kb_reconcile.
Qed.

Lemma kb_validateAppointmentData :
  keeps_bookings archiving (validateAppointmentData env).
Proof.
  unfold validateAppointmentData.
  apply kb_try_catch; [|intros; apply kb_throw].
  apply kb_bind; [apply kb_db_query | intros orphaned].
  apply kb_bind.
  - destruct (0 <? List.length orphaned)%nat; [|apply kb_ret].
    apply kb_for_of. intros a. apply kb_swallow, kb_recreate.
  - intros _. apply kb_bind; [apply kb_db_query | intros; apply kb_ret].
Qed.

Lemma kb_retryFailedAppointmentSyncs :
  keeps_bookings archiving (retryFailedAppointmentSyncs env).
Proof.
  unfold retryFailedAppointmentSyncs. apply kb_swallow.
  destruct (negb (appointmentBot_loads env)); [apply kb_throw|].
  apply kb_bind; [apply kb_db_query | intros failed].
  destruct (List.length failed =? 0)%nat; [apply kb_ret|].
  apply kb_for_of. intros a. apply kb_swallow. unfold retry_one.
  apply kb_bind; [apply kb_db_query | intros patient].
  apply kb_bind; [apply kb_createEvent | intros eventId].
  apply kb_bind; [|intros; apply kb_ret].
  apply kb_db_run, rewrites_update_google_event_id.
Qed.

End BookingsKept.

Lemma rewrites_archive_before limit : rewrites true (archive_before limit).
Proof.
  intros now w r w1 E. injection E as _ <-. split; [|reflexivity].
  apply Forall2_same_map. intros a.
  match goal with |- context [if ?b then _ else _] => destruct b eqn:O end;
    [|apply same_booking_refl].
  apply andb_prop in O. destruct O as [St _].
  unfold same_booking. cbn [Appointment.set_status Appointment.id slot_of
    Appointment.patient_phone Appointment.appointment_date
    Appointment.appointment_time Appointment.patient_name
    Appointment.duration_minutes Appointment.created_at Appointment.status].
  repeat (split; [reflexivity|]). right. repeat split. exact St.
Qed.

Lemma kb_cleanupOldData env : keeps_bookings true (cleanupOldData env).
Proof.
  unfold cleanupOldData. apply kb_swallow.
  apply kb_bind; [apply kb_Date_now | intros t].
  apply kb_bind; [apply kb_db_run, rewrites_archive_before | intros _].
  apply kb_bind; [apply kb_Date_now | intros t'].
  apply kb_bind; [|intros; apply kb_ret].
  apply kb_db_run, rewrites_delete_conversation_states.
Qed.

(** X8.  Whatever the clock, SQLite, the tokens and the provider do, neither
    sync entry point inserts, deletes or reorders a record or touches a
    patient, and neither changes the id, the patient, the date, the time,
    the duration or the creation time of a record.  [syncAppointments]
    also leaves every status as it was; [performFullSync] changes a status
    only from completed or cancelled to archived.  So a scheduled, confirmed
    or pending booking is never cancelled, rescheduled or archived by a
    sync. *)
Theorem syncs_keep_bookings (env : Env) (w : World) :
  bookings_kept false w (after (syncAppointments env) w)
  /\ bookings_kept true w (after (performFullSync env) w).
Proof.
  split; [apply kb_syncAppointments|].
  revert w. change (keeps_bookings true (performFullSync env)).
  unfold performFullSync.
  apply kb_try_finally; [|apply kb_stop].
  apply kb_try_catch; [|intros; apply kb_throw].
  apply kb_bind; [apply kb_start | intros started].
  destruct (negb started); [apply kb_ret|].
  apply kb_bind; [apply kb_validateAppointmentData | intros _].
  apply kb_bind; [apply kb_syncAppointments | intros _].
  apply kb_bind; [apply kb_retryFailedAppointmentSyncs | intros _].
  apply kb_cleanupOldData.
Qed.

(** X9.  When SQLite answers, [performFullSync] resolves: no failure of the
    tokens, of the provider or of loading the bot module reaches its
    caller. *)
Theorem full_sync_isolates_calendar_failures (env : Env) (w : World) :
  (forall n, sqlite_fails env n = false) ->
  outcome (performFullSync env) w = Return tt.
Proof.
  intros Hq. unfold outcome, performFullSync, try_finally, try_catch.
  unfold bind at 1.
  destruct (start_cases env w) as [E|[s [E R]]]; rewrite E; [reflexivity|].
  cbn [negb]. set (w1 := set_sync s (tick (tick w))).
  assert (V : exists w2, validateAppointmentData env w1 = (Return tt, w2)).
  { unfold validateAppointmentData, try_catch. unfold bind at 1.
    rewrite (db_query_ok env _ w1 (Hq _)). unfold bind at 1.
    match goal with
    | |- context [(if ?b then for_of ?l ?f else ret tt) ?x] =>
      assert (L : exists w', (if b then for_of l f else ret tt) x = (Return tt, w'))
    end.
    { destruct (0 <? _)%nat; [|eexists; reflexivity].
      pose proof (for_of_swallow_returns (select_scheduled_without_event w1)
                    (recreate env) (tick w1)) as H.
      unfold outcome in H.
      destruct (for_of (select_scheduled_without_event w1)
                  (fun x => swallow (recreate env x)) (tick w1)) as [r w'] eqn:Ec.
      cbn in H. subst r. exists w'. reflexivity. }
    destruct L as [w' L]. rewrite L. unfold bind.
    rewrite (db_query_ok env _ w' (Hq _)). eexists. reflexivity. }
  destruct V as [w2 V].
  assert (R2 : SimpleSyncManager.isRunning (sync w2) = true).
  { pose proof (keeps_validateAppointmentData (fun _ => True) (fun _ => True) env
                  (fun _ => I) (fun _ => I) w1) as F.
    unfold after in F. rewrite V in F. cbn [snd] in F.
    rewrite (frame_sync _ _ _ _ F). exact R. }
  unfold bind at 1. rewrite V.
  unfold bind at 1. rewrite (syncAppointments_refused env w2 R2).
  unfold bind.
  match goal with
  | |- context [retryFailedAppointmentSyncs env ?x] =>
    pose proof (swallow_returns
                  (if negb (appointmentBot_loads env) then throw ModuleNotFound
                   else failedAppointments <- db_query env select_scheduled_without_event ;;
                        if (List.length failedAppointments =? 0)%nat then ret tt
                        else for_of failedAppointments
                               (fun appointment => swallow (retry_one env appointment)))
                  x) as H3;
    change (outcome (retryFailedAppointmentSyncs env) x = Return tt) in H3;
    unfold outcome in H3;
    destruct (retryFailedAppointmentSyncs env x) as [r3 w3]
  end.
  cbn in H3. subst r3.
  pose proof (swallow_returns
                (thirtyDaysAgo <- Date_now env ;;
                 db_run env (archive_before (thirtyDaysAgo - days 30)) ;;;
                 sevenDaysAgo <- Date_now env ;;
                 db_run env delete_conversation_states ;;;
                 ret tt) w3) as H4.
  change (outcome (cleanupOldData env) w3 = Return tt) in H4.
  unfold outcome in H4. destruct (cleanupOldData env w3) as [r4 w4].
  cbn in H4. subst r4. reflexivity.
Qed.

(** ** maintenance.js: what the store sweep leaves *)

Definition slot_of_group (dup : DuplicateGroup.t) : string * string * string :=
  (DuplicateGroup.patient_phone dup, DuplicateGroup.appointment_date dup,
   DuplicateGroup.appointment_time dup).

(** The rows the loop of [cleanDbDuplicates] leaves. *)
Definition swept (dups : list DuplicateGroup.t) (rows : list Appointment.t)
  : list Appointment.t :=
  fold_left (fun rows dup => sweep_slot dup rows) dups rows.

Lemma slot_eq_dec (k k' : string * string * string) : {k = k'} + {k <> k'}.
Proof.
  destruct k as [[p d] t], k' as [[p' d'] t'].
  destruct (string_dec p p') as [->|N]; [|right; congruence].
  destruct (string_dec d d') as [->|N]; [|right; congruence].
  destruct (string_dec t t') as [->|N]; [|right; congruence].
  left. reflexivity.
Qed.

Lemma filter_partition {A} (f : A -> bool) (l : list A) :
  (List.length (filter f l) + List.length (filter (fun x => negb (f x)) l)
   = List.length l)%nat.
Proof.
  induction l as [|x l IH]; [reflexivity|].
  cbn [filter]. destruct (f x); cbn [negb List.length]; lia.
Qed.

Lemma filter_and {A} (f g : A -> bool) (l : list A) :
  filter (fun x => f x && g x) l = filter g (filter f l).
Proof.
  induction l as [|x l IH]; [reflexivity|].
  cbn [filter]. destruct (f x); cbn [andb filter]; [destruct (g x)|]; congruence.
Qed.

Lemma filter_length_le {A} (f : A -> bool) (l : list A) :
  (List.length (filter f l) <= List.length l)%nat.
Proof.
  induction l as [|x l IH]; [constructor|].
  cbn [filter]. destruct (f x); cbn [List.length]; lia.
Qed.

Lemma filter_only {A} (p : A -> bool) (l : list A) (o : A) :
  NoDup l -> In o l -> p o = true ->
  (forall a, In a l -> p a = true -> a = o) -> filter p l = [o].
Proof.
  induction l as [|x l IH]; intros Hnd Hin Ho Huniq; [destruct Hin|].
  inversion Hnd as [|? ? Hx Hnd']; subst. cbn [filter].
  destruct Hin as [->|Hin].
  - rewrite Ho. f_equal. apply filter_none. intros a Ha.
    destruct (p a) eqn:Pa; [|reflexivity].
    exfalso. apply Hx. rewrite <- (Huniq a (or_intror Ha) Pa). exact Ha.
  - destruct (p x) eqn:Px.
    + exfalso. apply Hx. rewrite (Huniq x (or_introl eq_refl) Px). exact Hin.
    + apply IH; try assumption. intros a Ha. apply Huniq. right. exact Ha.
Qed.

Lemma flat_map_nil {A B} (f : A -> list B) (l : list A) :
  (forall x, In x l -> f x = []) -> flat_map f l = [].
Proof.
  induction l as [|x l IH]; intros H; [reflexivity|].
  cbn [flat_map]. rewrite (H x (or_introl eq_refl)). apply IH.
  intros y Hy. apply H. right. exact Hy.
Qed.

Lemma order_by_created_one (l : list Appointment.t) :
  firstn 1 (order_by_created (firstn 1 l)) = firstn 1 l.
Proof. destruct l; reflexivity. Qed.

Lemma sorted_slot_NoDup (f : Appointment.t -> bool) rows :
  NoDup (map Appointment.id rows) ->
  NoDup (map Appointment.id (order_by_created (filter f rows))).
Proof.
  intros Hnd.
  eapply Permutation_NoDup;
    [apply Permutation_map, Permutation_sym, order_by_created_perm|].
  apply NoDup_ids_filter, Hnd.
Qed.

(** Of the swept slot, exactly the first record in the order of creation
    is left. *)
Lemma sweep_slot_own phone date time dup rows :
  NoDup (map Appointment.id rows) ->
  slot_of_group dup = (phone, date, time) ->
  filter (same_slot phone date time) (sweep_slot dup rows)
  = firstn 1 (order_by_created (filter (same_slot phone date time) rows)).
Proof.
  intros Hnd Hk. unfold slot_of_group in Hk. injection Hk as Ep Ed Et.
  destruct (order_by_created (filter (same_slot phone date time) rows))
    as [|o rest] eqn:Hsorted.
  - cbn [firstn]. apply filter_none. intros a Ha.
    destruct (same_slot phone date time a) eqn:Sa; [|reflexivity].
    exfalso. unfold sweep_slot in Ha. apply filter_In in Ha. destruct Ha as [Ha _].
    assert (Hin : In a (order_by_created (filter (same_slot phone date time) rows))).
    { eapply Permutation_in; [apply Permutation_sym, order_by_created_perm|].
      apply filter_In. split; assumption. }
    rewrite Hsorted in Hin. exact Hin.
  - cbn [firstn].
    assert (Ho : In o (filter (same_slot phone date time) rows)).
    { eapply Permutation_in; [apply order_by_created_perm|].
      rewrite Hsorted. left. reflexivity. }
    apply filter_In in Ho. destruct Ho as [Ho So].
    pose proof (sorted_slot_NoDup (same_slot phone date time) rows Hnd) as Hs.
    rewrite Hsorted in Hs. cbn [map] in Hs.
    apply NoDup_cons_iff in Hs. destruct Hs as [Hfresh _].
    apply filter_only.
    + apply NoDup_filter. eapply NoDup_map_inv. exact Hnd.
    + unfold sweep_slot. apply filter_In. split; [exact Ho|].
      rewrite Ep, Ed, Et, Hsorted. cbn [map tl]. apply negb_true_iff.
      destruct (Z_in _ _) eqn:Z; [|reflexivity].
      apply Z_in_In in Z. contradiction.
    + exact So.
    + intros a Ha Sa.
      exact (sweep_own_slot phone date time dup rows o rest a Ep Ed Et Hsorted Ha Sa).
Qed.

(** The records outside the swept slot are all left: ids are unique. *)
Lemma sweep_slot_outside dup rows :
  NoDup (map Appointment.id rows) ->
  filter (fun a => negb (in_slot (slot_of_group dup) a)) (sweep_slot dup rows)
  = filter (fun a => negb (in_slot (slot_of_group dup) a)) rows.
Proof.
  intros Hnd. unfold sweep_slot. apply filter_after_filter.
  intros a Ha Hout. apply negb_true_iff.
  destruct (Z_in _ _) eqn:E; [|reflexivity]. exfalso.
  apply Z_in_In in E. apply In_tl in E. apply in_map_iff in E.
  destruct E as [b [Eid Hb]].
  assert (Hb' : In b (filter (same_slot (DuplicateGroup.patient_phone dup)
                                        (DuplicateGroup.appointment_date dup)
                                        (DuplicateGroup.appointment_time dup)) rows))
    by (eapply Permutation_in; [apply order_by_created_perm | exact Hb]).
  apply filter_In in Hb'. destruct Hb' as [Hb' Sb].
  assert (b = a) by (apply (NoDup_ids_inj rows); assumption). subst b.
  apply negb_true_iff in Hout. unfold in_slot, slot_of_group in Hout.
  rewrite Sb in Hout. discriminate.
Qed.

Lemma swept_NoDup dups : forall rows,
  NoDup (map Appointment.id rows) -> NoDup (map Appointment.id (swept dups rows)).
Proof.
  induction dups as [|dup dups IH]; intros rows H; [exact H|].
  cbn [swept fold_left]. apply IH. apply NoDup_ids_filter, H.
Qed.

(** Slot by slot: a slot some group names keeps its first record in the
    order of creation, every other slot keeps all its records. *)
Lemma swept_slot_rows phone date time dups : forall rows,
  NoDup (map Appointment.id rows) ->
  filter (same_slot phone date time) (swept dups rows)
  = if in_dec slot_eq_dec (phone, date, time) (map slot_of_group dups)
    then firstn 1 (order_by_created (filter (same_slot phone date time) rows))
    else filter (same_slot phone date time) rows.
Proof.
  induction dups as [|dup dups IH]; intros rows Hnd; [reflexivity|].
  cbn [swept fold_left]. fold (swept dups (sweep_slot dup rows)).
  rewrite (IH (sweep_slot dup rows) (NoDup_ids_filter _ rows Hnd)).
  destruct (slot_eq_dec (slot_of_group dup) (phone, date, time)) as [Ek|Nk].
  - rewrite (sweep_slot_own phone date time dup rows Hnd Ek).
    rewrite order_by_created_one.
    destruct (in_dec _ _ (map slot_of_group (dup :: dups))) as [_|N];
      [|exfalso; apply N; left; exact Ek].
    destruct (in_dec _ _ (map slot_of_group dups)); reflexivity.
  - rewrite (sweep_other_slot phone date time dup rows Hnd Nk).
    destruct (in_dec _ _ (map slot_of_group dups)) as [I|N];
      destruct (in_dec _ _ (map slot_of_group (dup :: dups))) as [I'|N'];
      try reflexivity.
    + exfalso. apply N'. right. exact I.
    + exfalso. destruct I' as [E|I']; [apply Nk, E | apply N, I'].
Qed.

(** The groups the check reports are the slots with more than one active
    record. *)
Lemma duplicate_groups_slots phone date time (w : World) :
  In (phone, date, time) (map slot_of_group (select_duplicate_groups w))
  <-> (1 < List.length (active_at phone date time (appointments w)))%nat.
Proof.
  unfold select_duplicate_groups. split.
  - intros H. apply in_map_iff in H. destruct H as [dup [Ek Hin]].
    apply in_flat_map in Hin. destruct Hin as [[[p d] t] [_ Hin]].
    rewrite active_of_slot in Hin.
    destruct (1 <? List.length (active_at p d t (appointments w)))%nat eqn:L;
      [|destruct Hin].
    destruct Hin as [<-|[]]. unfold slot_of_group in Ek. cbn in Ek.
    injection Ek as -> -> ->. apply Nat.ltb_lt, L.
  - intros L.
    destruct (active_at phone date time (appointments w)) as [|a rest] eqn:E;
      [cbn in L; lia|].
    assert (Ha : In a (active_at phone date time (appointments w)))
      by (rewrite E; left; reflexivity).
    apply filter_In in Ha. destruct Ha as [Ha Hs]. apply andb_prop in Hs.
    destruct Hs as [Hs Hact].
    assert (Ek : slot_of a = (phone, date, time))
      by (unfold slot_of; exact (same_slot_eq _ _ _ _ _ _ a (same_slot_refl a) Hs)).
    apply in_map_iff.
    exists {| DuplicateGroup.patient_phone := phone;
              DuplicateGroup.appointment_date := date;
              DuplicateGroup.appointment_time := time;
              DuplicateGroup.count :=
                List.length (active_at phone date time (appointments w)) |}.
    split; [reflexivity|].
    apply in_flat_map. exists (phone, date, time). split.
    + rewrite <- Ek. apply distinct_slots_complete. apply filter_In. split; assumption.
    + rewrite active_of_slot.
      replace (1 <? _)%nat with true by (symmetry; apply Nat.ltb_lt; rewrite E; exact L).
      rewrite E. left. reflexivity.
Qed.

Lemma no_duplicate_groups (w : World) :
  (forall phone date time,
      (List.length (active_at phone date time (appointments w)) <= 1)%nat) ->
  select_duplicate_groups w = [].
Proof.
  intros H. unfold select_duplicate_groups. apply flat_map_nil.
  intros [[p d] t] _. rewrite active_of_slot.
  replace (1 <? _)%nat with false; [reflexivity|].
  symmetry. apply Nat.ltb_ge, H.
Qed.

Section StoreSweepResult.

Variable env : Env.

Hypothesis sqlite_works : forall n, sqlite_fails env n = false.


Lemma swept_one_active_per_slot (w : World) phone date time :
  NoDup (map Appointment.id (appointments w)) ->
  (List.length (active_at phone date time
                          (appointments (after (cleanDbDuplicates env) w))) <= 1)%nat.
Proof.
  intros Hnd. unfold active_at. rewrite filter_and.
  rewrite (cleanDbDuplicates_rows env sqlite_works w).
  fold (swept (select_duplicate_groups w) (appointments w)).
  rewrite (swept_slot_rows phone date time _ _ Hnd).
  destruct (in_dec _ _ _) as [I|N].
  - eapply Nat.le_trans; [apply filter_length_le|].
    destruct (order_by_created _); cbn; lia.
  - rewrite <- filter_and. fold (active_at phone date time (appointments w)).
    destruct (Nat.le_gt_cases
                (List.length (active_at phone date time (appointments w))) 1)
      as [L|L]; [exact L|].
    exfalso. apply N, duplicate_groups_slots, L.
Qed.

(** X11.  The sweep converges.  After [cleanDbDuplicates], [checkDbDuplicates]
    reports no group, and a second [cleanDbDuplicates] deletes nothing and
    resolves with 0. *)
Theorem store_sweep_converges (w : World) :
  NoDup (map Appointment.id (appointments w)) ->
  let w' := after (cleanDbDuplicates env) w in
  outcome (checkDbDuplicates env) w' = Return []
  /\ outcome (cleanDbDuplicates env) w' = Return 0%nat
  /\ appointments (after (cleanDbDuplicates env) w') = appointments w'.
Proof.
  intros Hnd w'.
  assert (E : select_duplicate_groups w' = []).
  { apply no_duplicate_groups. intros phone date time.
    apply swept_one_active_per_slot, Hnd. }
  unfold outcome, after, cleanDbDuplicates, checkDbDuplicates, bind.
  rewrite (db_query_ok env _ w' (sqlite_works _)), E.
  repeat split; reflexivity.
Qed.

Lemma sweep_slot_length dup rows :
  NoDup (map Appointment.id rows) ->
  (List.length (sweep_slot dup rows)
   + List.length
       (tl (map Appointment.id
                (order_by_created
                   (filter (same_slot (DuplicateGroup.patient_phone dup)
                                      (DuplicateGroup.appointment_date dup)
                                      (DuplicateGroup.appointment_time dup)) rows))))
   = List.length rows)%nat.
Proof.
  intros Hnd.
  rewrite <- (filter_partition (in_slot (slot_of_group dup)) (sweep_slot dup rows)).
  rewrite <- (filter_partition (in_slot (slot_of_group dup)) rows).
  rewrite (sweep_slot_outside dup rows Hnd).
  assert (Q : forall l,
             filter (in_slot (slot_of_group dup)) l
             = filter (same_slot (DuplicateGroup.patient_phone dup)
                                 (DuplicateGroup.appointment_date dup)
                                 (DuplicateGroup.appointment_time dup)) l)
    by reflexivity.
  rewrite (Q rows), (Q (sweep_slot dup rows)). rewrite (sweep_slot_own _ _ _ dup rows Hnd eq_refl).
  pose proof (Permutation_length
                (order_by_created_perm
                   (filter (same_slot (DuplicateGroup.patient_phone dup)
                                      (DuplicateGroup.appointment_date dup)
                                      (DuplicateGroup.appointment_time dup)) rows)))
    as Hlen.
  destruct (order_by_created _) as [|o rest]; cbn [List.length] in Hlen;
    rewrite <- Hlen; cbn [firstn map tl List.length]; [lia|].
  rewrite length_map. lia.
Qed.

Lemma clean_group_count (total : nat) (dup : DuplicateGroup.t) (w : World) :
  NoDup (map Appointment.id (appointments w)) ->
  exists total' w',
    clean_group env total dup w = (Return total', w')
    /\ appointments w' = sweep_slot dup (appointments w)
    /\ (total' + List.length (appointments w')
        = total + List.length (appointments w))%nat.
Proof.
  intros Hnd. pose proof (sweep_slot_length dup (appointments w) Hnd) as Hlen.
  fold (select_slot_records dup w) in Hlen.
  unfold clean_group. unfold bind at 1.
  rewrite (db_query_ok env _ w (sqlite_works _)).
  destruct (0 <? List.length (tl (select_slot_records dup w)))%nat eqn:L.
  - unfold bind.
    rewrite (db_run_ok env _ (tick w) _ _ (sqlite_works _) eq_refl).
    eexists _, _. split; [reflexivity|].
    cbn [tick set_appointments appointments].
    split; [reflexivity|].
    change (total + List.length (tl (select_slot_records dup w))
            + List.length (sweep_slot dup (appointments w))
            = total + List.length (appointments w))%nat.
    lia.
  - apply Nat.ltb_ge in L.
    assert (Z : List.length (tl (select_slot_records dup w)) = 0%nat) by lia.
    assert (Same : sweep_slot dup (appointments w) = appointments w).
    { unfold sweep_slot. fold (select_slot_records dup w).
      apply length_zero_iff_nil in Z. rewrite Z. apply filter_all_true. reflexivity. }
    eexists _, _. split; [reflexivity|]. cbn [tick appointments].
    split; [symmetry; exact Same | reflexivity].
Qed.

Lemma clean_groups_count dups : forall (total : nat) (w : World),
  NoDup (map Appointment.id (appointments w)) ->
  exists total' w',
    fold_of dups total (clean_group env) w = (Return total', w')
    /\ (total' + List.length (appointments w')
        = total + List.length (appointments w))%nat.
Proof.
  induction dups as [|dup dups IH]; intros total w Hnd; cbn [fold_of].
  - exists total, w. split; reflexivity.
  - unfold bind.
    destruct (clean_group_count total dup w Hnd) as [t1 [w1 [E [R C]]]]. rewrite E.
    assert (Hnd1 : NoDup (map Appointment.id (appointments w1)))
      by (rewrite R; apply NoDup_ids_filter, Hnd).
    destruct (IH t1 w1 Hnd1) as [t2 [w2 [E2 C2]]].
    exists t2, w2. split; [exact E2 | lia].
Qed.

(** X12.  The number [cleanDbDuplicates] resolves with is the number of records
    it has removed from the table. *)
Theorem store_sweep_counts_deleted (w : World) :
  NoDup (map Appointment.id (appointments w)) ->
  exists totalDeleted,
    outcome (cleanDbDuplicates env) w = Return totalDeleted
    /\ (totalDeleted
        + List.length (appointments (after (cleanDbDuplicates env) w))
        = List.length (appointments w))%nat.
Proof.
  intros Hnd. unfold outcome, after, cleanDbDuplicates, checkDbDuplicates.
  unfold bind. rewrite (db_query_ok env _ w (sqlite_works _)).
  destruct (List.length (select_duplicate_groups w) =? 0)%nat.
  - exists 0%nat. split; reflexivity.
  - destruct (clean_groups_count (select_duplicate_groups w) 0%nat (tick w) Hnd)
      as [t [w' [E C]]].
    rewrite E. exists t. split; [reflexivity | exact C].
Qed.

End StoreSweepResult.

(** ** server.js: the scheduled sync *)

(** X13.  The timers of the server take the gate themselves and then call
    [performFullSync], whose own [start()] is therefore refused.  So the
    scheduled sync and the initial sync never reach the calendar and never
    change a record, whatever the state they run in: either the timer's
    [start()] is refused and it returns, or it is granted and
    [performFullSync] returns at once. *)
Theorem scheduled_sync_never_syncs (env : Env) (w : World) :
  outcome (periodicSync env) w = Return tt
  /\ calls (after (periodicSync env) w) = calls w
  /\ appointments (after (periodicSync env) w) = appointments w
  /\ patients (after (periodicSync env) w) = patients w.
Proof.
  assert (R : exists w', periodicSync env w = (Return tt, w')
                         /\ calls w' = calls w
                         /\ appointments w' = appointments w
                         /\ patients w' = patients w).
  { unfold periodicSync, try_catch. unfold bind at 1.
    unfold getStatus at 1, bind at 1, Date_now at 1, ret at 1.
    unfold bind at 1.
    destruct (start_cases env (tick w)) as [E|[s [E Hs]]]; rewrite E; cbn [negb].
    - eexists. split; [reflexivity|]. repeat split.
    - unfold bind at 1, Date_now at 1. unfold bind at 1.
      match goal with
      | |- context [performFullSync env ?x] =>
        rewrite (performFullSync_refused env x Hs)
      end.
      eexists. split; [reflexivity|]. repeat split. }
  destruct R as [w' [E [C [A P]]]]. unfold outcome, after. rewrite E.
  repeat split; assumption.
Qed.

(** ** maintenance.js: how the events are grouped *)

(** The events a table of slots holds under a key. *)
Definition slot_events (key : string) (timeSlots : list (string * list CalendarEvent.t))
  : list CalendarEvent.t :=
  match Map_get key timeSlots with
  | Some slotEvents => slotEvents
  | None => []
  end.

Definition has_key (key : string) (event : CalendarEvent.t) : bool :=
  option_string_eqb (slot_key event) (Some key).

Lemma slot_events_push_same key event timeSlots :
  slot_events key (push_slot key event timeSlots)
  = (slot_events key timeSlots ++ [event])%list.
Proof.
  unfold slot_events. induction timeSlots as [|[k l] rest IH]; cbn.
  - rewrite String.eqb_refl. reflexivity.
  - destruct (String.eqb k key) eqn:E; cbn; rewrite E; [reflexivity | exact IH].
Qed.

Lemma slot_events_push_other key k event timeSlots :
  k <> key ->
  slot_events k (push_slot key event timeSlots) = slot_events k timeSlots.
Proof.
  intros N. unfold slot_events. induction timeSlots as [|[k0 l] rest IH]; cbn.
  - destruct (String.eqb_spec key k); [congruence | reflexivity].
  - destruct (String.eqb_spec k0 key); cbn.
    + subst k0. destruct (String.eqb_spec key k); [congruence | reflexivity].
    + destruct (String.eqb k0 k); [reflexivity | exact IH].
Qed.

Lemma push_slot_keys key event timeSlots k :
  In k (map fst (push_slot key event timeSlots)) <->
  k = key \/ In k (map fst timeSlots).
Proof.
  induction timeSlots as [|[k0 l] rest IH]; cbn.
  - split; [intros [H|[]]; left; congruence | intros [H|[]]; left; congruence].
  - destruct (String.eqb_spec k0 key); cbn.
    + subst k0. intuition congruence.
    + rewrite IH. intuition congruence.
Qed.

Lemma push_slot_NoDup key event timeSlots :
  NoDup (map fst timeSlots) -> NoDup (map fst (push_slot key event timeSlots)).
Proof.
  induction timeSlots as [|[k0 l] rest IH]; cbn; intros H.
  - constructor; [intros [] | constructor].
  - inversion H as [|? ? Hn Hd]; subst.
    destruct (String.eqb_spec k0 key); cbn.
    + constructor; assumption.
    + constructor; [|apply IH, Hd].
      intros Hin. apply push_slot_keys in Hin. destruct Hin as [Hin|Hin];
        [congruence | contradiction].
Qed.

Lemma slot_events_In key slotEvents timeSlots :
  NoDup (map fst timeSlots) -> In (key, slotEvents) timeSlots ->
  slot_events key timeSlots = slotEvents.
Proof.
  unfold slot_events.
  induction timeSlots as [|[k0 l] rest IH]; cbn; intros Hnd Hin; [destruct Hin|].
  inversion Hnd as [|? ? Hn Hd]; subst.
  destruct Hin as [E|Hin].
  - injection E as -> ->. rewrite String.eqb_refl. reflexivity.
  - destruct (String.eqb_spec k0 key); [|apply IH; assumption].
    subst k0. exfalso. apply Hn. apply (in_map fst) in Hin. exact Hin.
Qed.

Lemma has_key_slot_key key event :
  has_key key event = true <-> slot_key event = Some key.
Proof.
  unfold has_key, option_string_eqb. destruct (slot_key event) as [k|].
  - rewrite String.eqb_eq. split; congruence.
  - split; discriminate.
Qed.

Lemma group_events_slots events : forall timeSlots grouped,
  group_events events timeSlots = Some grouped ->
  NoDup (map fst timeSlots) ->
  NoDup (map fst grouped)
  /\ (forall key, slot_events key grouped
                  = (slot_events key timeSlots ++ filter (has_key key) events)%list)
  /\ (forall key, In key (map fst grouped) ->
                  In key (map fst timeSlots)
                  \/ exists event, In event events /\ slot_key event = Some key)
  /\ (forall event, In event events -> exists key, slot_key event = Some key).
Proof.
  induction events as [|event events IH]; intros timeSlots grouped;
    cbn [group_events].
  - intros E Hnd. injection E as <-. split; [exact Hnd|]. split.
    + intros key. rewrite app_nil_r. reflexivity.
    + split; [intros key H; left; exact H | intros event []].
  - destruct (slot_key event) as [k|] eqn:K; [|discriminate].
    destruct (Set_has k prototype_keys); [discriminate|].
    intros E Hnd.
    destruct (IH _ _ E (push_slot_NoDup k event timeSlots Hnd))
      as (Hnd' & Hslots & Hkeys & Hall).
    split; [exact Hnd'|]. split; [|split].
    + intros key. rewrite Hslots. cbn [filter].
      destruct (String.eqb_spec k key) as [->|N].
      * rewrite slot_events_push_same.
        replace (has_key key event) with true
          by (symmetry; apply has_key_slot_key, K).
        rewrite <- app_assoc. reflexivity.
      * rewrite (slot_events_push_other k key event timeSlots)
          by (intros ->; apply N; reflexivity).
        replace (has_key key event) with false; [reflexivity|].
        symmetry. destruct (has_key key event) eqn:H; [|reflexivity].
        apply has_key_slot_key in H. congruence.
    + intros key Hin. destruct (Hkeys key Hin) as [H|[e [He Hk]]].
      * apply push_slot_keys in H. destruct H as [->|H]; [|left; exact H].
        right. exists event. split; [left; reflexivity | exact K].
      * right. exists e. split; [right; exact He | exact Hk].
    + intros e [<-|He]; [exists k; exact K | apply Hall, He].
Qed.

Lemma grouped_slot_filter events grouped key slotEvents :
  group_events events [] = Some grouped -> In (key, slotEvents) grouped ->
  slotEvents = filter (has_key key) events.
Proof.
  intros E Hin.
  destruct (group_events_slots events [] grouped E (NoDup_nil _))
    as (Hnd & Hslots & _).
  rewrite <- (slot_events_In key slotEvents grouped Hnd Hin). apply Hslots.
Qed.

Lemma grouped_slot_not_empty events grouped key slotEvents :
  group_events events [] = Some grouped -> In (key, slotEvents) grouped ->
  slotEvents <> [].
Proof.
  intros E Hin.
  pose proof (grouped_slot_filter events grouped key slotEvents E Hin) as Es.
  destruct (group_events_slots events [] grouped E (NoDup_nil _))
    as (_ & _ & Hkeys & _).
  destruct (Hkeys key (in_map fst _ _ Hin)) as [[]|[e [He Hk]]].
  intros Hnil. rewrite Hnil in Es.
  assert (Hf : In e (filter (has_key key) events))
    by (apply filter_In; split; [exact He | apply has_key_slot_key, Hk]).
  rewrite <- Es in Hf. exact Hf.
Qed.

(** X14.  [group_events] is a partition of the listing by date and minute: the
    keys are distinct, every slot holds exactly the events that spell its
    key, in the order of the listing, so no slot is empty and every event
    is in the slot of its key. *)
Theorem grouping_partitions_the_listing
  (events : list CalendarEvent.t) (grouped : list (string * list CalendarEvent.t)) :
  group_events events [] = Some grouped ->
  NoDup (map fst grouped)
  /\ (forall key slotEvents,
         In (key, slotEvents) grouped ->
         slotEvents <> []
         /\ slotEvents = filter (has_key key) events)
  /\ (forall event,
         In event events ->
         exists key slotEvents,
           slot_key event = Some key /\ In (key, slotEvents) grouped
           /\ In event slotEvents).
Proof.
  intros E.
  destruct (group_events_slots events [] grouped E (NoDup_nil _))
    as (Hnd & Hslots & Hkeys & Hall).
  split; [exact Hnd|]. split.
  - intros key slotEvents Hin. split.
    + apply (grouped_slot_not_empty events grouped key slotEvents E Hin).
    + apply (grouped_slot_filter events grouped key slotEvents E Hin).
  - intros event Hin. destruct (Hall event Hin) as [key K].
    assert (Hf : In event (slot_events key grouped)).
    { rewrite Hslots. cbn [slot_events Map_get app]. apply filter_In.
      split; [exact Hin | apply has_key_slot_key, K]. }
    unfold slot_events in Hf.
    destruct (Map_get key grouped) as [slotEvents|] eqn:G; [|destruct Hf].
    exists key, slotEvents. split; [exact K|]. split; [|exact Hf].
    clear - G. induction grouped as [|[k0 l] rest IH]; cbn in G; [discriminate|].
    destruct (String.eqb_spec k0 key).
    + injection G as <-. subst. left. reflexivity.
    + right. apply IH, G.
Qed.

(** ** maintenance.js: what the calendar sweep leaves *)

(** The events of a slot the sweep asks the provider to delete, and the
    one it keeps. *)
Definition doomed (validEventIds : list string) (slotEvents : list CalendarEvent.t)
  : list CalendarEvent.t :=
  let valid e := Set_has (CalendarEvent.id e) validEventIds in
  if (List.length slotEvents <=? 1)%nat then []
  else if existsb valid slotEvents
       then (filter (fun e => negb (valid e)) slotEvents
             ++ tl (filter valid slotEvents))%list
       else tl slotEvents.

Definition kept_event (validEventIds : list string)
  (slotEvents : list CalendarEvent.t) : option CalendarEvent.t :=
  hd_error (filter (fun e => Set_has (CalendarEvent.id e) validEventIds) slotEvents
            ++ slotEvents).

Lemma map_tl {A B} (f : A -> B) (l : list A) : map f (tl l) = tl (map f l).
Proof. destruct l; reflexivity. Qed.

Lemma deletions_doomed validEventIds entry :
  deletions validEventIds entry
  = map cancel_call (doomed validEventIds (snd entry)).
Proof.
  unfold deletions, doomed.
  destruct (List.length (snd entry) <=? 1)%nat; [reflexivity|].
  destruct (existsb _ (snd entry)); [|reflexivity].
  rewrite map_app. reflexivity.
Qed.

Lemma filter_split_perm {A} (f : A -> bool) (l : list A) :
  Permutation l (filter f l ++ filter (fun x => negb (f x)) l).
Proof.
  induction l as [|x l IH]; [apply Permutation_refl|].
  cbn [filter]. destruct (f x); cbn [negb app].
  - apply perm_skip, IH.
  - eapply Permutation_trans; [apply perm_skip, IH|]. apply Permutation_middle.
Qed.

Lemma existsb_filter_nonempty {A} (f : A -> bool) (l : list A) :
  existsb f l = true -> filter f l <> [].
Proof.
  intros H E. apply existsb_exists in H. destruct H as [x [Hx Fx]].
  assert (Hin : In x (filter f l)) by (apply filter_In; split; assumption).
  rewrite E in Hin. exact Hin.
Qed.

(** Of a slot that is not empty the sweep keeps one event, the first valid
    one if there is one and the first one otherwise, and asks for every
    other event to be deleted, once. *)
Lemma doomed_all_but_kept validEventIds slotEvents :
  slotEvents <> [] ->
  exists keeper,
    kept_event validEventIds slotEvents = Some keeper
    /\ Permutation slotEvents (keeper :: doomed validEventIds slotEvents).
Proof.
  intros Hne. unfold kept_event, doomed.
  set (valid := fun e => Set_has (CalendarEvent.id e) validEventIds).
  destruct slotEvents as [|first rest]; [contradiction|].
  destruct rest as [|second rest].
  - cbn [List.length Nat.leb]. exists first. split.
    + cbn [filter]. destruct (valid first); reflexivity.
    + apply Permutation_refl.
  - cbn [List.length Nat.leb].
    destruct (existsb valid (first :: second :: rest)) eqn:V.
    + pose proof (existsb_filter_nonempty valid _ V) as Hv.
      destruct (filter valid (first :: second :: rest)) as [|v vs] eqn:F;
        [contradiction|].
      exists v. split; [reflexivity|]. cbn [tl].
      eapply Permutation_trans; [apply (filter_split_perm valid)|].
      rewrite F. cbn [app]. apply perm_skip, Permutation_app_comm.
    + assert (F : filter valid (first :: second :: rest) = []).
      { apply filter_none. intros x Hx. destruct (valid x) eqn:Vx; [|reflexivity].
        assert (existsb valid (first :: second :: rest) = true)
          by (apply existsb_exists; exists x; split; assumption).
        congruence. }
      rewrite F. exists first. split; [reflexivity | apply Permutation_refl].
Qed.

Section CalendarSweepResult.

Variable env : Env.

Hypothesis authenticated : forall n, authenticates env n = true.
Hypothesis sqlite_works : forall n, sqlite_fails env n = false.
Hypothesis tokens_work : forall n, tokens_valid env n = true.
Hypothesis deletes_accepted : forall n, events_delete env n = true.

Lemma clean_slot_count validEventIds total entry (w : World) :
  exists w',
    clean_slot env validEventIds total entry w
    = (Return (total + List.length (doomed validEventIds (snd entry)))%nat, w').
Proof.
  unfold clean_slot, doomed.
  destruct (List.length (snd entry) <=? 1)%nat.
  - exists w. unfold ret. do 2 f_equal. cbn. lia.
  - rewrite positive_length_existsb.
    destruct (existsb _ (snd entry)).
    + unfold bind.
      destruct (cancel_each_exact env tokens_work deletes_accepted
                  (filter (fun e => negb (Set_has (CalendarEvent.id e) validEventIds))
                          (snd entry)) total w) as [w1 [E1 _]].
      rewrite E1. rewrite length_app.
      destruct (1 <? List.length _)%nat eqn:L.
      * match goal with
        | |- context [cancel_each env ?l ?t w1] =>
          destruct (cancel_each_exact env tokens_work deletes_accepted l t w1)
            as [w2 [E2 _]]
        end.
        rewrite E2. exists w2. do 2 f_equal. lia.
      * exists w1. unfold ret. do 2 f_equal.
        apply Nat.ltb_ge in L.
        destruct (filter (fun e => Set_has (CalendarEvent.id e) validEventIds)
                         (snd entry)) as [|v [|v' vs]]; cbn in *; lia.
    + destruct (cancel_each_exact env tokens_work deletes_accepted
                  (tl (snd entry)) total w) as [w1 [E1 _]].
      exists w1. rewrite E1. do 2 f_equal. lia.
Qed.

Lemma sweep_fold_count validEventIds timeSlots : forall total w,
  exists w',
    fold_of timeSlots total (clean_slot env validEventIds) w
    = (Return (total
               + List.length (flat_map (doomed validEventIds) (map snd timeSlots)))%nat,
       w').
Proof.
  induction timeSlots as [|entry timeSlots IH]; intros total w;
    cbn [fold_of flat_map map].
  - exists w. unfold ret. do 2 f_equal. cbn. lia.
  - unfold bind.
    destruct (clean_slot_count validEventIds total entry w) as [w1 E1]. rewrite E1.
    destruct (IH (total + List.length (doomed validEventIds (snd entry)))%nat w1)
      as [w2 E2].
    exists w2. rewrite E2. do 2 f_equal. rewrite length_app. lia.
Qed.

Lemma cleanCalendarDuplicates_count (events : list CalendarEvent.t) timeSlots
  (w : World) :
  (forall n, events_list env n = Some events) ->
  group_events events [] = Some timeSlots ->
  outcome (cleanCalendarDuplicates env) w
  = Return (List.length
              (flat_map (doomed (valid_ids (select_scheduled_with_event w)))
                        (map snd timeSlots))).
Proof.
  intros Hlist Hgroup.
  unfold outcome, cleanCalendarDuplicates, try_catch. unfold bind at 1.
  unfold authenticate, bind at 1, enter. rewrite authenticated. cbn [log_call].
  unfold bind at 1. rewrite (db_query_ok env _ _ (sqlite_works _)).
  unfold bind at 1.
  rewrite (getUpcomingAppointments_ok env events 30 _ tokens_work Hlist).
  rewrite Hgroup.
  match goal with
  | |- context [fold_of timeSlots 0%nat (clean_slot env ?v) ?x] =>
    destruct (sweep_fold_count v timeSlots 0%nat x) as [w' E]
  end.
  rewrite E. reflexivity.
Qed.

(** X15.  When every call succeeds the calendar sweep leaves one event in every
    slot of the listing: the first valid event of the slot, or its first
    event when none is valid.  Every other event of the listing is
    cancelled once, slot after slot, and the number the sweep resolves with
    is the number of events it has cancelled. *)
Theorem calendar_sweep_leaves_one_per_slot
  (w : World) (events : list CalendarEvent.t)
  (timeSlots : list (string * list CalendarEvent.t)) :
  (forall n, events_list env n = Some events) ->
  group_events events [] = Some timeSlots ->
  let validEventIds := valid_ids (select_scheduled_with_event w) in
  let cancelled := flat_map (doomed validEventIds) (map snd timeSlots) in
  outcome (cleanCalendarDuplicates env) w = Return (List.length cancelled)
  /\ calls (after (cleanCalendarDuplicates env) w)
     = (calls w ++ [CallAuthenticate; CallGetUpcomingAppointments 30]
        ++ map cancel_call cancelled)%list
  /\ forall key slotEvents,
       In (key, slotEvents) timeSlots ->
       exists keeper,
         kept_event validEventIds slotEvents = Some keeper
         /\ Permutation slotEvents (keeper :: doomed validEventIds slotEvents).
Proof.
  intros Hlist Hgroup validEventIds cancelled.
  split; [apply (cleanCalendarDuplicates_count events timeSlots w Hlist Hgroup)|].
  split.
  - rewrite (cleanCalendarDuplicates_calls env authenticated sqlite_works tokens_work
               deletes_accepted events timeSlots w Hlist Hgroup).
    do 2 f_equal. fold validEventIds. subst cancelled.
    clear. induction timeSlots as [|entry rest IH]; [reflexivity|].
    cbn [flat_map map]. rewrite map_app, IH, deletions_doomed. reflexivity.
  - intros key slotEvents Hin. apply doomed_all_but_kept.
    apply (grouped_slot_not_empty events timeSlots key slotEvents Hgroup Hin).
Qed.

End CalendarSweepResult.

(** ** maintenance.js: the calendar check and the calendar sweep agree *)




Section CalendarCheck.

Variable env : Env.

Hypothesis authenticated : forall n, authenticates env n = true.
Hypothesis tokens_work : forall n, tokens_valid env n = true.

Lemma checkCalendarDuplicates_run (events : list CalendarEvent.t) timeSlots
  (w : World) :
  (forall n, events_list env n = Some events) ->
  group_events events [] = Some timeSlots ->
  exists w',
    checkCalendarDuplicates env w = (Return (duplicate_slots timeSlots), w')
    /\ calls w' = (calls w ++ [CallAuthenticate; CallGetUpcomingAppointments 30])%list
    /\ appointments w' = appointments w.
Proof.
  intros Hlist Hgroup.
  unfold checkCalendarDuplicates, try_catch. unfold bind at 1.
  unfold authenticate, bind at 1, enter. rewrite authenticated. cbn [log_call].
  unfold bind at 1.
  rewrite (getUpcomingAppointments_ok env events 30 _ tokens_work Hlist).
  rewrite Hgroup. eexists. split; [reflexivity|]. split; [|reflexivity].
  change (calls (Nat.iter 4 tick
                   (log_call (CallGetUpcomingAppointments 30)
                      (tick (log_call CallAuthenticate w)))))
    with ((calls w ++ [CallAuthenticate]) ++ [CallGetUpcomingAppointments 30])%list.
  rewrite <- app_assoc. reflexivity.
Qed.


End CalendarCheck.

(** ** src/appointmentBot.js, src/googleCalendar.js: phone numbers *)

Lemma length_append (s1 s2 : string) :
  String.length (s1 ++ s2) = (String.length s1 + String.length s2)%nat.
Proof. induction s1 as [|c s1 IH]; cbn; [reflexivity | rewrite IH; reflexivity]. Qed.

Lemma all_digits_append (s1 s2 : string) :
  all_digits (s1 ++ s2) = all_digits s1 && all_digits s2.
Proof.
  induction s1 as [|c s1 IH]; cbn; [reflexivity|].
  rewrite IH, andb_assoc. reflexivity.
Qed.

Lemma length_drop (n : nat) : forall s,
  String.length (drop n s) = (String.length s - n)%nat.
Proof.
  induction n as [|n IH]; intros s; cbn; [lia|].
  destruct s as [|c s]; cbn; [reflexivity | apply IH].
Qed.

Lemma all_digits_drop (n : nat) : forall s,
  all_digits s = true -> all_digits (drop n s) = true.
Proof.
  induction n as [|n IH]; intros s H; cbn; [exact H|].
  destruct s as [|c s]; [reflexivity|].
  cbn in H. apply andb_prop in H. apply IH, H.
Qed.

(** A pattern that starts with a character that is no digit does not
    occur in a run of digits. *)
Lemma remove_first_digits (c0 : ascii) (rest s : string) :
  is_some (digit c0) = false -> all_digits s = true ->
  remove_first (String c0 rest) s = s.
Proof.
  intros Hc. induction s as [|c s IH]; intros H; [reflexivity|].
  cbn [all_digits] in H. apply andb_prop in H. destruct H as [Dc Ds].
  cbn [remove_first String.prefix].
  destruct (ascii_dec c0 c) as [->|N]; [congruence|].
  rewrite (IH Ds). reflexivity.
Qed.

Lemma remove_suffix_of_digits (n : string) :
  all_digits n = true -> remove_first "@c.us" (n ++ "@c.us") = n.
Proof.
  induction n as [|c n IH]; intros H; [reflexivity|].
  cbn [all_digits] in H. apply andb_prop in H. destruct H as [Dc Dn].
  cbn [append remove_first String.prefix].
  destruct (ascii_dec "@" c) as [<-|N]; [discriminate Dc|].
  rewrite (IH Dn). reflexivity.
Qed.

Lemma length_ten_not_empty (s : string) :
  String.length s = 10%nat -> String.eqb s "" = false.
Proof. destruct s; [discriminate | reflexivity]. Qed.

Lemma cleanPhoneNumber_cases (phoneNumber : string) :
  cleanPhoneNumber phoneNumber = phoneNumber
  \/ (String.length (cleanPhoneNumber phoneNumber) = 10%nat
      /\ all_digits (cleanPhoneNumber phoneNumber) = true).
Proof.
  unfold cleanPhoneNumber.
  destruct (String.eqb phoneNumber ""); [left; reflexivity|].
  match goal with |- context [if ?b then _ else _] => destruct b eqn:E end;
    [|left; reflexivity].
  right. apply andb_prop in E. destruct E as [L D].
  apply Nat.eqb_eq in L. split; assumption.
Qed.

Lemma cleanPhoneNumber_digits (s : string) :
  all_digits s = true ->
  cleanPhoneNumber s
  = if (String.length s =? 10)%nat then s
    else if (String.length s =? 12)%nat then drop 2 s
         else s.
Proof.
  intros D. unfold cleanPhoneNumber.
  destruct (String.eqb_spec s "") as [->|N]; [reflexivity|].
  rewrite (remove_first_digits "@" "c.us" s eq_refl D).
  rewrite (remove_first_digits "w" "hatsapp:" s eq_refl D).
  destruct (Nat.ltb_spec 10 (String.length s)) as [L|L].
  - rewrite length_drop, (all_digits_drop 2 s D), andb_true_r.
    destruct (Nat.eqb_spec (String.length s) 10) as [E|_]; [lia|].
    destruct (Nat.eqb_spec (String.length s) 12) as [E|E].
    + replace (String.length s - 2 =? 10)%nat with true
        by (symmetry; apply Nat.eqb_eq; lia).
      reflexivity.
    + replace (String.length s - 2 =? 10)%nat with false
        by (symmetry; apply Nat.eqb_neq; lia).
      reflexivity.
  - rewrite D, andb_true_r.
    destruct (Nat.eqb_spec (String.length s) 10) as [E|E]; [reflexivity|].
    destruct (Nat.eqb_spec (String.length s) 12) as [E'|_]; [lia | reflexivity].
Qed.

Lemma cleanPhoneNumber_idempotent (phoneNumber : string) :
  cleanPhoneNumber (cleanPhoneNumber phoneNumber) = cleanPhoneNumber phoneNumber.
Proof.
  destruct (cleanPhoneNumber_cases phoneNumber) as [E|[L D]].
  - rewrite E. exact E.
  - rewrite (cleanPhoneNumber_digits _ D), L. reflexivity.
Qed.

(** X17.  [cleanPhoneNumber] gives a normal form: its result is the text it was
    given or a run of ten digits, and cleaning the result again changes
    nothing. *)
Theorem cleaning_a_phone_number_twice (phoneNumber : string) :
  (cleanPhoneNumber phoneNumber = phoneNumber
   \/ (String.length (cleanPhoneNumber phoneNumber) = 10%nat
       /\ all_digits (cleanPhoneNumber phoneNumber) = true))
  /\ cleanPhoneNumber (cleanPhoneNumber phoneNumber) = cleanPhoneNumber phoneNumber.
Proof.
  split; [apply cleanPhoneNumber_cases | apply cleanPhoneNumber_idempotent].
Qed.

(** X18.  The sender id of a WhatsApp message, a run of digits followed by
    [@c.us]: ten digits are kept, of twelve digits the first two go, and
    an id of any other length comes back as it was, suffix included.  So
    only a country code of two digits is removed. *)
Theorem cleaning_a_whatsapp_id (number : string) :
  all_digits number = true ->
  cleanPhoneNumber (number ++ "@c.us")
  = if (String.length number =? 10)%nat then number
    else if (String.length number =? 12)%nat then drop 2 number
         else (number ++ "@c.us")%string.
Proof.
  intros D. unfold cleanPhoneNumber.
  assert (N : String.eqb (number ++ "@c.us") "" = false)
    by (destruct number; reflexivity).
  rewrite N, (remove_suffix_of_digits number D).
  rewrite (remove_first_digits "w" "hatsapp:" number eq_refl D).
  destruct (Nat.ltb_spec 10 (String.length number)) as [L|L].
  - rewrite length_drop, (all_digits_drop 2 number D), andb_true_r.
    destruct (Nat.eqb_spec (String.length number) 10) as [E|_]; [lia|].
    destruct (Nat.eqb_spec (String.length number) 12) as [E|E].
    + replace (String.length number - 2 =? 10)%nat with true
        by (symmetry; apply Nat.eqb_eq; lia).
      reflexivity.
    + replace (String.length number - 2 =? 10)%nat with false
        by (symmetry; apply Nat.eqb_neq; lia).
      reflexivity.
  - rewrite D, andb_true_r.
    destruct (Nat.eqb_spec (String.length number) 10) as [E|E]; [reflexivity|].
    destruct (Nat.eqb_spec (String.length number) 12) as [E'|_]; [lia | reflexivity].
Qed.

(** X19.  Round trip through the calendar.  The number an event carries for a
    cleaned number cleans back to it: [createAppointment] puts [91] before
    a number of ten digits, and [cleanPhoneNumber] takes it off again. *)
Theorem phone_survives_the_calendar (phoneNumber : string) :
  cleanPhoneNumber (formattedPhone (cleanPhoneNumber phoneNumber))
  = cleanPhoneNumber phoneNumber.
Proof.
  unfold formattedPhone.
  destruct ((String.length (cleanPhoneNumber phoneNumber) =? 10)%nat
            && all_digits (cleanPhoneNumber phoneNumber)) eqn:E.
  - apply andb_prop in E. destruct E as [L D]. apply Nat.eqb_eq in L.
    assert (D' : all_digits ("91" ++ cleanPhoneNumber phoneNumber) = true)
      by (rewrite all_digits_append, D; reflexivity).
    rewrite (cleanPhoneNumber_digits _ D'), length_append, L. reflexivity.
  - apply cleanPhoneNumber_idempotent.
Qed.

(** ** src/appointmentBot.js: patients *)

Lemma named_patients (name phoneNumber k : string) (l : list Patient.t) :
  filter (fun p => String.eqb (Patient.phone p) k)
         (map (fun p => if String.eqb (Patient.phone p) phoneNumber
                        then {| Patient.phone := Patient.phone p;
                                Patient.name := Some name |}
                        else p) l)
  = if String.eqb k phoneNumber
    then map (fun p => {| Patient.phone := Patient.phone p;
                          Patient.name := Some name |})
             (filter (fun p => String.eqb (Patient.phone p) k) l)
    else filter (fun p => String.eqb (Patient.phone p) k) l.
Proof.
  induction l as [|p l IH]; cbn [map filter].
  - destruct (String.eqb k phoneNumber); reflexivity.
  - destruct (String.eqb_spec (Patient.phone p) phoneNumber) as [Ep|Ep];
      cbn [Patient.phone]; rewrite IH;
      destruct (String.eqb_spec (Patient.phone p) k) as [Ek|Ek];
      destruct (String.eqb_spec k phoneNumber) as [Ef|Ef];
      try reflexivity; congruence.
Qed.

Section Patients.

Variable env : Env.

Lemma select_patient_phone (phone : string) (w : World) (p : Patient.t) :
  In p (select_patient phone w) -> Patient.phone p = phone.
Proof.
  unfold select_patient. intros H. apply filter_In in H. destruct H as [_ H].
  apply String.eqb_eq, H.
Qed.

Lemma select_patient_absent (phone : string) (w : World) :
  select_patient phone w = [] ->
  existsb (fun p => String.eqb (Patient.phone p) phone) (patients w) = false.
Proof.
  unfold select_patient. intros H.
  destruct (existsb _ (patients w)) eqn:E; [|reflexivity].
  apply existsb_exists in E. destruct E as [p [Hp Hq]].
  assert (Hin : In p (filter (fun p => String.eqb (Patient.phone p) phone)
                             (patients w)))
    by (apply filter_In; split; assumption).
  rewrite H in Hin. destruct Hin.
Qed.

Lemma getOrCreatePatient_run (phoneNumber : string) (w : World) :
  exists patient w',
    getOrCreatePatient env phoneNumber w = (Return (Some patient), w')
    /\ Patient.phone patient = phoneNumber
    /\ appointments w' = appointments w
    /\ (patients w' = patients w
        \/ (select_patient phoneNumber w = []
            /\ patients w'
               = (patients w ++ [{| Patient.phone := phoneNumber;
                                    Patient.name := None |}])%list)).
Proof.
  unfold getOrCreatePatient, try_catch. unfold bind at 1.
  unfold db_query at 1.
  destruct (sqlite_fails env (steps w)).
  { eexists _, _. split; [reflexivity|]. split; [reflexivity|].
    split; [reflexivity|]. left. reflexivity. }
  destruct (select_patient phoneNumber w) as [|p rest] eqn:Sel.
  - cbn [List.length Nat.eqb]. unfold bind, db_run.
    cbn [tick steps].
    destruct (sqlite_fails env (S (steps w))).
    { eexists _, _. split; [reflexivity|]. split; [reflexivity|].
      split; [reflexivity|]. left. reflexivity. }
    unfold insert_patient. cbn [tick patients].
    rewrite (select_patient_absent phoneNumber w Sel).
    unfold db_query. cbn [tick steps set_patients].
    destruct (sqlite_fails env (S (S (steps w)))).
    { eexists _, _. split; [reflexivity|]. split; [reflexivity|].
      split; [reflexivity|]. right. split; reflexivity. }
    unfold select_patient at 1. cbn [patients tick set_patients].
    rewrite filter_app. fold (select_patient phoneNumber w). rewrite Sel.
    cbn [filter app Patient.phone]. rewrite String.eqb_refl.
    eexists _, _. split; [reflexivity|]. split; [reflexivity|].
    split; [reflexivity|]. right. split; reflexivity.
  - cbn [List.length Nat.eqb]. unfold bind, ret.
    exists p. eexists. split; [reflexivity|].
    split; [|split; [reflexivity|left; reflexivity]].
    apply (select_patient_phone phoneNumber w). rewrite Sel. left. reflexivity.
Qed.

(** X20.  [getOrCreatePatient] never fails and always hands back a patient with
    the number asked for, whatever SQLite does.  It leaves the appointments
    alone, and the only change it makes to the patients is to add, at the
    end, a patient without name for a number that had none. *)
Theorem patient_found_or_created (phoneNumber : string) (w : World) :
  let w' := after (getOrCreatePatient env phoneNumber) w in
  exists patient,
    outcome (getOrCreatePatient env phoneNumber) w = Return (Some patient)
    /\ Patient.phone patient = phoneNumber
    /\ appointments w' = appointments w
    /\ (patients w' = patients w
        \/ (select_patient phoneNumber w = []
            /\ patients w'
               = (patients w ++ [{| Patient.phone := phoneNumber;
                                    Patient.name := None |}])%list)).
Proof.
  intros w'. subst w'.
  destruct (getOrCreatePatient_run phoneNumber w) as [p [w' [E H]]].
  exists p. unfold outcome, after. rewrite E. split; [reflexivity | exact H].
Qed.

Lemma getOrCreatePatient_ok (phoneNumber : string) (w : World) :
  (forall n, sqlite_fails env n = false) ->
  exists w',
    getOrCreatePatient env phoneNumber w
    = (Return (hd_error (select_patient phoneNumber w')), w')
    /\ select_patient phoneNumber w' <> []
    /\ (forall other, other <> phoneNumber ->
                      select_patient other w' = select_patient other w)
    /\ (select_patient phoneNumber w <> [] -> patients w' = patients w).
Proof.
  intros Hq. unfold getOrCreatePatient, try_catch. unfold bind at 1.
  rewrite (db_query_ok env _ w (Hq _)).
  destruct (select_patient phoneNumber w) as [|p rest] eqn:Sel.
  - cbn [List.length Nat.eqb]. unfold bind.
    assert (I : insert_patient phoneNumber (date_now env (steps (tick w))) (tick w)
                = Some ({| RunResult.id :=
                             Z.of_nat (List.length (patients w)) + 1;
                           RunResult.changes := 1 |},
                        set_patients
                          (patients w ++ [{| Patient.phone := phoneNumber;
                                             Patient.name := None |}]) (tick w))).
    { unfold insert_patient. cbn [tick patients].
      rewrite (select_patient_absent phoneNumber w Sel). reflexivity. }
    rewrite (db_run_ok env _ (tick w) _ _ (Hq _) I).
    rewrite (db_query_ok env _ _ (Hq _)).
    assert (New : forall k,
               select_patient k
                 (tick (tick (set_patients
                                (patients w ++ [{| Patient.phone := phoneNumber;
                                                   Patient.name := None |}])
                                (tick w))))
               = (select_patient k w
                  ++ (if String.eqb phoneNumber k
                      then [{| Patient.phone := phoneNumber;
                               Patient.name := None |}] else []))%list).
    { intros k. unfold select_patient. cbn [tick set_patients patients].
      rewrite filter_app. reflexivity. }
    exists (tick (tick (set_patients
                          (patients w ++ [{| Patient.phone := phoneNumber;
                                             Patient.name := None |}])
                          (tick w)))).
    split; [reflexivity|].
    split; [|split].
    + rewrite !New, Sel, String.eqb_refl. discriminate.
    + intros other N. rewrite !New.
      destruct (String.eqb_spec phoneNumber other); [congruence|].
      apply app_nil_r.
    + intros C. contradiction.
  - cbn [List.length Nat.eqb]. unfold bind, ret.
    exists (tick w). split; [|split; [|split]].
    + change (select_patient phoneNumber (tick w))
        with (select_patient phoneNumber w).
      rewrite Sel. reflexivity.
    + change (select_patient phoneNumber (tick w))
        with (select_patient phoneNumber w).
      rewrite Sel. discriminate.
    + reflexivity.
    + reflexivity.
Qed.

(** X21.  Naming a patient.  When SQLite answers, the name written by
    [updatePatientName] for a patient that [getOrCreatePatient] has found
    or created is the name the next [getOrCreatePatient] hands back; that
    second call adds no patient, and the patients of every other number are
    as they were before the three calls. *)
Theorem patient_name_round_trip (phoneNumber name : string) (w : World) :
  (forall n, sqlite_fails env n = false) ->
  let w1 := after (getOrCreatePatient env phoneNumber) w in
  let w2 := after (updatePatientName env phoneNumber name) w1 in
  let w3 := after (getOrCreatePatient env phoneNumber) w2 in
  outcome (updatePatientName env phoneNumber name) w1 = Return tt
  /\ outcome (getOrCreatePatient env phoneNumber) w2
     = Return (Some {| Patient.phone := phoneNumber; Patient.name := Some name |})
  /\ patients w3 = patients w2
  /\ forall other, other <> phoneNumber ->
                   select_patient other w3 = select_patient other w.
Proof.
  intros Hq w1 w2 w3.
  destruct (getOrCreatePatient_ok phoneNumber w Hq) as [v1 [E1 [N1 [O1 _]]]].
  assert (W1 : w1 = v1) by (subst w1; unfold after; rewrite E1; reflexivity).
  assert (U : updatePatientName env phoneNumber name v1
              = (Return tt,
                 tick (set_patients
                         (map (fun p => if String.eqb (Patient.phone p) phoneNumber
                                        then {| Patient.phone := Patient.phone p;
                                                Patient.name := Some name |}
                                        else p) (patients v1)) v1))).
  { unfold updatePatientName, try_catch, bind.
    rewrite (db_run_ok env _ v1 _ _ (Hq _) eq_refl). reflexivity. }
  set (v2 := tick (set_patients
                     (map (fun p => if String.eqb (Patient.phone p) phoneNumber
                                    then {| Patient.phone := Patient.phone p;
                                            Patient.name := Some name |}
                                    else p) (patients v1)) v1)) in *.
  assert (W2 : w2 = v2) by (subst w2; rewrite W1; unfold after; rewrite U; reflexivity).
  assert (Named : forall k,
             select_patient k v2
             = if String.eqb k phoneNumber
               then map (fun p => {| Patient.phone := Patient.phone p;
                                     Patient.name := Some name |})
                        (select_patient k v1)
               else select_patient k v1).
  { intros k. unfold select_patient. subst v2. cbn [tick set_patients patients].
    apply named_patients. }
  destruct (getOrCreatePatient_ok phoneNumber v2 Hq) as [v3 [E3 [N3 [O3 K3]]]].
  assert (Found : select_patient phoneNumber v2 <> []).
  { rewrite Named, String.eqb_refl.
    destruct (select_patient phoneNumber v1); [contradiction | discriminate]. }
  specialize (K3 Found).
  assert (W3 : w3 = v3) by (subst w3; rewrite W2; unfold after; rewrite E3; reflexivity).
  rewrite W3, W2, W1. unfold outcome. rewrite U, E3. cbn [fst].
  split; [reflexivity|]. split; [|split; [exact K3|]].
  - f_equal.
    assert (Sel3 : select_patient phoneNumber v3 = select_patient phoneNumber v2)
      by (unfold select_patient; rewrite K3; reflexivity).
    rewrite Sel3, Named, String.eqb_refl.
    destruct (select_patient phoneNumber v1) as [|p rest] eqn:S1; [contradiction|].
    cbn [map hd_error]. do 2 f_equal.
    apply (select_patient_phone phoneNumber v1). rewrite S1. left. reflexivity.
  - intros other N. rewrite (O3 other N), Named.
    destruct (String.eqb_spec other phoneNumber); [congruence|].
    apply (O1 other N).
Qed.

End Patients.

(** ** src/googleCalendar.js: the slots that can be booked *)


(** How many whole steps fit between [from] and [upto]. *)
Definition steps_between (from upto step : Z) : nat :=
  Z.to_nat ((upto - from) / step).



Lemma steps_between_next (from upto step : Z) :
  0 < step -> from + step <= upto ->
  steps_between from upto step = S (steps_between (from + step) upto step).
Proof.
  intros Hs Hle. unfold steps_between.
  replace (upto - from) with ((upto - (from + step)) + 1 * step) by lia.
  rewrite Z.div_add by lia.
  rewrite Z2Nat.inj_add; [|apply Z.div_pos; lia|lia].
  change (Z.to_nat 1) with 1%nat. lia.
Qed.

Lemma steps_between_none (from upto step : Z) :
  0 < step -> upto < from + step -> steps_between from upto step = 0%nat.
Proof.
  intros Hs Hlt. unfold steps_between.
  destruct (Z.le_gt_cases from upto) as [L|L].
  - rewrite Z.div_small by lia. reflexivity.
  - assert ((upto - from) / step < 0) by (apply Z.div_lt_upper_bound; lia).
    destruct ((upto - from) / step); try lia; reflexivity.
Qed.


Section Availability.

Variable env : Env.


End Availability.

(** ** src/appointmentBot.js: the fallback slots *)

(** [HH:MM] of a minute of the day *)
Definition hhmm (minute : Z) : string :=
  (pad2 (minute / 60) ++ ":" ++ pad2 (minute mod 60))%string.

Definition basic_slot_at (date : string) (from step : Z) (i : nat) : BasicSlot.t :=
  {| BasicSlot.start := hhmm (from + Z.of_nat i * step);
     BasicSlot.end_ := hhmm (from + (Z.of_nat i + 1) * step);
     BasicSlot.datetime :=
       (date ++ "T" ++ hhmm (from + Z.of_nat i * step) ++ ":00")%string |}.

(** The turns the loop of [generateBasicSlots] makes: the slots that start
    before the end of the working day. *)
Definition turns_between (from upto step : Z) : nat :=
  Z.to_nat ((upto - from + step - 1) / step).

Lemma carry_once (turns : nat) (endMinCalc endHourCalc : Z) :
  (1 <= turns)%nat -> endMinCalc < 120 ->
  carry turns endMinCalc endHourCalc
  = if 60 <=? endMinCalc then (endMinCalc - 60, endHourCalc + 1)
    else (endMinCalc, endHourCalc).
Proof.
  intros Ht Hm. destruct turns as [|turns]; [lia|]. cbn [carry].
  destruct (Z.leb_spec 60 endMinCalc) as [L|L]; [|reflexivity].
  destruct turns as [|turns]; [reflexivity|]. cbn [carry].
  destruct (Z.leb_spec 60 (endMinCalc - 60)); [lia | reflexivity].
Qed.

Lemma before_end (hour minute endHour endMin : Z) :
  0 <= minute < 60 -> 0 <= endMin < 60 ->
  (hour <? endHour) || ((hour =? endHour) && (minute <? endMin))
  = (60 * hour + minute <? 60 * endHour + endMin).
Proof.
  intros Hm He.
  destruct (Z.ltb_spec hour endHour), (Z.eqb_spec hour endHour),
    (Z.ltb_spec minute endMin),
    (Z.ltb_spec (60 * hour + minute) (60 * endHour + endMin));
    cbn; try reflexivity; lia.
Qed.

Lemma by_end (hour minute endHour endMin : Z) :
  0 <= minute < 60 -> 0 <= endMin < 60 ->
  (hour <? endHour) || ((hour =? endHour) && (minute <=? endMin))
  = (60 * hour + minute <=? 60 * endHour + endMin).
Proof.
  intros Hm He.
  destruct (Z.ltb_spec hour endHour), (Z.eqb_spec hour endHour),
    (Z.leb_spec minute endMin),
    (Z.leb_spec (60 * hour + minute) (60 * endHour + endMin));
    cbn; try reflexivity; lia.
Qed.

Lemma hhmm_of (hour minute : Z) :
  0 <= minute < 60 ->
  (pad2 hour ++ ":" ++ pad2 minute)%string = hhmm (60 * hour + minute).
Proof.
  intros Hm. unfold hhmm.
  replace ((60 * hour + minute) / 60) with hour
    by (apply Z.div_unique with minute; lia).
  replace ((60 * hour + minute) mod 60) with minute
    by (apply Z.mod_unique with hour; lia).
  reflexivity.
Qed.

Lemma basic_slot_at_shift date (from step : Z) (n : nat) :
  map (basic_slot_at date from step) (seq 1 n)
  = map (basic_slot_at date (from + step) step) (seq 0 n).
Proof.
  rewrite <- seq_shift, map_map. apply map_ext. intros i.
  unfold basic_slot_at.
  replace (from + Z.of_nat (S i) * step) with (from + step + Z.of_nat i * step) by lia.
  replace (from + (Z.of_nat (S i) + 1) * step)
    with (from + step + (Z.of_nat i + 1) * step) by lia.
  reflexivity.
Qed.

Lemma turns_between_next (from upto step : Z) :
  0 < step -> from < upto ->
  turns_between from upto step = S (turns_between (from + step) upto step).
Proof.
  intros Hs Hlt. unfold turns_between.
  replace (upto - from + step - 1)
    with ((upto - (from + step) + step - 1) + 1 * step) by lia.
  rewrite Z.div_add by lia.
  rewrite Z2Nat.inj_add; [|apply Z.div_pos; lia|lia].
  change (Z.to_nat 1) with 1%nat. lia.
Qed.

Lemma basic_slots_grid date endHour endMin duration (fuel : nat) :
  0 <= endMin < 60 -> 1 <= duration <= 60 ->
  forall currentHour currentMin slots,
    0 <= currentMin < 60 ->
    let from := 60 * currentHour + currentMin in
    let upto := 60 * endHour + endMin in
    (turns_between from upto duration < fuel)%nat ->
    basic_slots fuel date endHour endMin duration currentHour currentMin slots
    = Some (slots
            ++ map (basic_slot_at date from duration)
                   (seq 0 (steps_between from upto duration)))%list.
Proof.
  intros He Hd.
  induction fuel as [|fuel IH]; intros currentHour currentMin slots Hm from upto Hfuel;
    [lia|].
  cbn [basic_slots].
  rewrite (before_end currentHour currentMin endHour endMin Hm He).
  fold from upto.
  destruct (Z.ltb_spec from upto) as [Lt|Ge].
  - rewrite (carry_once _ (currentMin + duration) currentHour) by lia.
    rewrite (turns_between_next from upto duration) in Hfuel by lia.
    assert (Hstart : (pad2 currentHour ++ ":" ++ pad2 currentMin)%string = hhmm from)
      by (apply hhmm_of, Hm).
    destruct (Z.leb_spec 60 (currentMin + duration)) as [C|C].
    + rewrite (by_end (currentHour + 1) (currentMin + duration - 60) endHour endMin)
        by lia.
      rewrite (hhmm_of (currentHour + 1) (currentMin + duration - 60)) by lia.
      rewrite Hstart.
      replace (60 * (currentHour + 1) + (currentMin + duration - 60))
        with (from + duration) by (subst from; lia).
      rewrite IH by (try lia;
                     replace (60 * (currentHour + 1) + (currentMin + duration - 60))
                       with (from + duration) by (subst from; lia);
                     fold upto; lia).
      replace (60 * (currentHour + 1) + (currentMin + duration - 60))
        with (from + duration) by (subst from; lia).
      fold upto.
      destruct (Z.leb_spec (from + duration) upto) as [Fits|Over].
      * rewrite (steps_between_next from upto duration) by lia.
        cbn [seq map]. rewrite basic_slot_at_shift, <- app_assoc.
        unfold basic_slot_at at 2. cbn [Z.of_nat].
        replace (from + 0 * duration) with from by lia.
        replace (from + (0 + 1) * duration) with (from + duration) by lia.
        reflexivity.
      * rewrite (steps_between_none from upto duration) by lia.
        rewrite (steps_between_none (from + duration) upto duration) by lia.
        reflexivity.
    + rewrite (by_end currentHour (currentMin + duration) endHour endMin) by lia.
      rewrite (hhmm_of currentHour (currentMin + duration)) by lia.
      rewrite Hstart.
      replace (60 * currentHour + (currentMin + duration))
        with (from + duration) by (subst from; lia).
      rewrite IH by (try lia;
                     replace (60 * currentHour + (currentMin + duration))
                       with (from + duration) by (subst from; lia);
                     fold upto; lia).
      replace (60 * currentHour + (currentMin + duration))
        with (from + duration) by (subst from; lia).
      fold upto.
      destruct (Z.leb_spec (from + duration) upto) as [Fits|Over].
      * rewrite (steps_between_next from upto duration) by lia.
        cbn [seq map]. rewrite basic_slot_at_shift, <- app_assoc.
        unfold basic_slot_at at 2. cbn [Z.of_nat].
        replace (from + 0 * duration) with from by lia.
        replace (from + (0 + 1) * duration) with (from + duration) by lia.
        reflexivity.
      * rewrite (steps_between_none from upto duration) by lia.
        rewrite (steps_between_none (from + duration) upto duration) by lia.
        reflexivity.
  - rewrite (steps_between_none from upto duration) by lia.
    rewrite app_nil_r. reflexivity.
Qed.

(** X23.  The fallback slots.  For working hours given in whole minutes below
    sixty and a duration of one to sixty minutes, [generateBasicSlots]
    ends and gives the slots of the grid of step [duration] laid from the
    start of the working day that end by its end: slot [i] starts
    [i * duration] minutes after the start, and as many slots are given as
    whole durations fit in the working day. *)
Theorem basic_slots_are_the_grid
  (fuel : nat) (date : string) (startHour startMin endHour endMin duration : Z) :
  0 <= startMin < 60 -> 0 <= endMin < 60 -> 1 <= duration <= 60 ->
  let from := 60 * startHour + startMin in
  let upto := 60 * endHour + endMin in
  (turns_between from upto duration < fuel)%nat ->
  generateBasicSlots fuel date startHour startMin endHour endMin duration
  = Some (map (basic_slot_at date from duration)
              (seq 0 (steps_between from upto duration))).
Proof.
  intros Hs He Hd from upto Hfuel. unfold generateBasicSlots.
  rewrite (basic_slots_grid date endHour endMin duration fuel He Hd
             startHour startMin [] Hs Hfuel).
  reflexivity.
Qed.


Lemma carry_all (turns : nat) : forall endMinCalc endHourCalc,
  0 <= endMinCalc < 60 * (Z.of_nat turns + 1) ->
  carry turns endMinCalc endHourCalc
  = (endMinCalc mod 60, endHourCalc + endMinCalc / 60).
Proof.
  induction turns as [|turns IH]; intros x h Hx; cbn [carry].
  - rewrite Z.mod_small, Z.div_small by lia. f_equal. lia.
  - destruct (Z.leb_spec 60 x) as [L|L].
    + rewrite IH by lia.
      replace x with ((x - 60) + 1 * 60) at 3 4 by lia.
      rewrite Z.mod_add, Z.div_add by lia. f_equal. lia.
    + rewrite Z.mod_small, Z.div_small by lia. f_equal. lia.
Qed.

(** The slot the loop of [generateBasicSlots] gives on its turn [i] when
    every turn carries one hour: the hour counter has gone up by [i] and
    the minute counter by [i] times [duration - 60]. *)
Definition carried_slot_at (date : string) (hour minute step : Z) (i : nat)
  : BasicSlot.t :=
  let startTime :=
    (pad2 (hour + Z.of_nat i) ++ ":"
     ++ pad2 (minute + Z.of_nat i * (step - 60)))%string in
  {| BasicSlot.start := startTime;
     BasicSlot.end_ := hhmm (60 * hour + minute + (Z.of_nat i + 1) * step);
     BasicSlot.datetime := (date ++ "T" ++ startTime ++ ":00")%string |}.

Lemma carried_slot_at_shift date (hour minute step : Z) (n : nat) :
  map (carried_slot_at date hour minute step) (seq 1 n)
  = map (carried_slot_at date (hour + 1) (minute + step - 60) step) (seq 0 n).
Proof.
  rewrite <- seq_shift, map_map. apply map_ext. intros i.
  unfold carried_slot_at.
  replace (hour + Z.of_nat (S i)) with (hour + 1 + Z.of_nat i) by lia.
  replace (minute + Z.of_nat (S i) * (step - 60))
    with (minute + step - 60 + Z.of_nat i * (step - 60)) by lia.
  replace (60 * hour + minute + (Z.of_nat (S i) + 1) * step)
    with (60 * (hour + 1) + (minute + step - 60) + (Z.of_nat i + 1) * step) by lia.
  reflexivity.
Qed.

Lemma basic_slots_carried date endHour endMin duration (fuel : nat) :
  0 <= endMin < 60 -> 60 <= duration ->
  forall currentHour currentMin slots,
    0 <= currentMin ->
    let from := 60 * currentHour + currentMin in
    let upto := 60 * endHour + endMin in
    (Z.to_nat (endHour - currentHour + 1) < fuel)%nat ->
    basic_slots fuel date endHour endMin duration currentHour currentMin slots
    = Some (slots
            ++ map (carried_slot_at date currentHour currentMin duration)
                   (seq 0 (steps_between from upto duration)))%list.
Proof.
  intros He Hd.
  induction fuel as [|fuel IH]; intros currentHour currentMin slots Hm from upto Hfuel;
    [lia|].
  cbn [basic_slots].
  destruct ((currentHour <? endHour)
            || ((currentHour =? endHour) && (currentMin <? endMin))) eqn:C.
  - assert (Hh : currentHour <= endHour).
    { apply orb_prop in C. destruct C as [C|C]; [apply Z.ltb_lt in C; lia|].
      apply andb_prop in C. destruct C as [C _]. apply Z.eqb_eq in C. lia. }
    rewrite (carry_all _ (currentMin + duration) currentHour) by lia.
    assert (Hend : 60 * (currentHour + (currentMin + duration) / 60)
                   + (currentMin + duration) mod 60 = from + duration).
    { pose proof (Z.div_mod (currentMin + duration) 60). subst from. lia. }
    rewrite (by_end _ _ endHour endMin (Z.mod_pos_bound _ 60 eq_refl) He).
    rewrite (hhmm_of _ _ (Z.mod_pos_bound (currentMin + duration) 60 eq_refl)).
    rewrite Hend. fold upto.
    destruct (Z.leb_spec 60 (currentMin + duration)) as [_|]; [|lia].
    rewrite IH by lia.
    replace (60 * (currentHour + 1) + (currentMin + duration - 60))
      with (from + duration) by (subst from; lia).
    fold upto.
    destruct (Z.leb_spec (from + duration) upto) as [Fits|Over].
    + rewrite (steps_between_next from upto duration) by lia.
      cbn [seq map]. rewrite carried_slot_at_shift, <- app_assoc.
      unfold carried_slot_at at 2. cbn [Z.of_nat].
      replace (currentHour + 0) with currentHour by lia.
      replace (currentMin + 0 * (duration - 60)) with currentMin by lia.
      replace (60 * currentHour + currentMin + (0 + 1) * duration)
        with (from + duration) by (subst from; lia).
      reflexivity.
    + rewrite (steps_between_none from upto duration) by lia.
      rewrite (steps_between_none (from + duration) upto duration) by lia.
      reflexivity.
  - assert (Hge : upto < from + duration).
    { apply orb_false_iff in C. destruct C as [C1 C2]. apply Z.ltb_ge in C1.
      apply andb_false_iff in C2. subst from upto.
      destruct C2 as [C2|C2];
        [apply Z.eqb_neq in C2 | apply Z.ltb_ge in C2]; lia. }
    rewrite (steps_between_none from upto duration) by lia.
    rewrite app_nil_r. reflexivity.
Qed.

(** X25.  A duration of an hour or more.  The loop moves its minute counter on
    with a single [-= 60], so on every turn the hour goes up by one and
    the minute by [duration - 60]: the slots given are still those of the
    grid, and their ends are times of day, but slot [i] is labelled as
    starting at hour [startHour + i], minute [startMin + i * (duration -
    60)].  With ninety minutes from 09:00 the third slot starts at
    [11:60]. *)
Theorem basic_slots_over_an_hour
  (fuel : nat) (date : string) (startHour startMin endHour endMin duration : Z) :
  0 <= startMin < 60 -> 0 <= endMin < 60 -> 60 <= duration ->
  let from := 60 * startHour + startMin in
  let upto := 60 * endHour + endMin in
  (Z.to_nat (endHour - startHour + 1) < fuel)%nat ->
  generateBasicSlots fuel date startHour startMin endHour endMin duration
  = Some (map (carried_slot_at date startHour startMin duration)
              (seq 0 (steps_between from upto duration))).
Proof.
  intros Hs He Hd from upto Hfuel. unfold generateBasicSlots.
  rewrite (basic_slots_carried date endHour endMin duration fuel He Hd
             startHour startMin [] (proj1 Hs) Hfuel).
  reflexivity.
Qed.

(** ** utils/calendarSync.js: a pass over stores that agree *)

Lemma dbAppointmentMap_keys l : forall m,
  (forall k a, In (k, a) m -> k <> EmptyString) ->
  forall k a, In (k, a) (dbAppointmentMap_of l m) -> k <> EmptyString.
Proof.
  induction l as [|x l IH]; intros m H k a; cbn; [apply H|].
  destruct (Appointment.google_event_id x) as [[|c s]|]; try (apply IH, H).
  apply IH. intros k' a' Hin. apply Map_set_entries in Hin.
  destruct Hin as [[-> _]|Hin]; [discriminate | exact (H _ _ Hin)].
Qed.

Section AgreeingStores.

Variable env : Env.

Hypothesis sqlite_works : forall n, sqlite_fails env n = false.

(** The stores agree: every scheduled record that carries an event id has
    its event in the listing, and the event starts at the instant the
    record's date and time denote. *)
Definition stores_agree (w : World) (evs : list CalendarEvent.t) : Prop :=
  forall a e,
    In a (appointments w) ->
    Appointment.status a = "scheduled"%string ->
    Appointment.google_event_id a = Some e ->
    e <> EmptyString ->
    exists ev, Map_get e (calendarEventMap_of evs []) = Some ev
               /\ differs env a ev = false.

Lemma nothing_queued (w : World) (evs : list CalendarEvent.t) (n : nat) :
  stores_agree w evs ->
  let m := dbAppointmentMap_of (select_scheduled_with_event w) [] in
  let cm := calendarEventMap_of evs [] in
  queued_creates env cm m n = [] /\ queued_updates env cm m = [].
Proof.
  intros Hagree m cm.
  assert (Hm : forall k a, In (k, a) m ->
                           exists ev, Map_get k cm = Some ev
                                      /\ differs env a ev = false).
  { intros k a Hin.
    pose proof (dbAppointmentMap_keys _ [] (fun _ _ H => match H with end) k a Hin)
      as Hk.
    apply dbAppointmentMap_entries in Hin. destruct Hin as [[]|[Hin Hg]].
    unfold select_scheduled_with_event in Hin. apply filter_In in Hin.
    destruct Hin as [Hin Hs]. apply andb_prop in Hs. destruct Hs as [Hs _].
    apply String.eqb_eq in Hs. exact (Hagree a k Hin Hs Hg Hk). }
  clearbody m cm. split.
  - revert n. induction m as [|[k a] m IH]; intros n; [reflexivity|].
    cbn [queued_creates].
    destruct (Hm k a (or_introl eq_refl)) as [ev [G _]]. rewrite G.
    apply IH. intros k' a' Hin. apply Hm. right. exact Hin.
  - unfold queued_updates. apply flat_map_nil. intros [k a] Hin. cbn [fst snd].
    destruct (Hm k a Hin) as [ev [G D]]. rewrite G, D. reflexivity.
Qed.

(** X26.  A pass over stores that agree writes nothing.  When SQLite and the
    provider answer and every scheduled record with an event id has its
    event at the same instant in the listing, [syncAppointments] resolves,
    leaves every record as it is, and calls the gateway for the listing at
    most: no event is created, updated or cancelled. *)
Theorem sync_of_agreeing_stores_writes_nothing
  (w : World) (evs : list CalendarEvent.t) :
  (forall n, tokens_valid env n = true) ->
  (forall n, events_list env n = Some evs) ->
  stores_agree w evs ->
  outcome (syncAppointments env) w = Return tt
  /\ appointments (after (syncAppointments env) w) = appointments w
  /\ calls (after (syncAppointments env) w)
     = (calls w
        ++ match outcome (start env) w with
           | Return true => [CallGetUpcomingAppointments 30]
           | _ => []
           end)%list.
Proof.
  intros Htok Hlist Hagree.
  assert (R : exists w',
             syncAppointments env w = (Return tt, w')
             /\ appointments w' = appointments w
             /\ calls w'
                = (calls w
                   ++ match outcome (start env) w with
                      | Return true => [CallGetUpcomingAppointments 30]
                      | _ => []
                      end)%list).
  { unfold syncAppointments, try_finally, try_catch. unfold bind at 1.
    fold (sync_body env). unfold outcome.
    destruct (start_cases env w) as [E|[s [E _]]]; rewrite E; cbn [negb fst].
    - eexists. split; [reflexivity|]. split; [reflexivity|].
      cbn. rewrite app_nil_r. reflexivity.
    - rewrite (sync_body_run env sqlite_works evs _ Htok Hlist).
      assert (Hagree' : stores_agree (set_sync s (tick (tick w))) evs)
        by exact Hagree.
      match goal with
      | |- context [queued_creates env ?cm ?m ?n] =>
        destruct (nothing_queued (set_sync s (tick (tick w))) evs n Hagree')
          as [Qc Qu]
      end.
      rewrite Qc, Qu. cbn [for_of]. unfold after at 1 2, ret. cbn [snd].
      eexists. split; [reflexivity|].
      unfold stop, assign. cbn [set_sync appointments calls].
      destruct (iter_tick_fields
                  (misses (calendarEventMap_of evs [])
                          (dbAppointmentMap_of
                             (select_scheduled_with_event
                                (set_sync s (tick (tick w)))) []))
                  (Nat.iter 4 tick
                     (log_call (CallGetUpcomingAppointments 30)
                        (tick (set_sync s (tick (tick w)))))))
        as (_ & _ & Ha & Hc).
      rewrite Ha, Hc. split; reflexivity. }
  destruct R as [w' [E [A C]]]. unfold outcome at 1, after. rewrite E.
  split; [reflexivity|]. split; assumption.
Qed.

End AgreeingStores.

(** ** maintenance.js: what the sweeps and the check never do *)

(** A relation between the world before and the world after that every
    step of a computation respects. *)
Section Respected.

Variable R : World -> World -> Prop.

Hypothesis R_refl : forall w, R w w.
Hypothesis R_trans : forall a b c, R a b -> R b c -> R a c.

Definition respects {A} (c : M A) : Prop := forall w, R w (after c w).

Lemma respects_ret {A} (a : A) : respects (ret a).
Proof. intros w. apply R_refl. Qed.

Lemma respects_throw {A} (e : Error) : respects (@throw A e).
Proof. intros w. apply R_refl. Qed.

Lemma respects_bind {A B} (c : M A) (k : A -> M B) :
  respects c -> (forall a, respects (k a)) -> respects (bind c k).
Proof.
  intros Hc Hk w. specialize (Hc w). unfold after, bind in *.
  destruct (c w) as [[a|e] w1]; cbn in *.
  - eapply R_trans; [exact Hc | apply Hk].
  - exact Hc.
Qed.

Lemma respects_try_catch {A} (c : M A) (h : Error -> M A) :
  respects c -> (forall e, respects (h e)) -> respects (try_catch c h).
Proof.
  intros Hc Hh w. specialize (Hc w). unfold after, try_catch in *.
  destruct (c w) as [[a|e] w1]; cbn in *.
  - exact Hc.
  - eapply R_trans; [exact Hc | apply Hh].
Qed.

Lemma respects_fold_of {A T} (l : list A) (body : T -> A -> M T) :
  (forall s x, respects (body s x)) -> forall s, respects (fold_of l s body).
Proof.
  intros Hb. induction l as [|x l IH]; intros s; cbn [fold_of].
  - apply respects_ret.
  - apply respects_bind; [apply Hb | intros s1; apply IH].
Qed.

End Respected.

(** The store sweep only deletes: the table afterwards is the table
    before without some of its rows, and nothing else has changed. *)
Definition only_deleted (w w' : World) : Prop :=
  (exists keep, appointments w' = filter keep (appointments w))
  /\ patients w' = patients w
  /\ sync w' = sync w
  /\ calls w' = calls w.

Lemma only_deleted_quiet (w w' : World) :
  appointments w' = appointments w -> patients w' = patients w ->
  sync w' = sync w -> calls w' = calls w -> only_deleted w w'.
Proof.
  intros A P S C. split; [|repeat split; assumption]. exists (fun _ => true).
  rewrite A. symmetry. apply filter_all_true. reflexivity.
Qed.

Lemma only_deleted_refl (w : World) : only_deleted w w.
Proof. apply only_deleted_quiet; reflexivity. Qed.

Lemma only_deleted_trans (a b c : World) :
  only_deleted a b -> only_deleted b c -> only_deleted a c.
Proof.
  intros [[f Ef] [P1 [S1 C1]]] [[g Eg] [P2 [S2 C2]]].
  split; [|repeat split; congruence].
  exists (fun x => f x && g x). rewrite Eg, Ef. symmetry. apply filter_and.
Qed.

(** The calendar check and the calendar sweep leave the store alone and
    call the gateway only to authenticate, to list and to cancel. *)
Definition sweep_call (c : Call) : Prop :=
  match c with
  | CallAuthenticate | CallGetUpcomingAppointments _ | CallCancelAppointment _ =>
    True
  | _ => False
  end.

Definition store_untouched (w w' : World) : Prop :=
  appointments w' = appointments w
  /\ patients w' = patients w
  /\ sync w' = sync w
  /\ exists tr, calls w' = (calls w ++ tr)%list /\ Forall sweep_call tr.

Lemma store_untouched_quiet (w w' : World) :
  appointments w' = appointments w -> patients w' = patients w ->
  sync w' = sync w -> calls w' = calls w -> store_untouched w w'.
Proof.
  intros A P S C. repeat split; try assumption.
  exists []. split; [rewrite app_nil_r; exact C | constructor].
Qed.

Lemma store_untouched_refl (w : World) : store_untouched w w.
Proof. apply store_untouched_quiet; reflexivity. Qed.

Lemma store_untouched_trans (a b c : World) :
  store_untouched a b -> store_untouched b c -> store_untouched a c.
Proof.
  intros [A1 [P1 [S1 [t1 [C1 F1]]]]] [A2 [P2 [S2 [t2 [C2 F2]]]]].
  repeat split; try congruence.
  exists (t1 ++ t2)%list. split; [rewrite C2, C1, app_assoc; reflexivity|].
  apply Forall_app. split; assumption.
Qed.

Section NeverDone.

Variable env : Env.

Lemma db_query_only_reads {A} (select : World -> A) :
  respects only_deleted (db_query env select).
Proof.
  intros w. unfold after, db_query.
  destruct (sqlite_fails env (steps w)); apply only_deleted_quiet; reflexivity.
Qed.

Lemma db_run_delete_ids (ids : list Z) :
  respects only_deleted (db_run env (delete_ids ids)).
Proof.
  intros w. unfold after, db_run.
  destruct (sqlite_fails env (steps w)); [apply only_deleted_quiet; reflexivity|].
  cbn. split; [|repeat split]. eexists. reflexivity.
Qed.

Lemma cleanDbDuplicates_only_deletes : respects only_deleted (cleanDbDuplicates env).
Proof.
  unfold cleanDbDuplicates, checkDbDuplicates.
  apply (respects_bind _ only_deleted_trans); [apply db_query_only_reads|].
  intros duplicates.
  destruct (List.length duplicates =? 0)%nat;
    [apply (respects_ret _ only_deleted_refl)|].
  apply (respects_fold_of _ only_deleted_refl only_deleted_trans).
  intros total dup. unfold clean_group.
  apply (respects_bind _ only_deleted_trans); [apply db_query_only_reads|].
  intros records.
  destruct (0 <? List.length (tl records))%nat;
    [|apply (respects_ret _ only_deleted_refl)].
  apply (respects_bind _ only_deleted_trans); [apply db_run_delete_ids|].
  intros _. apply (respects_ret _ only_deleted_refl).
Qed.

(** X27.  Whatever SQLite does, the store sweep only deletes records: the table
    it leaves is the table it found without some of its rows, in the same
    order and with every remaining record unchanged; it touches no patient
    and never calls the calendar. *)
Theorem store_sweep_only_deletes (w : World) :
  exists keep,
    appointments (after (cleanDbDuplicates env) w) = filter keep (appointments w)
    /\ patients (after (cleanDbDuplicates env) w) = patients w
    /\ calls (after (cleanDbDuplicates env) w) = calls w.
Proof.
  destruct (cleanDbDuplicates_only_deletes w) as [[keep E] [P [_ C]]].
  exists keep. split; [exact E|]. split; assumption.
Qed.

Lemma enter_sweep_call (c : Call) :
  sweep_call c -> respects store_untouched (enter c).
Proof.
  intros Hc w. repeat split.
  exists [c]. split; [reflexivity | constructor; [exact Hc | constructor]].
Qed.

Lemma ensureValidTokens_untouched : respects store_untouched (ensureValidTokens env).
Proof.
  intros w. unfold after, ensureValidTokens.
  destruct (tokens_valid env (steps w)); apply store_untouched_quiet; reflexivity.
Qed.

Lemma provider_untouched {A} (answer : nat -> option A) :
  respects store_untouched (provider answer).
Proof.
  intros w. unfold after, provider.
  destruct (answer (steps w)); apply store_untouched_quiet; reflexivity.
Qed.

Lemma db_query_untouched {A} (select : World -> A) :
  respects store_untouched (db_query env select).
Proof.
  intros w. unfold after, db_query.
  destruct (sqlite_fails env (steps w)); apply store_untouched_quiet; reflexivity.
Qed.

Lemma Date_now_untouched : respects store_untouched (Date_now env).
Proof. intros w. apply store_untouched_quiet; reflexivity. Qed.

Lemma authenticate_untouched : respects store_untouched (authenticate env).
Proof.
  unfold authenticate.
  apply (respects_bind _ store_untouched_trans); [apply enter_sweep_call; exact I|].
  intros _ w. unfold after.
  destruct (authenticates env (steps w)); apply store_untouched_quiet; reflexivity.
Qed.

Lemma getUpcomingAppointments_untouched (n : Z) :
  respects store_untouched (getUpcomingAppointments env n).
Proof.
  unfold getUpcomingAppointments.
  apply (respects_bind _ store_untouched_trans); [apply enter_sweep_call; exact I|].
  intros _.
  apply (respects_try_catch _ store_untouched_trans);
    [|intros; apply (respects_throw _ store_untouched_refl)].
  apply (respects_bind _ store_untouched_trans); [apply ensureValidTokens_untouched|].
  intros _.
  apply (respects_bind _ store_untouched_trans); [apply Date_now_untouched|].
  intros _.
  apply (respects_bind _ store_untouched_trans); [apply Date_now_untouched|].
  intros _. apply provider_untouched.
Qed.

Lemma cancelAppointment_untouched (eventId : string) :
  respects store_untouched (cancelAppointment env eventId).
Proof.
  unfold cancelAppointment.
  apply (respects_bind _ store_untouched_trans); [apply enter_sweep_call; exact I|].
  intros _.
  apply (respects_try_catch _ store_untouched_trans);
    [|intros; apply (respects_throw _ store_untouched_refl)].
  apply (respects_bind _ store_untouched_trans); [apply ensureValidTokens_untouched|].
  intros _.
  apply (respects_bind _ store_untouched_trans); [apply provider_untouched|].
  intros _. apply (respects_ret _ store_untouched_refl).
Qed.

Lemma cancel_each_untouched events total :
  respects store_untouched (cancel_each env events total).
Proof.
  unfold cancel_each.
  apply (respects_fold_of _ store_untouched_refl store_untouched_trans).
  intros t event.
  apply (respects_bind _ store_untouched_trans); [apply cancelAppointment_untouched|].
  intros _. apply (respects_ret _ store_untouched_refl).
Qed.

Lemma cleanCalendarDuplicates_untouched :
  respects store_untouched (cleanCalendarDuplicates env).
Proof.
  unfold cleanCalendarDuplicates.
  apply (respects_try_catch _ store_untouched_trans);
    [|intros; apply (respects_ret _ store_untouched_refl)].
  apply (respects_bind _ store_untouched_trans); [apply authenticate_untouched|].
  intros _.
  apply (respects_bind _ store_untouched_trans); [apply db_query_untouched|].
  intros appointments.
  apply (respects_bind _ store_untouched_trans);
    [apply getUpcomingAppointments_untouched|].
  intros events.
  destruct (group_events events []) as [timeSlots|];
    [|apply (respects_throw _ store_untouched_refl)].
  apply (respects_fold_of _ store_untouched_refl store_untouched_trans).
  intros total entry. unfold clean_slot.
  destruct (List.length (snd entry) <=? 1)%nat;
    [apply (respects_ret _ store_untouched_refl)|].
  destruct (0 <? List.length _)%nat; [|apply cancel_each_untouched].
  apply (respects_bind _ store_untouched_trans); [apply cancel_each_untouched|].
  intros total1.
  destruct (1 <? List.length _)%nat;
    [apply cancel_each_untouched | apply (respects_ret _ store_untouched_refl)].
Qed.

Lemma checkCalendarDuplicates_untouched :
  respects store_untouched (checkCalendarDuplicates env).
Proof.
  unfold checkCalendarDuplicates.
  apply (respects_try_catch _ store_untouched_trans);
    [|intros; apply (respects_ret _ store_untouched_refl)].
  apply (respects_bind _ store_untouched_trans); [apply authenticate_untouched|].
  intros _.
  apply (respects_bind _ store_untouched_trans);
    [apply getUpcomingAppointments_untouched|].
  intros events.
  destruct (group_events events []);
    [apply (respects_ret _ store_untouched_refl)
    |apply (respects_throw _ store_untouched_refl)].
Qed.

(** X28.  Whatever fails, the calendar sweep and the calendar check resolve
    (with 0 and with no duplicate when a call fails); neither changes a
    record, a patient or the coordinator, and the only calls they make to
    the gateway authenticate, list or cancel: no event is ever created or
    updated. *)
Theorem calendar_maintenance_leaves_the_store (w : World) :
  (exists totalDeleted,
      outcome (cleanCalendarDuplicates env) w = Return totalDeleted)
  /\ (exists duplicates,
         outcome (checkCalendarDuplicates env) w = Return duplicates)
  /\ store_untouched w (after (cleanCalendarDuplicates env) w)
  /\ store_untouched w (after (checkCalendarDuplicates env) w).
Proof.
  split; [|split; [|split]].
  - unfold outcome, cleanCalendarDuplicates, try_catch.
    match goal with |- context [let (o, w1) := ?c w in _] => destruct (c w) as [[n|e] w1] end;
      eexists; reflexivity.
  - unfold outcome, checkCalendarDuplicates, try_catch.
    match goal with |- context [let (o, w1) := ?c w in _] => destruct (c w) as [[n|e] w1] end;
      eexists; reflexivity.
  - apply cleanCalendarDuplicates_untouched.
  - apply checkCalendarDuplicates_untouched.
Qed.

End NeverDone.

(** ** maintenance.js: the full maintenance run *)







Section FullMaintenance.

Variable env : Env.




End FullMaintenance.

Section FullMaintenanceRun.

Variable env : Env.

Hypothesis authenticated : forall n, authenticates env n = true.
Hypothesis sqlite_works : forall n, sqlite_fails env n = false.
Hypothesis tokens_work : forall n, tokens_valid env n = true.
Hypothesis deletes_accepted : forall n, events_delete env n = true.

Lemma init_ok (w : World) : init env w = (Return tt, tick (tick w)).
Proof.
  unfold init, bind, db_open, db_exec_schema.
  rewrite sqlite_works. cbn [tick steps]. rewrite sqlite_works. reflexivity.
Qed.

Lemma clean_groups_return dups : forall (total : nat) (w : World),
  exists total' w', fold_of dups total (clean_group env) w = (Return total', w').
Proof.
  induction dups as [|dup dups IH]; intros total w; cbn [fold_of].
  - eexists _, _. reflexivity.
  - unfold bind.
    destruct (clean_group_rows env sqlite_works total dup w) as [t1 [w1 [E _]]].
    rewrite E. apply IH.
Qed.

Lemma cleanDbDuplicates_ok (w : World) :
  exists totalDeleted w',
    cleanDbDuplicates env w = (Return totalDeleted, w')
    /\ appointments w' = appointments (after (cleanDbDuplicates env) w)
    /\ calls w' = calls w.
Proof.
  assert (R : exists n w', cleanDbDuplicates env w = (Return n, w')).
  { unfold cleanDbDuplicates, checkDbDuplicates. unfold bind.
    rewrite (db_query_ok env _ w (sqlite_works _)).
    destruct (List.length (select_duplicate_groups w) =? 0)%nat;
      [eexists _, _; reflexivity | apply clean_groups_return]. }
  destruct R as [n [w' E]]. exists n, w'. split; [exact E|].
  pose proof (cleanDbDuplicates_only_deletes env w) as [_ [_ [_ C]]].
  unfold after in *. rewrite E in *. split; [reflexivity | exact C].
Qed.

Lemma cleanCalendarDuplicates_ok (events : list CalendarEvent.t) timeSlots
  (w : World) :
  (forall n, events_list env n = Some events) ->
  group_events events [] = Some timeSlots ->
  exists totalDeleted w',
    cleanCalendarDuplicates env w = (Return totalDeleted, w')
    /\ appointments w' = appointments w
    /\ calls w'
       = (calls w ++ [CallAuthenticate; CallGetUpcomingAppointments 30]
          ++ map cancel_call
               (flat_map (doomed (valid_ids (select_scheduled_with_event w)))
                         (map snd timeSlots)))%list.
Proof.
  intros Hlist Hgroup.
  pose proof (cleanCalendarDuplicates_count env authenticated sqlite_works
                tokens_work deletes_accepted events timeSlots w Hlist Hgroup) as O.
  pose proof (cleanCalendarDuplicates_calls env authenticated sqlite_works
                tokens_work deletes_accepted events timeSlots w Hlist Hgroup) as C.
  pose proof (cleanCalendarDuplicates_untouched env w) as [A _].
  unfold outcome, after in *.
  destruct (cleanCalendarDuplicates env w) as [r w']. cbn [fst snd] in *.
  subst r. eexists _, w'. split; [reflexivity|]. split; [exact A|].
  rewrite C. do 2 f_equal.
  clear. induction timeSlots as [|entry rest IH]; [reflexivity|].
  cbn [flat_map map]. rewrite map_app, IH, deletions_doomed. reflexivity.
Qed.

(** X30.  A full maintenance run when every call succeeds.  The store is
    left as [cleanDbDuplicates] alone leaves it.  The gateway is asked to
    authenticate and to list for the check; if the check has found a slot
    with more than one event, it is asked again for the sweep, which
    cancels what [cleanCalendarDuplicates] cancels, the valid event ids
    being read from the store after its sweep.  The short cuts the run
    takes when a check finds nothing change neither. *)
Theorem full_maintenance_runs_both_sweeps
  (w : World) (events : list CalendarEvent.t)
  (timeSlots : list (string * list CalendarEvent.t)) :
  (forall n, events_list env n = Some events) ->
  group_events events [] = Some timeSlots ->
  let w' := after (runFullMaintenance env) w in
  appointments w' = appointments (after (cleanDbDuplicates env) w)
  /\ calls w'
     = (calls w ++ [CallAuthenticate; CallGetUpcomingAppointments 30]
        ++ match duplicate_slots timeSlots with
           | [] => []
           | _ :: _ =>
             [CallAuthenticate; CallGetUpcomingAppointments 30]
             ++ map cancel_call
                  (flat_map (doomed (valid_ids (select_scheduled_with_event w')))
                            (map snd timeSlots))
           end)%list.
Proof.
  intros Hlist Hgroup w'.
  assert (Rows : forall v, appointments v = appointments w ->
                           appointments (after (cleanDbDuplicates env) v)
                           = appointments (after (cleanDbDuplicates env) w)).
  { intros v Ev. rewrite !(cleanDbDuplicates_rows env sqlite_works).
    unfold select_duplicate_groups. rewrite Ev. reflexivity. }
  assert (Scheduled : forall u v, appointments u = appointments v ->
                                  select_scheduled_with_event u
                                  = select_scheduled_with_event v).
  { intros u v E. unfold select_scheduled_with_event. rewrite E. reflexivity. }
  assert (R : exists v,
             runFullMaintenance env w = (Return tt, v)
             /\ appointments v = appointments (after (cleanDbDuplicates env) w)
             /\ calls v
                = (calls w ++ [CallAuthenticate; CallGetUpcomingAppointments 30]
                   ++ match duplicate_slots timeSlots with
                      | [] => []
                      | _ :: _ =>
                        [CallAuthenticate; CallGetUpcomingAppointments 30]
                        ++ map cancel_call
                             (flat_map
                                (doomed (valid_ids (select_scheduled_with_event v)))
                                (map snd timeSlots))
                      end)%list).
  { unfold runFullMaintenance, try_finally, try_catch. unfold bind at 1.
    rewrite init_ok. unfold bind at 1. unfold checkDbDuplicates.
    rewrite (db_query_ok env _ _ (sqlite_works _)).
    set (w2 := tick (tick (tick w))).
    destruct (checkCalendarDuplicates_run env authenticated tokens_work
                events timeSlots w2 Hlist Hgroup) as [w3 [E3 [C3 A3]]].
    unfold bind at 1. rewrite E3.
    assert (D : select_duplicate_groups (tick (tick w)) = select_duplicate_groups w)
      by reflexivity.
    rewrite D.
    assert (Aw3 : appointments w3 = appointments w) by (rewrite A3; reflexivity).
    assert (Cw3 : calls w3
                  = (calls w ++ [CallAuthenticate; CallGetUpcomingAppointments 30])%list)
      by (rewrite C3; reflexivity).
    destruct (cleanDbDuplicates_ok w3) as [n4 [w4 [E4 [A4 C4]]]].
    rewrite (Rows w3 Aw3) in A4.
    destruct (select_duplicate_groups w) as [|dup dups] eqn:Dup;
      destruct (duplicate_slots timeSlots) as [|slot slots] eqn:Slot;
      cbn [List.length Nat.eqb Nat.ltb Nat.leb andb].
    - unfold ret, close. eexists. split; [reflexivity|].
      cbn [tick appointments calls]. split; [|rewrite Cw3, app_nil_r; reflexivity].
      rewrite Aw3. symmetry.
      rewrite (cleanDbDuplicates_rows env sqlite_works w), Dup. reflexivity.
    - unfold bind at 1. unfold ret at 1. unfold bind.
      destruct (cleanCalendarDuplicates_ok events timeSlots w3 Hlist Hgroup)
        as [n5 [w5 [E5 [A5 C5]]]].
      rewrite E5. unfold ret, close. eexists. split; [reflexivity|].
      cbn [tick appointments calls]. split.
      + rewrite A5, Aw3. symmetry.
        rewrite (cleanDbDuplicates_rows env sqlite_works w), Dup. reflexivity.
      + rewrite C5, Cw3, <- app_assoc.
        rewrite (Scheduled (tick w5) w3) by (cbn [tick appointments]; exact A5).
        reflexivity.
    - unfold bind at 1. unfold bind at 1. rewrite E4. unfold ret at 1.
      unfold ret, close. eexists. split; [reflexivity|].
      cbn [tick appointments calls]. split; [exact A4|].
      rewrite C4, Cw3, app_nil_r. reflexivity.
    - unfold bind at 1. unfold bind at 1. rewrite E4. unfold ret at 1.
      unfold bind.
      destruct (cleanCalendarDuplicates_ok events timeSlots w4 Hlist Hgroup)
        as [n5 [w5 [E5 [A5 C5]]]].
      rewrite E5. unfold ret, close. eexists. split; [reflexivity|].
      cbn [tick appointments calls]. split; [rewrite A5; exact A4|].
      rewrite C5, C4, Cw3, <- app_assoc.
      rewrite (Scheduled (tick w5) w4) by (cbn [tick appointments]; exact A5).
      reflexivity. }
  destruct R as [v [E [A C]]].
  assert (W : w' = v) by (subst w'; unfold after; rewrite E; reflexivity).
  rewrite W. split; assumption.
Qed.

End FullMaintenanceRun.

(** [rebooked_slot] in the store and [crowded_calendar] listed. *)
Lemma full_maintenance_runs_both_sweeps_witness :
  map Appointment.id
      (appointments (after (runFullMaintenance (quiet_env noon crowded_calendar))
                           (idle_world rebooked_slot)))
  = [1]
  /\ List.length
       (calls (after (runFullMaintenance (quiet_env noon crowded_calendar))
                     (idle_world rebooked_slot)))
     = 7%nat.
Proof.
  destruct (full_maintenance_runs_both_sweeps (quiet_env noon crowded_calendar)
              (fun _ => eq_refl) (fun _ => eq_refl) (fun _ => eq_refl)
              (fun _ => eq_refl)
              (idle_world rebooked_slot) crowded_calendar _
              (fun _ => eq_refl) eq_refl) as [A C].
  split.
  - rewrite A. reflexivity.
  - rewrite C. reflexivity.
Defined.

(** ** Scenarios *)

(** The calendar cannot be reached: the tokens are invalid and every
    request is rejected. *)
Definition offline_env (now : Z) : Env :=
  {| date_now := fun _ => now;
     sqlite_fails := fun _ => false;
     tokens_valid := fun _ => false;
     authenticates := fun _ => false;
     events_list := fun _ => None;
     events_insert := fun _ => None;
     events_update := fun _ => false;
     events_delete := fun _ => false;
     appointmentBot_loads := false;
     new_Date := parse_iso 330;
     moment_tz := parse_iso 330;
     moment := parse_iso 330 |}.

(** A visit completed five weeks ago, one cancelled yesterday, one to
    come. *)
Definition old_and_new : list Appointment.t :=
  [row 1 "9876543210" "2025-03-05" "09:00" "completed" None (noon - days 35);
   row 2 "9876543210" "2025-04-08" "09:00" "cancelled" None (noon - days 1);
   row 3 "9876543210" "2025-04-10" "09:00" "scheduled" None (noon - days 1)].

(** A full sync while the calendar cannot be reached. *)
Lemma full_sync_isolates_calendar_failures_witness :
  outcome (performFullSync (offline_env noon)) (idle_world old_and_new) = Return tt.
Proof.
  apply (full_sync_isolates_calendar_failures (offline_env noon)
           (idle_world old_and_new)).
  intros n. reflexivity.
Defined.

Lemma rebooked_slot_ids : NoDup (map Appointment.id rebooked_slot).
Proof. repeat constructor; cbn; intuition discriminate. Qed.


Lemma store_sweep_converges_witness :
  outcome (checkDbDuplicates (quiet_env noon []))
          (after (cleanDbDuplicates (quiet_env noon [])) (idle_world cancelled_later))
  = Return [].
Proof.
  apply (store_sweep_converges (quiet_env noon []) (fun _ => eq_refl)
           (idle_world cancelled_later)).
  repeat constructor; cbn; intuition discriminate.
Defined.

Lemma store_sweep_counts_deleted_witness :
  exists totalDeleted,
    outcome (cleanDbDuplicates (quiet_env noon [])) (idle_world rebooked_slot)
    = Return totalDeleted
    /\ (totalDeleted
        + List.length (appointments (after (cleanDbDuplicates (quiet_env noon []))
                                           (idle_world rebooked_slot)))
        = 3)%nat.
Proof.
  apply (store_sweep_counts_deleted (quiet_env noon []) (fun _ => eq_refl)
           (idle_world rebooked_slot) rebooked_slot_ids).
Defined.

Lemma grouping_partitions_the_listing_witness :
  [event "e4" "2025-04-11T09:00:00+05:30"; event "e5" "2025-04-11T09:00:00+05:30"]
  = filter (has_key "2025-04-11_09:00") crowded_calendar.
Proof.
  apply (proj1 (proj2 (grouping_partitions_the_listing crowded_calendar _ eq_refl))
               "2025-04-11_09:00").
  right. left. reflexivity.
Defined.

(** On [crowded_calendar], with [e2] the only valid event, the sweep
    cancels three events. *)
Lemma calendar_sweep_leaves_one_per_slot_witness :
  outcome (cleanCalendarDuplicates (quiet_env noon crowded_calendar))
          (idle_world mixed_store)
  = Return 3%nat.
Proof.
  exact (proj1 (calendar_sweep_leaves_one_per_slot
                  (quiet_env noon crowded_calendar)
                  (fun _ => eq_refl) (fun _ => eq_refl) (fun _ => eq_refl)
                  (fun _ => eq_refl)
                  (idle_world mixed_store) crowded_calendar _
                  (fun _ => eq_refl) eq_refl)).
Defined.


Lemma cleaning_a_whatsapp_id_witness :
  cleanPhoneNumber "919876543210@c.us" = "9876543210"
  /\ cleanPhoneNumber "15551234567@c.us" = "15551234567@c.us".
Proof.
  split.
  - exact (cleaning_a_whatsapp_id "919876543210" eq_refl).
  - exact (cleaning_a_whatsapp_id "15551234567" eq_refl).
Defined.

Lemma patient_name_round_trip_witness :
  outcome (getOrCreatePatient (quiet_env noon []) "9876543210")
          (after (updatePatientName (quiet_env noon []) "9876543210" "Asha")
                 (after (getOrCreatePatient (quiet_env noon []) "9876543210")
                        (idle_world [])))
  = Return (Some {| Patient.phone := "9876543210"; Patient.name := Some "Asha" |}).
Proof.
  exact (proj1 (proj2 (patient_name_round_trip (quiet_env noon [])
                         "9876543210" "Asha" (idle_world []) (fun _ => eq_refl)))).
Defined.



Lemma basic_slots_are_the_grid_witness :
  option_map (map BasicSlot.start)
             (generateBasicSlots 20 "2025-04-10" 9 0 17 0 30)
  = Some ["09:00"; "09:30"; "10:00"; "10:30"; "11:00"; "11:30"; "12:00"; "12:30";
          "13:00"; "13:30"; "14:00"; "14:30"; "15:00"; "15:30"; "16:00"; "16:30"].
Proof.
  rewrite (basic_slots_are_the_grid 20 "2025-04-10" 9 0 17 0 30);
    [reflexivity | lia | lia | lia | vm_compute; lia].
Defined.

Lemma basic_slots_over_an_hour_witness :
  option_map (map BasicSlot.start)
             (generateBasicSlots 20 "2025-04-10" 9 0 17 0 90)
  = Some ["09:00"; "10:30"; "11:60"; "12:90"; "13:120"].
Proof.
  rewrite (basic_slots_over_an_hour 20 "2025-04-10" 9 0 17 0 90);
    [reflexivity | lia | lia | lia | vm_compute; lia].
Defined.


(** [mixed_store] and a listing with the event of its scheduled record at
    the record's time. *)
Lemma sync_of_agreeing_stores_writes_nothing_witness :
  calls (after (syncAppointments (quiet_env noon [event "e2" "2025-04-10T09:00:00+05:30"]))
               (idle_world mixed_store))
  = [CallGetUpcomingAppointments 30].
Proof.
  refine (proj2 (proj2 (sync_of_agreeing_stores_writes_nothing
                          (quiet_env noon [event "e2" "2025-04-10T09:00:00+05:30"])
                          (fun _ => eq_refl) (idle_world mixed_store)
                          [event "e2" "2025-04-10T09:00:00+05:30"]
                          (fun _ => eq_refl) (fun _ => eq_refl) _))).
  intros a e [<-|[<-|[]]] Hs Hg Hne.
  - discriminate Hs.
  - injection Hg as <-. eexists. split; reflexivity.
Defined.
